(** * s2fft: Wigner-d Turok recursion, spherical harmonic transforms and
      coefficient re-indexing -- a shallow embedding of the Python sources

    Conventions of the embedding.

    - Python [int] is [Z].  numpy [float64] values are embedded as real
      numbers [R] (exact arithmetic: rounding, infinities and NaN are not
      represented), [complex128] as pairs of reals.  An equality of values
      proved here is an equality of real numbers.  It is an equality of the
      [float64] values where no rounding separates the two sides: entries
      that are never written, copied or negated, and the constants [0],
      [1] and [-1] of the singular angles.  It is not where the sources
      reach the two sides through different expressions: [cp2[m - 1]] is
      [cpi[m - 1] / cpi[m - 2]] in [turok_quarter_spin] and
      [cpi[m - 1] * cp[m - 2]] in [turok_quarter]; the rescaling by [bigi]
      is undone through the exponent [lrenorm]; sums are formed in
      different orders.  A statement that compares values across such
      expressions holds for real numbers only: those are kept as lemmas
      and say so, and the main theorems compare values of the first kind.
    - A raised exception is a value [Err e] of the [result] monad; the
      statements of a Python function become a chain of binds.
    - A one-dimensional [ndarray] is a [list]; a two-dimensional one is a
      list of rows.  Every subscript goes through [py_index], which wraps a
      negative index once and raises [IndexError] out of range, as numpy
      does.
    - [for i in range(a, b)] is [for_range a b]; the loop body receives the
      loop variable and the mutable state it updates. *)

From Stdlib Require Import ZArith List Lia Reals Lra Bool String Ascii.
Import ListNotations.

Open Scope Z_scope.

(** ** Exceptions and the result monad *)

(** The three [ValueError]s of the package are told apart by the message
    they carry; the names are the ones of the error taxonomy.
    - [InvalidBandlimit]: "Wigner-d bandlimit .. cannot be equal to or
      greater than L=.."
    - [SpinExceedsDegree]: "Wigner-D not valid for l=.. < spin=..."
    - [UnsupportedSampling]: "Reflection acceleration scheme not yet
      stable." and "Sampling scheme sampling=.. not implement (only DH
      supported at present)"
    - [NumpyValueError]: a [ValueError] raised inside numpy (negative
      dimension, shapes that cannot be broadcast). *)
Inductive error : Type :=
| InvalidBandlimit
| SpinExceedsDegree
| UnsupportedSampling
| NumpyValueError
| IndexError
| TypeError
| ZeroDivisionError.

Inductive result (A : Type) : Type :=
| Ok (a : A)
| Err (e : error).

Arguments Ok {A} a.
Arguments Err {A} e.

Definition bind {A B : Type} (c : result A) (k : A -> result B) : result B :=
  match c with
  | Ok a => k a
  | Err e => Err e
  end.

Notation "x <- c1 ;; c2" := (bind c1 (fun x => c2))
  (at level 61, c1 at next level, right associativity).
Notation "' pat <- c1 ;; c2" :=
  (bind c1 (fun x => match x with pat => c2 end))
  (at level 61, pat pattern, c1 at next level, right associativity).

Definition is_ok {A : Type} (c : result A) : Prop := exists a, c = Ok a.

(** ** Loops *)

Fixpoint for_count {S : Type} (n : nat) (i : Z)
    (body : Z -> S -> result S) (s : S) : result S :=
  match n with
  | O => Ok s
  | Datatypes.S n' => s' <- body i s ;; for_count n' (i + 1) body s'
  end.

(** [for i in range(a, b): s = body(i, s)] *)
Definition for_range {S : Type} (a b : Z)
    (body : Z -> S -> result S) (s : S) : result S :=
  for_count (Z.to_nat (b - a)) a body s.

(** [for t, x in enumerate(xs): s = body(t, x, s)] *)
Fixpoint for_enum_from {A S : Type} (t : Z) (xs : list A)
    (body : Z -> A -> S -> result S) (s : S) : result S :=
  match xs with
  | [] => Ok s
  | x :: xs' => s' <- body t x s ;; for_enum_from (t + 1) xs' body s'
  end.

Definition for_enumerate {A S : Type} (xs : list A)
    (body : Z -> A -> S -> result S) (s : S) : result S :=
  for_enum_from 0 xs body s.

(** ** numpy arrays *)

Definition Zlen {A : Type} (v : list A) : Z := Z.of_nat (List.length v).

(** Subscript normalisation on an axis of length [n]. *)
Definition py_index (n i : Z) : result Z :=
  if (0 <=? i) && (i <? n) then Ok i
  else if (- n <=? i) && (i <? 0) then Ok (i + n)
  else Err IndexError.

(** In-range read with a default, used in statements and invariants. *)
Definition nthZ {A : Type} (d : A) (v : list A) (i : Z) : A :=
  nth (Z.to_nat i) v d.

Fixpoint upd_nat {A : Type} (v : list A) (n : nat) (x : A) : list A :=
  match v, n with
  | [], _ => []
  | _ :: t, O => x :: t
  | h :: t, Datatypes.S n' => h :: upd_nat t n' x
  end.

Definition setZ {A : Type} (v : list A) (i : Z) (x : A) : list A :=
  upd_nat v (Z.to_nat i) x.

(** [v[i]] *)
Definition get1 {A : Type} (v : list A) (i : Z) : result A :=
  k <- py_index (Zlen v) i ;;
  match nth_error v (Z.to_nat k) with
  | Some x => Ok x
  | None => Err IndexError
  end.

(** [v[i] = x] *)
Definition set1 {A : Type} (v : list A) (i : Z) (x : A) : result (list A) :=
  k <- py_index (Zlen v) i ;; Ok (setZ v k x).

(** [m[i, j]] *)
Definition get2 {A : Type} (m : list (list A)) (i j : Z) : result A :=
  row <- get1 m i ;; get1 row j.

(** [m[i, j] = x] *)
Definition set2 {A : Type} (m : list (list A)) (i j : Z) (x : A)
  : result (list (list A)) :=
  row <- get1 m i ;; row' <- set1 row j x ;; set1 m i row'.

(** [np.zeros(n)]: a negative dimension is a [ValueError]. *)
Definition np_zeros {A : Type} (zero : A) (n : Z) : result (list A) :=
  if n <? 0 then Err NumpyValueError else Ok (repeat zero (Z.to_nat n)).

(** [np.zeros((r, c))] *)
Definition np_zeros2 {A : Type} (zero : A) (r c : Z)
  : result (list (list A)) :=
  if (r <? 0) || (c <? 0) then Err NumpyValueError
  else Ok (repeat (repeat zero (Z.to_nat c)) (Z.to_nat r)).

(** A list of rows is an [r] x [c] array. *)
Definition shape2 {A : Type} (m : list (list A)) (r c : Z) : Prop :=
  Zlen m = r /\ Forall (fun row => Zlen row = c) m.

Definition mat_at {A : Type} (d : A) (m : list (list A)) (i j : Z) : A :=
  nthZ d (nthZ [] m i) j.

(** ** Numbers *)

(** [complex128] *)
Definition C : Type := (R * R)%type.
Definition C0 : C := (0%R, 0%R).
Definition Cadd (x y : C) : C := (fst x + fst y, snd x + snd y)%R.
Definition Cmul (x y : C) : C :=
  (fst x * fst y - snd x * snd y, fst x * snd y + snd x * fst y)%R.
Definition RtoC (x : R) : C := (x, 0%R).
(** [np.exp(1j * x)] for a real [x] *)
Definition Cexp_i (x : R) : C := (cos x, sin x).

(** [(-1) ** k]: [1] or [-1] by the parity of [k] (for [k < 0] Python
    returns the float of the same value). *)
Definition m1pow (k : Z) : R := if Z.even k then 1%R else (-1)%R.

(** ** Index bookkeeping ([s2fft.samples], not part of the sources) *)

(** Modelled from the spec: [samples.elm2ind], the flat offset of the
    coefficient [(el, m)].  The module [s2fft.samples] is missing; the
    layout is the one of the docstrings of [flm_2d_to_1d] and
    [flm_1d_to_2d], [1D = [flm_{0,0}, flm_{1,-1}, flm_{1,0}, flm_{1,1}, ...]],
    degree after degree and within a degree by increasing order. *)
Definition elm2ind (el m : Z) : Z := el * el + el + m.

(** Modelled from the spec: [samples.ncoeff], the number of coefficients
    [(el, m)] with [0 <= el < L] and [-el <= m <= el]. *)
Definition ncoeff (L : Z) : Z := L * L.

(** ** [s2fft/utils.py] *)

(** [flm_2d_to_1d(flm_2d, L)].  The test on [len(flm_2d.shape)] is a test
    on the type of the argument: it is two-dimensional here. *)
Definition flm_2d_to_1d (flm_2d : list (list C)) (L : Z) : result (list C) :=
  flm_1d <- np_zeros C0 (ncoeff L) ;;
  for_range 0 L (fun el flm_1d =>
    for_range (- el) (el + 1) (fun m flm_1d =>
      x <- get2 flm_2d el (L - 1 + m) ;;
      set1 flm_1d (elm2ind el m) x) flm_1d) flm_1d.

(** [flm_1d_to_2d(flm_1d, L)]; the argument is one-dimensional. *)
Definition flm_1d_to_2d (flm_1d : list C) (L : Z) : result (list (list C)) :=
  flm_2d <- np_zeros2 C0 L (2 * L - 1) ;;
  for_range 0 L (fun el flm_2d =>
    for_range (- el) (el + 1) (fun m flm_2d =>
      x <- get1 flm_1d (elm2ind el m) ;;
      set2 flm_2d el (L - 1 + m) x) flm_2d) flm_2d.

(** ** [s2fft/wigner/turok.py] *)

(** What a Python variable of the module can hold: the [int] returned for
    [l == 0], a vector, or a matrix. *)
Inductive ndarray : Type :=
| Scalar (x : R)
| Arr1 (v : list R)
| Arr2 (m : list (list R)).

(** [dl[i, j]] on such a value: an [int] is not subscriptable, a vector
    has one axis only. *)
Definition nd_get2 (dl : ndarray) (i j : Z) : result R :=
  match dl with
  | Arr2 m => get2 m i j
  | Arr1 _ => Err IndexError
  | Scalar _ => Err TypeError
  end.

(** [dl[i, j] = x] *)
Definition nd_set2 (dl : ndarray) (i j : Z) (x : R) : result ndarray :=
  match dl with
  | Arr2 m => m' <- set2 m i j x ;; Ok (Arr2 m')
  | Arr1 _ => Err IndexError
  | Scalar _ => Err TypeError
  end.

(** [[f 0, ..., f (n-1)]] *)
Definition tabulate {A : Type} (n : Z) (f : Z -> A) : list A :=
  map (fun k => f (Z.of_nat k)) (seq 0 (Z.to_nat n)).

(** [np.identity(n)] *)
Definition np_identity (n : Z) : result (list (list R)) :=
  if n <? 0 then Err NumpyValueError
  else Ok (tabulate n (fun r => tabulate n (fun c =>
             if r =? c then 1%R else 0%R))).

(** Bounds of the slice [a:b] on an axis of length [n]: negative bounds
    count from the end, and both are clipped to the axis. *)
Definition slice_bounds (n a b : Z) : Z * Z :=
  let norm := fun x => if x <? 0 then Z.max 0 (x + n) else Z.min x n in
  (norm a, Z.max (norm a) (norm b)).

(** [dl[a:b] = v] for a vector [dl]: a scalar fills the slice, a vector
    is copied when its length is the length of the slice (or is 1). *)
Definition assign_slice (dl : list R) (a b : Z) (v : ndarray)
  : result (list R) :=
  let '(lo, hi) := slice_bounds (Zlen dl) a b in
  match v with
  | Scalar x =>
      Ok (tabulate (Zlen dl) (fun k =>
            if (lo <=? k) && (k <? hi) then x else nthZ 0%R dl k))
  | Arr1 w =>
      if Zlen w =? hi - lo then
        Ok (tabulate (Zlen dl) (fun k =>
              if (lo <=? k) && (k <? hi) then nthZ 0%R w (k - lo)
              else nthZ 0%R dl k))
      else if Zlen w =? 1 then
        Ok (tabulate (Zlen dl) (fun k =>
              if (lo <=? k) && (k <? hi) then nthZ 0%R w 0
              else nthZ 0%R dl k))
      else Err NumpyValueError
  | Arr2 _ => Err NumpyValueError
  end.

(** [dl[a:b, a:b] = v] for a square matrix [dl] of side [n]: a scalar
    fills the block, a matrix of the shape of the block is copied. *)
Definition assign_block (n : Z) (dl : list (list R)) (a b : Z) (v : ndarray)
  : result (list (list R)) :=
  let '(lo, hi) := slice_bounds n a b in
  let inside := fun r c =>
    (lo <=? r) && (r <? hi) && (lo <=? c) && (c <? hi) in
  match v with
  | Scalar x =>
      Ok (tabulate n (fun r => tabulate n (fun c =>
            if inside r c then x else mat_at 0%R dl r c)))
  | Arr2 w =>
      if (Zlen w =? hi - lo)
         && forallb (fun row => Zlen row =? hi - lo) w then
        Ok (tabulate n (fun r => tabulate n (fun c =>
              if inside r c then mat_at 0%R w (r - lo) (c - lo)
              else mat_at 0%R dl r c)))
      else Err NumpyValueError
  | Arr1 _ => Err NumpyValueError
  end.

(** [a / b] on two Python [int]s. *)
Definition py_truediv (a b : Z) : result R :=
  if b =? 0 then Err ZeroDivisionError else Ok (IZR a / IZR b)%R.

(** [lp1 = 1  # Offset for indexing] *)
Definition lp1 : Z := 1.

(** [big_const = 1e10], [bigi = 1.0 / big_const], [lbig = np.log(big_const)] *)
Definition big_const : R := 10000000000%R.
Definition bigi : R := (1 / big_const)%R.
Definition lbig : R := ln big_const.

(** [turok_fill(dl, l)]: reflects the quarter plane to the complete
    matrix. *)
Definition turok_fill (dl : ndarray) (l : Z) : result ndarray :=
  (* Reflect across anti-diagonal *)
  dl <- for_range 1 (l + 1) (fun i dl =>
          for_range (l + 1) (2 * l + 1 - i + 1) (fun j dl =>
            x <- nd_get2 dl (j - lp1) (i - lp1) ;;
            nd_set2 dl (2 * l + 2 - i - lp1) (2 * l + 2 - j - lp1) x) dl) dl ;;
  (* Reflect across diagonal *)
  dl <- for_range 1 (l + 2) (fun i dl =>
          let sgn := (-1)%R in
          '(dl, _) <- for_range (i + 1) (l + 2) (fun j '(dl, sgn) =>
              x <- nd_get2 dl (j - lp1) (i - lp1) ;;
              dl <- nd_set2 dl (i - lp1) (j - lp1) (x * sgn)%R ;;
              Ok (dl, (sgn * -1)%R)) (dl, sgn) ;;
          Ok dl) dl ;;
  (* Fill right matrix *)
  dl <- for_range (l + 2) (2 * l + 2) (fun i dl =>
          let sgn := m1pow (i + 1) in
          '(dl, _) <- for_range 1 (2 * l + 2 - i + 1) (fun j '(dl, sgn) =>
              x <- nd_get2 dl (i - lp1) (j - lp1) ;;
              dl <- nd_set2 dl (j - lp1) (i - lp1) (x * sgn)%R ;;
              Ok (dl, (sgn * -1)%R)) (dl, sgn) ;;
          for_range i (2 * l + 2) (fun j dl =>
            x <- nd_get2 dl (2 * l + 2 - i - lp1) (2 * l + 2 - j - lp1) ;;
            nd_set2 dl (j - lp1) (i - lp1) x) dl) dl ;;
  dl <- for_range (l + 2) (2 * l + 2) (fun i dl =>
          for_range (2 * l + 3 - i) (i - 1 + 1) (fun j dl =>
            x <- nd_get2 dl (2 * l + 2 - i - lp1) (2 * l + 2 - j - lp1) ;;
            nd_set2 dl (j - lp1) (i - lp1) x) dl) dl ;;
  Ok dl.

(** The state the recursion mutates: the matrix [dl] and the vector
    [lrenorm] of renormalisation exponents. *)
Definition rstate : Type := (list (list R) * list R)%type.

(** "Populate vectors for first row": the statements from
    [log_first_row[0] = ...] to the end of the loop over [i], the same in
    [turok_quarter] and in [turok_quarter_spin]. *)
Definition populate_first_row (c2 t : R) (l : Z)
    (log_first_row sign : list R) : result (list R * list R) :=
  log_first_row <- set1 log_first_row 0 (2 * IZR l * ln (Rabs c2))%R ;;
  sign <- set1 sign 0 1%R ;;
  for_range 2 (2 * l + 2) (fun i '(log_first_row, sign) =>
    let m := l + 1 - i in
    q <- py_truediv (m + l + 1) (l - m) ;;
    let ratio := sqrt q in
    a <- get1 log_first_row (i - 2) ;;
    log_first_row <- set1 log_first_row (i - 1) (a + ln ratio + ln (Rabs t))%R ;;
    b <- get1 sign (i - 2) ;;
    sign <- set1 sign (i - 1) (b * t / Rabs t)%R ;;
    Ok (log_first_row, sign)) (log_first_row, sign).

(** One step of the three-term recurrence along row [i], with the
    retrospective renormalisation: the body of the loops over [m], the
    same at its four occurrences ([index] is called [i] in
    [turok_quarter_spin]).  Which rows are rescaled depends on the test
    against [big_const]; over [R] the rescaling is undone exactly by
    [lrenorm], over [float64] up to rounding only. *)
Definition recurrence_step (l : Z) (c s omc : R) (cpi cp2 : list R)
    (i m : Z) (st : rstate) : result rstate :=
  let '(dl, lrenorm) := st in
  let lamb := ((IZR (l + 1) * omc - IZR i + IZR m * c) / s)%R in
  a <- get1 cpi (m - 1) ;;
  x <- get2 dl (i - lp1) (m - lp1) ;;
  b <- get1 cp2 (m - 1) ;;
  y <- get2 dl (i - lp1) (m - 1 - lp1) ;;
  dl <- set2 dl (i - lp1) (m + 1 - lp1) (lamb * a * x - b * y)%R ;;
  v <- get2 dl (i - lp1) (m + 1 - lp1) ;;
  if Rgt_dec v big_const then
    r <- get1 lrenorm (i - 1) ;;
    lrenorm <- set1 lrenorm (i - 1) (r - lbig)%R ;;
    dl <- for_range 1 (m + 2) (fun im dl =>
            z <- get2 dl (i - lp1) (im - lp1) ;;
            set2 dl (i - lp1) (im - lp1) (z * bigi)%R) dl ;;
    Ok (dl, lrenorm)
  else Ok (dl, lrenorm).

(** The first two entries of row [i]: the statements before the loop
    over [m]. *)
Definition recurrence_start (l : Z) (c s omc : R) (cpi : list R)
    (i : Z) (dl : list (list R)) : result (list (list R)) :=
  dl <- set2 dl (i - lp1) (1 - lp1) 1%R ;;
  let lamb := ((IZR (l + 1) * omc - IZR i + c) / s)%R in
  x <- get2 dl (i - lp1) (1 - lp1) ;;
  a <- get1 cpi 0 ;;
  set2 dl (i - lp1) (2 - lp1) (lamb * x * a)%R.

(** Row [i] from the diagonal to the horizontal (lower left eighth). *)
Definition recurrence_lower (l : Z) (c s omc : R) (cpi cp2 : list R)
    (i : Z) (st : rstate) : result rstate :=
  let '(dl, lrenorm) := st in
  dl <- recurrence_start l c s omc cpi i dl ;;
  if 2 <? i then
    for_range 2 i (recurrence_step l c s omc cpi cp2 i) (dl, lrenorm)
  else Ok (dl, lrenorm).

(** Row [i] from the horizontal to the anti-diagonal (upper left eighth). *)
Definition recurrence_upper (l : Z) (c s omc : R) (cpi cp2 : list R)
    (i : Z) (st : rstate) : result rstate :=
  let '(dl, lrenorm) := st in
  dl <- recurrence_start l c s omc cpi i dl ;;
  if i <? 2 * l then
    for_range 2 (2 * l - i + 2) (recurrence_step l c s omc cpi cp2 i)
      (dl, lrenorm)
  else Ok (dl, lrenorm).

(** "Apply renormalisation" to the first [n] entries of row [i]: the body
    of the two loops over [i], with [n = i] in the first and
    [n = 2 * l + 2 - i] in the second. *)
Definition renormalise_row (log_first_row sign lrenorm : list R)
    (i n : Z) (dl : list (list R)) : result (list (list R)) :=
  sg <- get1 sign (i - 1) ;;
  lf <- get1 log_first_row (i - 1) ;;
  lr <- get1 lrenorm (i - 1) ;;
  let renorm := (sg * exp (lf - lr))%R in
  for_range 1 (n + 1) (fun j dl =>
    x <- get2 dl (i - lp1) (j - lp1) ;;
    set2 dl (i - lp1) (j - lp1) (x * renorm)%R) dl.

(** [turok_quarter(beta, l)] *)
Definition turok_quarter (beta : R) (l : Z) : result ndarray :=
  if Rle_dec (Rabs beta) 0 then
    dl <- np_identity (2 * l + 1) ;; Ok (Arr2 dl)
  else if Rge_dec (Rabs beta) PI then
    dl <- np_zeros2 0%R (2 * l + 1) (2 * l + 1) ;;
    dl <- for_range (- l) (l + 1) (fun m dl =>
            set2 dl (l - m) (l + m) (m1pow (l + m))) dl ;;
    Ok (Arr2 dl)
  else if l =? 0 then Ok (Scalar 1%R)
  else
    dl <- np_zeros2 0%R (2 * l + 1) (2 * l + 1) ;;
    let c := cos beta in
    let s := sin beta in
    let t := tan (- beta / 2) in
    let c2 := cos (beta / 2) in
    let omc := (1 - c)%R in
    lrenorm <- np_zeros 0%R (2 * l + 1) ;;
    cp <- np_zeros 0%R (2 * l + 1) ;;
    cpi <- np_zeros 0%R (2 * l + 1) ;;
    cp2 <- np_zeros 0%R (2 * l + 1) ;;
    log_first_row <- np_zeros 0%R (2 * l + 1) ;;
    sign <- np_zeros 0%R (2 * l + 1) ;;
    '(log_first_row, sign) <- populate_first_row c2 t l log_first_row sign ;;
    '(cpi, cp) <- for_range 1 (l + 2) (fun m '(cpi, cp) =>
        let xm := l - m in
        cpi <- set1 cpi (m - 1)
                 (2 / sqrt (IZR (l * (l + 1) - xm * (xm + 1))))%R ;;
        a <- get1 cpi (m - 1) ;;
        cp <- set1 cp (m - 1) (1 / a)%R ;;
        Ok (cpi, cp)) (cpi, cp) ;;
    cp2 <- for_range 2 (l + 2) (fun m cp2 =>
        a <- get1 cpi (m - 1) ;;
        b <- get1 cp (m - 2) ;;
        set1 cp2 (m - 1) (a * b)%R) cp2 ;;
    dl <- set2 dl (1 - lp1) (1 - lp1) 1%R ;;
    dl <- set2 dl (2 * l + 1 - lp1) (1 - lp1) 1%R ;;
    st <- for_range 2 (l + 2)
            (recurrence_lower l c s omc cpi cp2) (dl, lrenorm) ;;
    '(dl, lrenorm) <- for_range (l + 2) (2 * l + 1)
            (recurrence_upper l c s omc cpi cp2) st ;;
    dl <- for_range 1 (l + 2) (fun i dl =>
            renormalise_row log_first_row sign lrenorm i i dl) dl ;;
    dl <- for_range (l + 2) (2 * l + 2) (fun i dl =>
            renormalise_row log_first_row sign lrenorm i (2 * l + 2 - i) dl)
            dl ;;
    Ok (Arr2 dl).

(** The reflections of [turok_quarter_spin] under [accelerate == True]. *)
Definition accelerated_reflections (l spin : Z) (dl : list (list R))
  : result (list (list R)) :=
  let index := l - spin + lp1 in
  let m_cap := l - Z.abs spin + lp1 in
  (* Reflect across diagonal *)
  dl <- (if 0 <=? spin then
           for_range index (index + 1) (fun i dl =>
             let sgn := (-1)%R in
             '(dl, _) <- for_range (i + 1) (l + 2) (fun j '(dl, sgn) =>
                 x <- get2 dl (j - lp1) (i - lp1) ;;
                 dl <- set2 dl (i - lp1) (j - lp1) (x * sgn)%R ;;
                 Ok (dl, (sgn * -1)%R)) (dl, sgn) ;;
             Ok dl) dl
         else Ok dl) ;;
  (* Reflect across anti-diagonal *)
  dl <- (if spin <? 0 then
           for_range (l + spin + 1) (l + spin + 2) (fun i dl =>
             for_range (l + 1) (2 * l + 1 - i + 1) (fun j dl =>
               x <- get2 dl (j - lp1) (i - lp1) ;;
               set2 dl (2 * l + 2 - i - lp1) (2 * l + 2 - j - lp1) x) dl) dl
         else Ok dl) ;;
  (* Conjugate reflect across vertical line from spin to -spin *)
  dl <- for_range 0 m_cap (fun i dl =>
          x <- get2 dl (l + spin) i ;;
          set2 dl (index - lp1) (2 * l - i) (m1pow (spin + i + 1) * x)%R) dl ;;
  if 0 <? Z.abs spin then
    if 0 <=? spin then
      '(dl, _) <- for_range m_cap l (fun i '(dl, step) =>
          x <- get2 dl (l + spin - step) (m_cap - 1) ;;
          dl <- set2 dl (index - lp1) (2 * l - i)
                  (m1pow (spin + i + 1) * x)%R ;;
          Ok (dl, step + 1)) (dl, 1) ;;
      Ok dl
    else
      '(dl, _) <- for_range m_cap l (fun i '(dl, step) =>
          x <- get2 dl (l - spin - step) (m_cap - 1) ;;
          dl <- set2 dl (index - lp1) (2 * l - i) x ;;
          Ok (dl, step - 1)) (dl, 2 * Z.abs spin - 1) ;;
      Ok dl
  else Ok dl.

(** [dl[i]] for the value returned at the end of [turok_quarter_spin]. *)
Definition nd_row (dl : ndarray) (i : Z) : result ndarray :=
  match dl with
  | Arr2 m => row <- get1 m i ;; Ok (Arr1 row)
  | Arr1 v => x <- get1 v i ;; Ok (Scalar x)
  | Scalar _ => Err TypeError
  end.

(** [turok_quarter_spin(beta, l, spin, accelerate)].  It fills [cp2] with
    [cpi[m - 1] / cpi[m - 2]], where [turok_quarter] takes
    [cpi[m - 1] * cp[m - 2]]: the same real number, not the same
    [float64]. *)
Definition turok_quarter_spin (beta : R) (l spin : Z) (accelerate : bool)
  : result ndarray :=
  if Rle_dec (Rabs beta) 0 then
    dl <- np_zeros 0%R (2 * l + 1) ;;
    dl <- set1 dl (l - spin) 1%R ;;
    Ok (Arr1 dl)
  else if Rge_dec (Rabs beta) PI then
    dl <- np_zeros 0%R (2 * l + 1) ;;
    dl <- set1 dl (l + spin) (m1pow (l + spin)) ;;
    Ok (Arr1 dl)
  else if l =? 0 then Ok (Scalar 1%R)
  else
    dl <- np_zeros2 0%R (2 * l + 1) (2 * l + 1) ;;
    let c := cos beta in
    let s := sin beta in
    let t := tan (- beta / 2) in
    let c2 := cos (beta / 2) in
    let omc := (1 - c)%R in
    lrenorm <- np_zeros 0%R (2 * l + 1) ;;
    cpi <- np_zeros 0%R (2 * l + 1) ;;
    cp2 <- np_zeros 0%R (2 * l + 1) ;;
    log_first_row <- np_zeros 0%R (2 * l + 1) ;;
    sign <- np_zeros 0%R (2 * l + 1) ;;
    '(log_first_row, sign) <- populate_first_row c2 t l log_first_row sign ;;
    cpi <- for_range 1 (l + 2) (fun m cpi =>
        let xm := l - m in
        set1 cpi (m - 1)
          (2 / sqrt (IZR (l * (l + 1) - xm * (xm + 1))))%R) cpi ;;
    cp2 <- for_range 2 (l + 2) (fun m cp2 =>
        a <- get1 cpi (m - 1) ;;
        b <- get1 cpi (m - 2) ;;
        set1 cp2 (m - 1) (a / b)%R) cp2 ;;
    dl <- set2 dl (1 - lp1) (1 - lp1) 1%R ;;
    dl <- set2 dl (2 * l + 1 - lp1) (1 - lp1) 1%R ;;
    let index := l - spin + lp1 in
    st <- for_range (l - Z.abs spin + lp1) (l + 2)
            (recurrence_lower l c s omc cpi cp2) (dl, lrenorm) ;;
    '(dl, lrenorm) <- for_range (l + 2) (l + Z.abs spin + 2)
            (recurrence_upper l c s omc cpi cp2) st ;;
    dl <- for_range (l - Z.abs spin + lp1) (l + 2) (fun i dl =>
            renormalise_row log_first_row sign lrenorm i i dl) dl ;;
    dl <- for_range (l + 2) (l + Z.abs spin + 2) (fun i dl =>
            renormalise_row log_first_row sign lrenorm i (2 * l + 2 - i) dl)
            dl ;;
    dl <- (if accelerate then
             dl <- accelerated_reflections l spin dl ;; Ok (Arr2 dl)
           else turok_fill (Arr2 dl) l) ;;
    nd_row dl (index - lp1).

(** [compute_full(beta, el, L)] *)
Definition compute_full (beta : R) (el L : Z) : result (list (list R)) :=
  if L <=? el then Err InvalidBandlimit
  else
    dl <- np_zeros2 0%R (2 * L - 1) (2 * L - 1) ;;
    q <- turok_quarter beta el ;;
    v <- turok_fill q el ;;
    assign_block (2 * L - 1) dl (L - 1 - el) (L + el) v.

(** [compute_spin_slice(beta, el, L, spin, accelerate)] *)
Definition compute_spin_slice (beta : R) (el L spin : Z) (accelerate : bool)
  : result (list R) :=
  if el <? spin then Err SpinExceedsDegree
  else if accelerate then Err UnsupportedSampling
  else if L <=? el then Err InvalidBandlimit
  else
    dl <- np_zeros 0%R (2 * L - 1) ;;
    v <- turok_quarter_spin beta el spin accelerate ;;
    assign_slice dl (L - 1 - el) (L + el) v.

(** ** [s2fft/utils.py]: the HEALPix layout and random coefficients *)

(** [np.conj] *)
Definition Cconj (x : C) : C := (fst x, (- snd x)%R).

Section Healpix.

(** [samples.hp_getidx(L, el, m)] is not part of the sources: the HEALPix
    offset of the coefficient [(el, m)], [m >= 0]. *)
Variable hp_getidx : Z -> Z -> Z -> Z.

(** [flm_hp_to_2d(flm_hp, L)]; the argument is one-dimensional.  The
    entry for [-m] is computed from the entry for [m] just stored:
    [(-1) ** m * np.conj(flm_2d[el, L - 1 + m])]. *)
Definition flm_hp_to_2d (flm_hp : list C) (L : Z) : result (list (list C)) :=
  flm_2d <- np_zeros2 C0 L (2 * L - 1) ;;
  for_range 0 L (fun el flm_2d =>
    x <- get1 flm_hp (hp_getidx L el 0) ;;
    flm_2d <- set2 flm_2d el (L - 1 + 0) x ;;
    for_range 1 (el + 1) (fun m flm_2d =>
      x <- get1 flm_hp (hp_getidx L el m) ;;
      flm_2d <- set2 flm_2d el (L - 1 + m) x ;;
      y <- get2 flm_2d el (L - 1 + m) ;;
      set2 flm_2d el (L - 1 - m) (Cmul (RtoC (m1pow m)) (Cconj y)))
      flm_2d) flm_2d.

(** [int(L * (L + 1) / 2 + L + 1)]: [L * (L + 1)] is even, the quotient
    is exact. *)
Definition hp_size (L : Z) : Z := L * (L + 1) / 2 + L + 1.

(** [flm_2d_to_hp(flm_2d, L)].  The test on [len(flm_hp.shape)] is made on
    the vector just allocated and never fires. *)
Definition flm_2d_to_hp (flm_2d : list (list C)) (L : Z) : result (list C) :=
  flm_hp <- np_zeros C0 (hp_size L) ;;
  for_range 0 L (fun el flm_hp =>
    for_range 0 (el + 1) (fun m flm_hp =>
      x <- get2 flm_2d el (L - 1 + m) ;;
      set1 flm_hp (hp_getidx L el m) x) flm_hp) flm_hp.

End Healpix.

(** Modelled from the spec: the HEALPix layout of the docstrings of
    [flm_hp_to_2d] and [flm_2d_to_hp],
    [healpix = [flm_{0,0}, ..., flm_{L,0}, flm_{1,1}, ..., flm_{L,1}, ...]],
    order after order and within an order by increasing degree up to [L]. *)
Definition hp_getidx_layout (L el m : Z) : Z := m * (2 * L + 1 - m) / 2 + el.

Section Random.

(** numpy's global generator: its state, and [np.random.rand()], which
    returns a float and advances the state. *)
Variable G : Type.
Variable rand : G -> R * G.

(** [np.random.rand(n)]: [n] draws in a row. *)
Fixpoint rand_vec (n : nat) (g : G) : list R * G :=
  match n with
  | O => ([], g)
  | Datatypes.S n' =>
      let '(x, g) := rand g in
      let '(v, g) := rand_vec n' g in (x :: v, g)
  end.

(** [generate_flm(L, spin, reality)] *)
Definition generate_flm (L spin : Z) (reality : bool) (g : G)
  : result (list C * G) :=
  let ncoeff := ncoeff L in
  flm <- np_zeros C0 ncoeff ;;
  if negb reality then
    let '(re, g) := rand_vec (Z.to_nat ncoeff) g in
    let '(im, g) := rand_vec (Z.to_nat ncoeff) g in
    let flm := map (fun '(a, b) => Cadd (RtoC a) (0%R, b)) (combine re im) in
    let '(lo, hi) := slice_bounds (Zlen flm) 0 (spin * spin) in
    Ok (tabulate (Zlen flm) (fun k =>
          if (lo <=? k) && (k <? hi) then C0 else nthZ C0 flm k), g)
  else
    for_range spin L (fun el '(flm, g) =>
      let '(x, g) := rand g in
      flm <- set1 flm (elm2ind el 0) (RtoC x) ;;
      for_range 1 (el + 1) (fun em '(flm, g) =>
        let '(a, g) := rand g in
        let '(b, g) := rand g in
        flm <- set1 flm (elm2ind el em) (Cadd (RtoC a) (0%R, b)) ;;
        y <- get1 flm (elm2ind el em) ;;
        flm <- set1 flm (elm2ind el (- em))
                 (Cmul (RtoC (m1pow em)) (Cconj y)) ;;
        Ok (flm, g)) (flm, g)) (flm, g).

End Random.

(** ** [s2fft/transform.py] *)

(** [sampling.lower()] on the ASCII letters. *)
Definition lower_ascii (ch : ascii) : ascii :=
  let n := nat_of_ascii ch in
  if (65 <=? n)%nat && (n <=? 90)%nat then ascii_of_nat (n + 32) else ch.

Fixpoint lower (s : string) : string :=
  match s with
  | EmptyString => EmptyString
  | String ch s' => String (lower_ascii ch) (lower s')
  end.

(** [np.transpose(f)] for [f] with [cols] columns. *)
Definition np_transpose {A : Type} (d : A) (cols : Z) (f : list (list A))
  : list (list A) :=
  tabulate cols (fun c => tabulate (Zlen f) (fun r => mat_at d f r c)).

(** [m[a:b, t]] for [m] with [cols] columns; the subscript [t] is checked
    also when the slice is empty. *)
Definition get_col_slice (cols : Z) (m : list (list C)) (a b t : Z)
  : result (list C) :=
  let '(lo, hi) := slice_bounds (Zlen m) a b in
  _ <- py_index cols t ;;
  for_range lo hi (fun r acc => x <- get2 m r t ;; Ok (acc ++ [x])) [].

(** [m[a:b, t] = v] for a vector [v] of the length of the slice (or of
    length 1). *)
Definition set_col_slice (cols : Z) (m : list (list C)) (a b t : Z)
    (v : list C) : result (list (list C)) :=
  let '(lo, hi) := slice_bounds (Zlen m) a b in
  _ <- py_index cols t ;;
  if Zlen v =? hi - lo then
    for_range lo hi (fun r m => set2 m r t (nthZ C0 v (r - lo))) m
  else if Zlen v =? 1 then
    for_range lo hi (fun r m => set2 m r t (nthZ C0 v 0)) m
  else Err NumpyValueError.

Section Transform.

(** The collaborators of the transforms, which are not part of the
    sources: the sampling provider [s2fft.samples], the Risbo recursion
    [wigner.risbo.compute_full] and [numpy.fft.ifft]. *)
Variable samples_ntheta : Z -> string -> result Z.
Variable samples_nphi_equiang : Z -> string -> result Z.
Variable samples_thetas : Z -> string -> result (list R).
Variable samples_phis_equiang : Z -> string -> result (list R).
Variable samples_weight_dh : R -> Z -> result R.
Variable risbo_compute_full :
  list (list R) -> R -> Z -> Z -> result (list (list R)).
(** [fft.ifft(x, axis=0, norm="forward")] *)
Variable fft_ifft_axis0_forward : list (list C) -> result (list (list C)).

(** [(-1) ** spin * elfactor * np.exp(1j * m * phi) * dl[..] * flm[i]],
    multiplied from left to right. *)
Definition inverse_term (spin : Z) (elfactor : R) (m : Z) (phi d : R) (x : C)
  : C :=
  Cmul (Cmul (Cmul (RtoC (m1pow spin * elfactor)) (Cexp_i (IZR m * phi)))
          (RtoC d)) x.

(** [inverse_direct(flm, L, spin, sampling)] *)
Definition inverse_direct (flm : list C) (L spin : Z) (sampling : string)
  : result (list (list C)) :=
  ntheta <- samples_ntheta L sampling ;;
  nphi <- samples_nphi_equiang L sampling ;;
  f <- np_zeros2 C0 ntheta nphi ;;
  thetas <- samples_thetas L sampling ;;
  phis_equiang <- samples_phis_equiang L sampling ;;
  dl <- np_zeros2 0%R (2 * L - 1) (2 * L - 1) ;;
  '(f, _) <- for_enumerate thetas (fun t theta st =>
    for_range 0 L (fun el '(f, dl) =>
      dl <- risbo_compute_full dl theta L el ;;
      if Z.abs spin <=? el then
        let elfactor := sqrt (IZR (2 * el + 1) / (4 * PI)) in
        f <- for_range (- el) (el + 1) (fun m f =>
          let i := elm2ind el m in
          for_enumerate phis_equiang (fun p phi f =>
            old <- get2 f t p ;;
            d <- get2 dl (m + L - 1) (- spin + L - 1) ;;
            x <- get1 flm i ;;
            set2 f t p (Cadd old (inverse_term spin elfactor m phi d x))) f) f ;;
        Ok (f, dl)
      else Ok (f, dl)) st) (f, dl) ;;
  Ok f.

(** The first stage of the two separation-of-variables variants: the
    loop filling [fmt], the same in [inverse_sov] and [inverse_sov_fft]. *)
Definition sov_first_stage (flm : list C) (L spin : Z) (thetas : list R)
    (fmt : list (list C)) (dl : list (list R))
  : result (list (list C) * list (list R)) :=
  for_enumerate thetas (fun t theta st =>
    for_range 0 L (fun el '(fmt, dl) =>
      dl <- risbo_compute_full dl theta L el ;;
      if Z.abs spin <=? el then
        let elfactor := sqrt (IZR (2 * el + 1) / (4 * PI)) in
        fmt <- for_range (- el) (el + 1) (fun m fmt =>
          let i := elm2ind el m in
          old <- get2 fmt (m + L - 1) t ;;
          d <- get2 dl (m + L - 1) (- spin + L - 1) ;;
          x <- get1 flm i ;;
          set2 fmt (m + L - 1) t
            (Cadd old (Cmul (RtoC (m1pow spin * elfactor * d)) x))) fmt ;;
        Ok (fmt, dl)
      else Ok (fmt, dl)) st) (fmt, dl).

(** [inverse_sov(flm, L, spin, sampling)] *)
Definition inverse_sov (flm : list C) (L spin : Z) (sampling : string)
  : result (list (list C)) :=
  ntheta <- samples_ntheta L sampling ;;
  nphi <- samples_nphi_equiang L sampling ;;
  f <- np_zeros2 C0 ntheta nphi ;;
  thetas <- samples_thetas L sampling ;;
  phis_equiang <- samples_phis_equiang L sampling ;;
  dl <- np_zeros2 0%R (2 * L - 1) (2 * L - 1) ;;
  fmt <- np_zeros2 C0 (2 * L - 1) ntheta ;;
  '(fmt, _) <- sov_first_stage flm L spin thetas fmt dl ;;
  for_enumerate thetas (fun t theta f =>
    for_enumerate phis_equiang (fun p phi f =>
      for_range (- (L - 1)) L (fun m f =>
        old <- get2 f t p ;;
        x <- get2 fmt (m + L - 1) t ;;
        set2 f t p (Cadd old (Cmul x (Cexp_i (IZR m * phi))))) f) f) f.

(** [inverse_sov_fft(flm, L, spin, sampling)] *)
Definition inverse_sov_fft (flm : list C) (L spin : Z) (sampling : string)
  : result (list (list C)) :=
  ntheta <- samples_ntheta L sampling ;;
  nphi <- samples_nphi_equiang L sampling ;;
  _ <- np_zeros2 C0 ntheta nphi ;;
  thetas <- samples_thetas L sampling ;;
  _ <- samples_phis_equiang L sampling ;;
  dl <- np_zeros2 0%R (2 * L - 1) (2 * L - 1) ;;
  fmt <- np_zeros2 C0 (2 * L - 1) ntheta ;;
  '(fmt, _) <- sov_first_stage flm L spin thetas fmt dl ;;
  fmt_shift <- np_zeros2 C0 (2 * L - 1) ntheta ;;
  fmt_shift <- for_enumerate thetas (fun t theta fmt_shift =>
    v <- get_col_slice ntheta fmt (0 + L - 1) (L + L - 1) t ;;
    fmt_shift <- set_col_slice ntheta fmt_shift 0 L t v ;;
    w <- get_col_slice ntheta fmt (- (L - 1) + L - 1) (0 + L - 1) t ;;
    set_col_slice ntheta fmt_shift L (2 * L - 1) t w) fmt_shift ;;
  f <- fft_ifft_axis0_forward fmt_shift ;;
  Ok (np_transpose C0 ntheta f).

(** [forward_direct(f, L, spin, sampling)] *)
Definition forward_direct (f : list (list C)) (L spin : Z) (sampling : string)
  : result (list C) :=
  if negb (String.eqb (lower sampling) "dh") then Err UnsupportedSampling
  else
    let ncoeff := ncoeff L in
    flm <- np_zeros C0 ncoeff ;;
    thetas <- samples_thetas L sampling ;;
    phis_equiang <- samples_phis_equiang L sampling ;;
    dl <- np_zeros2 0%R (2 * L - 1) (2 * L - 1) ;;
    '(flm, _) <- for_enumerate thetas (fun t theta st =>
      w <- samples_weight_dh theta L ;;
      let weight := (w * 2 * PI / IZR (2 * L - 1))%R in
      for_range 0 L (fun el '(flm, dl) =>
        dl <- risbo_compute_full dl theta L el ;;
        if Z.abs spin <=? el then
          let elfactor := sqrt (IZR (2 * el + 1) / (4 * PI)) in
          flm <- for_range (- el) (el + 1) (fun m flm =>
            let i := elm2ind el m in
            for_enumerate phis_equiang (fun p phi flm =>
              old <- get1 flm i ;;
              d <- get2 dl (m + L - 1) (- spin + L - 1) ;;
              x <- get2 f t p ;;
              set1 flm i
                (Cadd old
                   (Cmul (Cmul (Cmul (RtoC (weight * m1pow spin * elfactor))
                                  (Cexp_i (- IZR m * phi))) (RtoC d)) x)))
              flm) flm ;;
          Ok (flm, dl)
        else Ok (flm, dl)) st) (flm, dl) ;;
    Ok flm.

End Transform.

(** * The model on small inputs *)

Example elm2ind_degree_one :
  elm2ind 1 (-1) = 1 /\ elm2ind 1 0 = 2 /\ elm2ind 1 1 = 3 /\ ncoeff 2 = 4.
Proof. repeat split. Qed.

Example py_index_wraps_once :
  py_index 3 (-1) = Ok 2 /\ py_index 3 3 = Err IndexError /\
  py_index 3 (-4) = Err IndexError.
Proof. repeat split. Qed.

Example slice_bounds_clip :
  slice_bounds 5 1 4 = (1, 4) /\ slice_bounds 5 (-2) 9 = (3, 5) /\
  slice_bounds 5 4 2 = (4, 4).
Proof. repeat split. Qed.

Example flm_1d_to_2d_two (a b c d : C) :
  flm_1d_to_2d [a; b; c; d] 2 = Ok [[C0; a; C0]; [b; c; d]].
Proof. reflexivity. Qed.

Example flm_2d_to_1d_two (a b c d x y : C) :
  flm_2d_to_1d [[x; a; y]; [b; c; d]] 2 = Ok [a; b; c; d].
Proof. reflexivity. Qed.

(** The reflections at [l = 1]: from the quarter plane [a], [b], [c],
    [d] to the nine entries. *)
Example turok_fill_one (a b c d : R) :
  turok_fill (Arr2 [[a; 0; 0]; [b; c; 0]; [d; 0; 0]]%R) 1
  = Ok (Arr2 [[a; b * -1; d * 1]; [b; c; b * -1]; [d; b; a]]%R).
Proof. reflexivity. Qed.

Example compute_spin_slice_checks (beta : R) :
  compute_spin_slice beta 0 1 1 false = Err SpinExceedsDegree /\
  compute_spin_slice beta 1 1 1 false = Err InvalidBandlimit /\
  compute_spin_slice beta 1 1 0 true = Err UnsupportedSampling /\
  compute_full beta 2 2 = Err InvalidBandlimit.
Proof. repeat split. Qed.

Example lower_upper_case : lower "DH" = "dh"%string /\ lower "mwss" = "mwss"%string.
Proof. split; reflexivity. Qed.

(** * Reasoning principles *)

(** ** The monad *)

Lemma bind_ok {A B : Type} (c : result A) (k : A -> result B) (a : A) :
  c = Ok a -> bind c k = k a.
Proof. intros ->. reflexivity. Qed.

Lemma bind_inv_ok {A B : Type} (c : result A) (k : A -> result B) (b : B) :
  bind c k = Ok b -> exists a, c = Ok a /\ k a = Ok b.
Proof. destruct c as [a|e]; simpl; intros H; [eauto | discriminate]. Qed.

(** ** Loop invariants (total correctness: the loop returns) *)

Lemma for_count_inv {S : Type} (I : Z -> S -> Prop)
    (body : Z -> S -> result S) (n : nat) (a : Z) (s : S) :
  I a s ->
  (forall i t, a <= i < a + Z.of_nat n -> I i t ->
     exists t', body i t = Ok t' /\ I (i + 1) t') ->
  exists s', for_count n a body s = Ok s' /\ I (a + Z.of_nat n) s'.
Proof.
  revert a s. induction n as [|n IH]; intros a s H0 Hstep.
  - exists s. simpl. rewrite Z.add_0_r. auto.
  - destruct (Hstep a s ltac:(lia) H0) as [t [Hb Ht]].
    cbn [for_count]. rewrite Hb. cbn [bind].
    destruct (IH (a + 1) t Ht) as [s' [Hs' HI]].
    + intros i u Hi Hu. apply Hstep; [lia | assumption].
    + exists s'. split; [assumption |].
      replace (a + Z.of_nat (Datatypes.S n)) with (a + 1 + Z.of_nat n) by lia.
      assumption.
Qed.

Lemma for_range_inv {S : Type} (I : Z -> S -> Prop)
    (a b : Z) (body : Z -> S -> result S) (s : S) :
  a <= b ->
  I a s ->
  (forall i t, a <= i < b -> I i t ->
     exists t', body i t = Ok t' /\ I (i + 1) t') ->
  exists s', for_range a b body s = Ok s' /\ I b s'.
Proof.
  intros Hab H0 Hstep. unfold for_range.
  destruct (for_count_inv I body (Z.to_nat (b - a)) a s H0) as [s' [H1 H2]].
  - intros i t Hi. apply Hstep. lia.
  - exists s'. split; [assumption |].
    replace (a + Z.of_nat (Z.to_nat (b - a))) with b in H2 by lia. assumption.
Qed.

Lemma for_range_empty {S : Type} (a b : Z) (body : Z -> S -> result S) (s : S) :
  b <= a -> for_range a b body s = Ok s.
Proof.
  intros H. unfold for_range.
  replace (Z.to_nat (b - a)) with O by lia. reflexivity.
Qed.

(** Two loops whose bodies agree on the range agree. *)
Lemma for_count_ext {S : Type} (f g : Z -> S -> result S) (n : nat) (a : Z) (s : S) :
  (forall i t, a <= i < a + Z.of_nat n -> f i t = g i t) ->
  for_count n a f s = for_count n a g s.
Proof.
  revert a s. induction n as [|n IH]; intros a s H; [reflexivity |].
  cbn [for_count]. rewrite (H a s) by lia.
  destruct (g a s) as [t|e]; [|reflexivity]. cbn [bind].
  apply IH. intros i u Hi. apply H. lia.
Qed.

Lemma for_range_ext {S : Type} (f g : Z -> S -> result S) (a b : Z) (s : S) :
  (forall i t, a <= i < b -> f i t = g i t) ->
  for_range a b f s = for_range a b g s.
Proof.
  intros H. unfold for_range. apply for_count_ext.
  intros i t Hi. apply H. lia.
Qed.

(** ** Arrays *)

Lemma py_index_in (n i : Z) : 0 <= i < n -> py_index n i = Ok i.
Proof.
  intros H. unfold py_index.
  replace (0 <=? i) with true by (symmetry; apply Z.leb_le; lia).
  replace (i <? n) with true by (symmetry; apply Z.ltb_lt; lia).
  reflexivity.
Qed.

Lemma length_upd_nat {A : Type} (v : list A) (n : nat) (x : A) :
  List.length (upd_nat v n x) = List.length v.
Proof.
  revert n. induction v as [|h t IH]; intros [|n]; simpl; auto.
Qed.

Lemma nth_upd_nat_eq {A : Type} (d : A) (v : list A) (n : nat) (x : A) :
  (n < List.length v)%nat -> nth n (upd_nat v n x) d = x.
Proof.
  revert n. induction v as [|h t IH]; intros [|n]; simpl; intros H;
    try lia; auto. apply IH. lia.
Qed.

Lemma nth_upd_nat_ne {A : Type} (d : A) (v : list A) (n k : nat) (x : A) :
  n <> k -> nth k (upd_nat v n x) d = nth k v d.
Proof.
  revert n k. induction v as [|h t IH]; intros [|n] [|k] H; simpl; auto;
    try congruence.
Qed.

Lemma Zlen_nonneg {A : Type} (v : list A) : 0 <= Zlen v.
Proof. unfold Zlen. lia. Qed.

Lemma Zlen_setZ {A : Type} (v : list A) (i : Z) (x : A) :
  Zlen (setZ v i x) = Zlen v.
Proof. unfold Zlen, setZ. rewrite length_upd_nat. reflexivity. Qed.

Lemma nthZ_setZ_eq {A : Type} (d : A) (v : list A) (i : Z) (x : A) :
  0 <= i < Zlen v -> nthZ d (setZ v i x) i = x.
Proof.
  unfold Zlen, nthZ, setZ. intros H. apply nth_upd_nat_eq. lia.
Qed.

Lemma nthZ_setZ_ne {A : Type} (d : A) (v : list A) (i j : Z) (x : A) :
  0 <= i -> 0 <= j -> i <> j -> nthZ d (setZ v i x) j = nthZ d v j.
Proof.
  unfold nthZ, setZ. intros Hi Hj H. apply nth_upd_nat_ne. lia.
Qed.

Lemma nthZ_setZ {A : Type} (d : A) (v : list A) (i j : Z) (x : A) :
  0 <= i < Zlen v -> 0 <= j ->
  nthZ d (setZ v i x) j = if i =? j then x else nthZ d v j.
Proof.
  intros Hi Hj. destruct (Z.eqb_spec i j) as [->|Hne].
  - apply nthZ_setZ_eq. assumption.
  - apply nthZ_setZ_ne; lia.
Qed.

Lemma get1_ok {A : Type} (d : A) (v : list A) (i : Z) :
  0 <= i < Zlen v -> get1 v i = Ok (nthZ d v i).
Proof.
  intros H. unfold get1. rewrite py_index_in by assumption. cbn [bind].
  unfold nthZ. destruct (nth_error v (Z.to_nat i)) as [x|] eqn:E.
  - rewrite (nth_error_nth _ _ d E). reflexivity.
  - apply nth_error_None in E. unfold Zlen in H. lia.
Qed.

Lemma set1_ok {A : Type} (v : list A) (i : Z) (x : A) :
  0 <= i < Zlen v -> set1 v i x = Ok (setZ v i x).
Proof.
  intros H. unfold set1. rewrite py_index_in by assumption. reflexivity.
Qed.

(** Lists of the same length with the same entries are equal. *)
Lemma list_ext_nthZ {A : Type} (d : A) (u v : list A) :
  Zlen u = Zlen v ->
  (forall i, 0 <= i < Zlen u -> nthZ d u i = nthZ d v i) ->
  u = v.
Proof.
  unfold Zlen, nthZ. intros Hl H.
  apply (nth_ext u v d d); [lia |].
  intros n Hn. specialize (H (Z.of_nat n)).
  rewrite Nat2Z.id in H. apply H. lia.
Qed.

Lemma nthZ_repeat {A : Type} (d x : A) (n : nat) (i : Z) :
  0 <= i < Z.of_nat n -> nthZ d (repeat x n) i = x.
Proof.
  intros H. unfold nthZ. apply nth_repeat_lt. lia.
Qed.

Lemma Zlen_repeat {A : Type} (x : A) (n : nat) : Zlen (repeat x n) = Z.of_nat n.
Proof. unfold Zlen. rewrite repeat_length. reflexivity. Qed.

(** *** Two-dimensional arrays *)

(** The array after [m[i, j] = x]. *)
Definition mset {A : Type} (m : list (list A)) (i j : Z) (x : A)
  : list (list A) :=
  setZ m i (setZ (nthZ [] m i) j x).

Lemma shape2_row {A : Type} (m : list (list A)) (r c i : Z) :
  shape2 m r c -> 0 <= i < r -> Zlen (nthZ [] m i) = c.
Proof.
  intros [Hr Hc] Hi. rewrite Forall_forall in Hc. apply Hc.
  unfold nthZ. apply nth_In. unfold Zlen in Hr. lia.
Qed.

Lemma get2_ok {A : Type} (d : A) (m : list (list A)) (r c i j : Z) :
  shape2 m r c -> 0 <= i < r -> 0 <= j < c ->
  get2 m i j = Ok (mat_at d m i j).
Proof.
  intros Hs Hi Hj. unfold get2.
  rewrite (get1_ok [] m i) by (destruct Hs; lia). cbn [bind].
  apply get1_ok. rewrite (shape2_row m r c i Hs Hi). assumption.
Qed.

Lemma set2_ok {A : Type} (m : list (list A)) (r c i j : Z) (x : A) :
  shape2 m r c -> 0 <= i < r -> 0 <= j < c ->
  set2 m i j x = Ok (mset m i j x).
Proof.
  intros Hs Hi Hj. unfold set2.
  rewrite (get1_ok [] m i) by (destruct Hs; lia). cbn [bind].
  rewrite set1_ok by (rewrite (shape2_row m r c i Hs Hi); assumption).
  cbn [bind]. apply set1_ok. destruct Hs; lia.
Qed.

Lemma shape2_mset {A : Type} (m : list (list A)) (r c i j : Z) (x : A) :
  shape2 m r c -> 0 <= i < r -> shape2 (mset m i j x) r c.
Proof.
  intros Hs Hi. pose proof (shape2_row m r c i Hs Hi) as Hrow.
  destruct Hs as [Hr Hc]. unfold mset. split.
  - rewrite Zlen_setZ. assumption.
  - rewrite Forall_forall in *. intros row Hin.
    destruct (In_nth _ _ [] Hin) as [n [Hn Hrw]].
    unfold setZ in Hn, Hrw. rewrite length_upd_nat in Hn.
    destruct (Nat.eq_dec (Z.to_nat i) n) as [E|E].
    + subst n. rewrite nth_upd_nat_eq in Hrw by assumption.
      subst row. fold (setZ (nthZ [] m i) j x). rewrite Zlen_setZ. assumption.
    + rewrite nth_upd_nat_ne in Hrw by assumption.
      subst row. apply Hc. apply nth_In. assumption.
Qed.

Lemma mat_at_mset {A : Type} (d : A) (m : list (list A)) (r c i j i' j' : Z) (x : A) :
  shape2 m r c -> 0 <= i < r -> 0 <= j < c -> 0 <= i' -> 0 <= j' ->
  mat_at d (mset m i j x) i' j' =
  if (i =? i') && (j =? j') then x else mat_at d m i' j'.
Proof.
  intros Hs Hi Hj Hi' Hj'. pose proof (shape2_row m r c i Hs Hi) as Hrow.
  unfold mat_at, mset.
  rewrite (nthZ_setZ [] m i i') by (destruct Hs; lia).
  destruct (Z.eqb_spec i i') as [->|Hne]; cbn [andb]; [|reflexivity].
  rewrite nthZ_setZ by lia. reflexivity.
Qed.

Lemma mat_ext {A : Type} (d : A) (u v : list (list A)) (r c : Z) :
  shape2 u r c -> shape2 v r c ->
  (forall i j, 0 <= i < r -> 0 <= j < c -> mat_at d u i j = mat_at d v i j) ->
  u = v.
Proof.
  intros Hu Hv H. apply (list_ext_nthZ []).
  - destruct Hu, Hv. lia.
  - intros i Hi. assert (Hi' : 0 <= i < r) by (destruct Hu; lia).
    apply (list_ext_nthZ d).
    + rewrite (shape2_row u r c i Hu Hi'), (shape2_row v r c i Hv Hi').
      reflexivity.
    + intros j Hj. rewrite (shape2_row u r c i Hu Hi') in Hj.
      apply H; assumption.
Qed.

Lemma np_zeros_ok {A : Type} (z : A) (n : Z) :
  0 <= n -> np_zeros z n = Ok (repeat z (Z.to_nat n)).
Proof.
  intros H. unfold np_zeros.
  replace (n <? 0) with false by (symmetry; apply Z.ltb_ge; lia). reflexivity.
Qed.

Lemma np_zeros2_ok {A : Type} (z : A) (r c : Z) :
  0 <= r -> 0 <= c ->
  np_zeros2 z r c = Ok (repeat (repeat z (Z.to_nat c)) (Z.to_nat r)).
Proof.
  intros Hr Hc. unfold np_zeros2.
  replace (r <? 0) with false by (symmetry; apply Z.ltb_ge; lia).
  replace (c <? 0) with false by (symmetry; apply Z.ltb_ge; lia).
  reflexivity.
Qed.

Lemma shape2_zeros {A : Type} (z : A) (r c : Z) :
  0 <= r -> 0 <= c ->
  shape2 (repeat (repeat z (Z.to_nat c)) (Z.to_nat r)) r c.
Proof.
  intros Hr Hc. split.
  - rewrite Zlen_repeat. lia.
  - apply Forall_forall. intros row Hin. apply repeat_spec in Hin. subst row.
    rewrite Zlen_repeat. lia.
Qed.

Lemma mat_at_zeros {A : Type} (d z : A) (r c i j : Z) :
  0 <= i < r -> 0 <= j < c ->
  mat_at d (repeat (repeat z (Z.to_nat c)) (Z.to_nat r)) i j = z.
Proof.
  intros Hi Hj. unfold mat_at.
  rewrite nthZ_repeat by lia. apply nthZ_repeat. lia.
Qed.

(** * Coefficient layouts ([s2fft/utils.py]) *)

Lemma elm2ind_inj (el m el' m' : Z) :
  0 <= el -> - el <= m <= el -> 0 <= el' -> - el' <= m' <= el' ->
  elm2ind el m = elm2ind el' m' -> el = el' /\ m = m'.
Proof.
  unfold elm2ind. intros H1 H2 H3 H4 H.
  assert (el = el') by nia. subst el'. split; [reflexivity | lia].
Qed.

Lemma elm2ind_range (L el m : Z) :
  0 <= el < L -> - el <= m <= el -> 0 <= elm2ind el m < L * L.
Proof. unfold elm2ind. intros H1 H2. nia. Qed.

(** Every flat offset below [L * L] is the offset of a valid pair. *)
Lemma elm2ind_surj (L i : Z) :
  0 <= L -> 0 <= i < L * L ->
  exists el m, 0 <= el < L /\ - el <= m <= el /\ elm2ind el m = i.
Proof.
  intros HL Hi. pose proof (Z.sqrt_spec i ltac:(lia)) as Hs.
  pose proof (Z.sqrt_nonneg i) as Hn.
  unfold Z.succ in Hs. set (q := Z.sqrt i) in *.
  exists q, (i - q * q - q).
  assert (q < L) by (destruct (Z_lt_dec q L); [assumption | nia]).
  unfold elm2ind. split; [lia |]. split; [nia | lia].
Qed.

(** What [flm_1d_to_2d] returns: the table holds the flat vector on the
    triangle [-el <= m <= el] and zero elsewhere. *)
Lemma flm_1d_to_2d_spec (x : list C) (L : Z) :
  1 <= L -> Zlen x = L * L ->
  exists y, flm_1d_to_2d x L = Ok y /\ shape2 y L (2 * L - 1) /\
    forall r k, 0 <= r < L -> 0 <= k < 2 * L - 1 ->
      (- r <= k - (L - 1) <= r ->
         mat_at C0 y r k = nthZ C0 x (elm2ind r (k - (L - 1)))) /\
      (~ (- r <= k - (L - 1) <= r) -> mat_at C0 y r k = C0).
Proof.
  intros HL Hx. unfold flm_1d_to_2d.
  rewrite np_zeros2_ok by lia. cbn [bind].
  pose (D := fun (e m r k : Z) =>
    (r < e /\ - r <= k - (L - 1) <= r) \/ (r = e /\ - e <= k - (L - 1) < m)).
  pose (I := fun (e m : Z) (cur : list (list C)) =>
    shape2 cur L (2 * L - 1) /\
    forall r k, 0 <= r < L -> 0 <= k < 2 * L - 1 ->
      (D e m r k -> mat_at C0 cur r k = nthZ C0 x (elm2ind r (k - (L - 1)))) /\
      (~ D e m r k -> mat_at C0 cur r k = C0)).
  match goal with |- exists y, for_range 0 L ?body ?s = _ /\ _ =>
    destruct (for_range_inv (fun e cur => I e (- e) cur) 0 L body s)
      as [y [Hy [Hsh HI]]] end.
  - lia.
  - split; [apply shape2_zeros; lia |].
    intros r k Hr Hk. split.
    + unfold D. intros; lia.
    + intros _. apply mat_at_zeros; lia.
  - intros e cur He Hcur.
    match goal with |- exists t', for_range _ _ ?body ?s = _ /\ _ =>
      destruct (for_range_inv (fun m cur => I e m cur) (- e) (e + 1) body s)
        as [cur' [Hc' HI']] end.
    + lia.
    + exact Hcur.
    + intros m t Hm [Htsh Ht].
      pose proof (elm2ind_range L e m ltac:(lia) ltac:(lia)) as Hidx.
      rewrite (get1_ok C0) by lia. cbn [bind].
      rewrite (set2_ok t L (2 * L - 1)) by (assumption || lia).
      eexists. split; [reflexivity |]. split.
      * apply shape2_mset; [assumption | lia].
      * intros r k Hr Hk.
        rewrite (mat_at_mset C0 t L (2 * L - 1)) by (assumption || lia).
        destruct (Ht r k Hr Hk) as [Ht1 Ht2].
        destruct (Z.eqb_spec e r) as [Er|Er];
          destruct (Z.eqb_spec (L - 1 + m) k) as [Ek|Ek]; cbn [andb].
        -- subst r k. split; [intros _ | intros HD; exfalso; apply HD; unfold D; lia].
           f_equal. f_equal. lia.
        -- split; intros HD; [apply Ht1 | apply Ht2]; unfold D in *; lia.
        -- split; intros HD; [apply Ht1 | apply Ht2]; unfold D in *; lia.
        -- split; intros HD; [apply Ht1 | apply Ht2]; unfold D in *; lia.
    + exists cur'. split; [exact Hc' |].
      destruct HI' as [Hsh' HI']. split; [exact Hsh' |].
      intros r k Hr Hk. destruct (HI' r k Hr Hk) as [H1 H2].
      split; intros HD; [apply H1 | apply H2]; unfold D in *; lia.
  - exists y. split; [exact Hy |]. split; [exact Hsh |].
    intros r k Hr Hk. destruct (HI r k Hr Hk) as [H1 H2].
    split; intros HD; [apply H1 | apply H2]; unfold D in *; lia.
Qed.

(** What [flm_2d_to_1d] returns: the flat vector holds the triangle of the
    table. *)
Lemma flm_2d_to_1d_spec (y : list (list C)) (L : Z) :
  1 <= L -> shape2 y L (2 * L - 1) ->
  exists x, flm_2d_to_1d y L = Ok x /\ Zlen x = L * L /\
    forall el m, 0 <= el < L -> - el <= m <= el ->
      nthZ C0 x (elm2ind el m) = mat_at C0 y el (L - 1 + m).
Proof.
  intros HL Hy. unfold flm_2d_to_1d, ncoeff.
  rewrite np_zeros_ok by nia. cbn [bind].
  pose (I := fun (e m : Z) (cur : list C) =>
    Zlen cur = L * L /\
    forall el' m', 0 <= el' < L -> - el' <= m' <= el' ->
      elm2ind el' m' < elm2ind e m ->
      nthZ C0 cur (elm2ind el' m') = mat_at C0 y el' (L - 1 + m')).
  match goal with |- exists x, for_range 0 L ?body ?s = _ /\ _ =>
    destruct (for_range_inv (fun e cur => I e (- e) cur) 0 L body s)
      as [x [Hx [Hlen HI]]] end.
  - lia.
  - split; [rewrite Zlen_repeat; nia |].
    intros el' m' H1 H2 H3. unfold elm2ind in H3. nia.
  - intros e cur He Hcur.
    match goal with |- exists t', for_range _ _ ?body ?s = _ /\ _ =>
      destruct (for_range_inv (fun m cur => I e m cur) (- e) (e + 1) body s)
        as [cur' [Hc' HI']] end.
    + lia.
    + exact Hcur.
    + intros m t Hm [Htl Ht].
      pose proof (elm2ind_range L e m ltac:(lia) ltac:(lia)) as Hidx.
      rewrite (get2_ok C0 y L (2 * L - 1)) by (assumption || lia). cbn [bind].
      rewrite set1_ok by lia.
      eexists. split; [reflexivity |]. split.
      * rewrite Zlen_setZ. assumption.
      * intros el' m' H1 H2 H3.
        pose proof (elm2ind_range L el' m' H1 H2) as Hidx'.
        rewrite nthZ_setZ by lia.
        destruct (Z.eqb_spec (elm2ind e m) (elm2ind el' m')) as [E|E].
        -- apply elm2ind_inj in E; try lia. destruct E; subst. reflexivity.
        -- apply Ht; try assumption. unfold elm2ind in *. lia.
    + exists cur'. split; [exact Hc' |].
      destruct HI' as [Hl' HI']. split; [exact Hl' |].
      intros el' m' H1 H2 H3. apply HI'; try assumption.
      unfold elm2ind in *. lia.
  - exists x. split; [exact Hx |]. split; [exact Hlen |].
    intros el m H1 H2. apply HI; try assumption.
    unfold elm2ind. nia.
Qed.

(** C10. The flat and the triangular coefficient layouts are mutually
    inverse.  For a bandlimit [L >= 1]: converting a flat vector [x] of the
    valid length [L * L] to the table and back returns [x], and converting
    an [L] x [(2L-1)] table [y] that is zero outside the triangle
    [-el <= m <= el] to the flat vector and back returns [y]. *)
Theorem flm_layouts_inverse (L : Z) (x : list C) (y : list (list C)) :
  1 <= L ->
  Zlen x = L * L ->
  shape2 y L (2 * L - 1) ->
  (forall el k, 0 <= el < L -> 0 <= k < 2 * L - 1 ->
     ~ (- el <= k - (L - 1) <= el) -> mat_at C0 y el k = C0) ->
  (exists y', flm_1d_to_2d x L = Ok y' /\ flm_2d_to_1d y' L = Ok x) /\
  (exists x', flm_2d_to_1d y L = Ok x' /\ flm_1d_to_2d x' L = Ok y).
Proof.
  intros HL Hx Hsh Hzero. split.
  - destruct (flm_1d_to_2d_spec x L HL Hx) as [y' [Hy [Hsh' Hent]]].
    exists y'. split; [exact Hy |].
    destruct (flm_2d_to_1d_spec y' L HL Hsh') as [x' [Hx' [Hl' Hent']]].
    rewrite Hx'. f_equal. apply (list_ext_nthZ C0); [lia |].
    intros i Hi. rewrite Hl' in Hi.
    destruct (elm2ind_surj L i ltac:(lia) Hi) as [el [m [H1 [H2 H3]]]]. subst i.
    rewrite Hent' by assumption.
    destruct (Hent el (L - 1 + m) H1 ltac:(lia)) as [Hin _].
    rewrite Hin by lia. f_equal. f_equal. lia.
  - destruct (flm_2d_to_1d_spec y L HL Hsh) as [x' [Hx' [Hl Hent]]].
    exists x'. split; [exact Hx' |].
    destruct (flm_1d_to_2d_spec x' L HL Hl) as [y' [Hy' [Hsh' Hent']]].
    rewrite Hy'. f_equal. apply (mat_ext C0 y' y L (2 * L - 1)); try assumption.
    intros r k Hr Hk. destruct (Hent' r k Hr Hk) as [Hin Hout].
    destruct (Z_le_dec (- r) (k - (L - 1))) as [Ha|Ha];
      [destruct (Z_le_dec (k - (L - 1)) r) as [Hb|Hb] |].
    + rewrite Hin by lia. rewrite Hent by lia. f_equal. lia.
    + rewrite Hout by lia. symmetry. apply Hzero; lia.
    + rewrite Hout by lia. symmetry. apply Hzero; lia.
Qed.

(** The round trips at [L = 2]: a vector of four coefficients and a
    [2] x [3] table whose first row is zero off the centre. *)
Lemma flm_layouts_inverse_witness :
  let x : list C := [(1, 0); (2, 1); (3, 0); (4, -1)]%R in
  let y : list (list C) := [[C0; (5, 0); C0]; [(6, 1); (7, 0); (8, 2)]]%R in
  (exists y', flm_1d_to_2d x 2 = Ok y' /\ flm_2d_to_1d y' 2 = Ok x) /\
  (exists x', flm_2d_to_1d y 2 = Ok x' /\ flm_1d_to_2d x' 2 = Ok y).
Proof.
  intros x y. apply (flm_layouts_inverse 2 x y).
  - lia.
  - reflexivity.
  - split; [reflexivity | repeat constructor].
  - intros el k Hel Hk Hout.
    assert (el = 0 /\ (k = 0 \/ k = 2)) as [-> [-> | ->]] by lia; reflexivity.
Defined.

(** * Argument validation *)

(** C9. The unsupported-sampling failures are argument validation, raised
    before anything is computed and with no output: [forward_direct] with
    a sampling scheme other than "dh" fails with [UnsupportedSampling]
    whatever the collaborators and the other arguments are, and
    [compute_spin_slice] with [accelerate = True] fails whatever the other
    arguments are (with [UnsupportedSampling], unless the test of the
    degree against the spin, which comes first, already failed). *)
Theorem unsupported_sampling_fails_fast
    (thetas phis : Z -> string -> result (list R))
    (weight_dh : R -> Z -> result R)
    (risbo : list (list R) -> R -> Z -> Z -> result (list (list R)))
    (f : list (list C)) (L spin : Z) (sampling : string)
    (beta : R) (el' L' spin' : Z) :
  lower sampling <> "dh"%string ->
  forward_direct thetas phis weight_dh risbo f L spin sampling
    = Err UnsupportedSampling /\
  compute_spin_slice beta el' L' spin' true
    = Err (if el' <? spin' then SpinExceedsDegree else UnsupportedSampling).
Proof.
  intros Hs. split.
  - unfold forward_direct.
    destruct (String.eqb_spec (lower sampling) "dh") as [E|E];
      [contradiction | reflexivity].
  - unfold compute_spin_slice. destruct (el' <? spin'); reflexivity.
Qed.

(** The default scheme "mw" is rejected by the forward transform, and the
    accelerated slice is rejected at a valid degree. *)
Lemma unsupported_sampling_fails_fast_witness :
  forward_direct (fun _ _ => Ok [1%R]) (fun _ _ => Ok [0%R])
    (fun _ _ => Ok 1%R) (fun dl _ _ _ => Ok dl) [[C0]] 1 0 "mw"
    = Err UnsupportedSampling /\
  compute_spin_slice 1%R 2 3 1 true = Err UnsupportedSampling.
Proof.
  apply (unsupported_sampling_fails_fast
           (fun _ _ => Ok [1%R]) (fun _ _ => Ok [0%R])
           (fun _ _ => Ok 1%R) (fun dl _ _ _ => Ok dl) [[C0]] 1 0 "mw"
           1%R 2 3 1).
  vm_compute. discriminate.
Defined.

(** The default of the parameter [sampling] of [forward_direct] is "mw",
    as in the inverse transforms: the call [forward_direct(f, L, spin)]
    is rejected, the scheme "dh" has to be passed. *)
Lemma forward_direct_default_sampling
    (thetas phis : Z -> string -> result (list R))
    (weight_dh : R -> Z -> result R)
    (risbo : list (list R) -> R -> Z -> Z -> result (list (list R)))
    (f : list (list C)) (L spin : Z) :
  forward_direct thetas phis weight_dh risbo f L spin "mw"
    = Err UnsupportedSampling.
Proof. reflexivity. Qed.

(** * Degrees below the spin *)

(** The coefficient vector with the coefficients of the degrees
    [el < |spin|] replaced by zero.  The coefficient at offset [i] has
    degree [Z.sqrt i], see [sqrt_elm2ind]. *)
Fixpoint zero_from (i : Z) (flm : list C) (spin : Z) : list C :=
  match flm with
  | [] => []
  | x :: t =>
      (if Z.sqrt i <? Z.abs spin then C0 else x) :: zero_from (i + 1) t spin
  end.

Definition zero_low_degrees (flm : list C) (spin : Z) : list C :=
  zero_from 0 flm spin.

Example zero_low_degrees_spin_two (a b c d e : C) :
  zero_low_degrees [a; b; c; d; e] (-2) = [C0; C0; C0; C0; e].
Proof. reflexivity. Qed.

Lemma sqrt_elm2ind (el m : Z) :
  0 <= el -> - el <= m <= el -> Z.sqrt (elm2ind el m) = el.
Proof.
  intros H1 H2. apply Z.sqrt_unique. unfold elm2ind, Z.succ. nia.
Qed.

Lemma length_zero_from (i : Z) (flm : list C) (spin : Z) :
  List.length (zero_from i flm spin) = List.length flm.
Proof.
  revert i. induction flm as [|x t IH]; intros i; simpl; [|rewrite IH];
    reflexivity.
Qed.

Lemma nth_error_zero_from (i : Z) (flm : list C) (spin : Z) (n : nat) :
  Z.abs spin <= Z.sqrt (i + Z.of_nat n) ->
  nth_error (zero_from i flm spin) n = nth_error flm n.
Proof.
  revert i n. induction flm as [|x t IH]; intros i n H.
  - reflexivity.
  - destruct n as [|n]; simpl.
    + replace (i + Z.of_nat 0) with i in H by lia.
      replace (Z.sqrt i <? Z.abs spin) with false
        by (symmetry; apply Z.ltb_ge; lia).
      reflexivity.
    + apply IH. replace (i + 1 + Z.of_nat n) with (i + Z.of_nat (S n)) by lia.
      assumption.
Qed.

(** Reading a coefficient of a degree [el >= |spin|] does not see the
    zeroing (nor does a failing read). *)
Lemma get1_zero_low_degrees (flm : list C) (spin el m : Z) :
  Z.abs spin <= el -> - el <= m <= el ->
  get1 (zero_low_degrees flm spin) (elm2ind el m) = get1 flm (elm2ind el m).
Proof.
  intros H1 H2. unfold get1, zero_low_degrees, Zlen.
  rewrite length_zero_from.
  assert (H0 : 0 <= elm2ind el m) by (unfold elm2ind; nia).
  destruct (py_index (Z.of_nat (List.length flm)) (elm2ind el m)) as [k|e] eqn:E;
    [|reflexivity].
  cbn [bind]. unfold py_index in E.
  replace (0 <=? elm2ind el m) with true in E by (symmetry; apply Z.leb_le; lia).
  replace (elm2ind el m <? 0) with false in E by (symmetry; apply Z.ltb_ge; lia).
  rewrite andb_false_r in E.
  destruct (elm2ind el m <? Z.of_nat (List.length flm)); [|discriminate].
  injection E as <-.
  rewrite nth_error_zero_from; [reflexivity |].
  rewrite Z.add_0_l, Z2Nat.id by assumption.
  rewrite sqrt_elm2ind by lia. assumption.
Qed.

(** [zero_low_degrees] replaces by zero the coefficients [(el, m)] with
    [el < |spin|] and keeps the others. *)
Lemma zero_low_degrees_spec (flm : list C) (spin el m : Z) :
  0 <= el -> - el <= m <= el -> elm2ind el m < Zlen flm ->
  nthZ C0 (zero_low_degrees flm spin) (elm2ind el m) =
  if el <? Z.abs spin then C0 else nthZ C0 flm (elm2ind el m).
Proof.
  intros Hel Hm Hlen.
  assert (H0 : 0 <= elm2ind el m) by (unfold elm2ind; nia).
  assert (G : forall (l : list C) (i : Z) (n : nat),
            (n < List.length l)%nat ->
            nth n (zero_from i l spin) C0 =
            if Z.sqrt (i + Z.of_nat n) <? Z.abs spin then C0 else nth n l C0).
  { induction l as [|x t IH]; intros i n Hn; simpl in Hn; [lia |].
    destruct n as [|n]; simpl.
    - rewrite Z.add_0_r. reflexivity.
    - rewrite IH by lia. do 2 f_equal.
      replace (i + 1 + Z.of_nat n) with (i + Z.pos (Pos.of_succ_nat n)) by lia.
      reflexivity. }
  unfold zero_low_degrees, nthZ. rewrite G by (unfold Zlen in Hlen; lia).
  rewrite Z.add_0_l, Z2Nat.id by assumption.
  rewrite sqrt_elm2ind by assumption. reflexivity.
Qed.

Lemma for_enum_from_ext {A S : Type} (f g : Z -> A -> S -> result S)
    (xs : list A) (t : Z) (s : S) :
  (forall i x u, f i x u = g i x u) ->
  for_enum_from t xs f s = for_enum_from t xs g s.
Proof.
  intros H. revert t s. induction xs as [|x xs IH]; intros t s;
    [reflexivity |].
  cbn [for_enum_from]. rewrite H. destruct (g t x s); [|reflexivity].
  cbn [bind]. apply IH.
Qed.

Lemma for_enumerate_ext {A S : Type} (f g : Z -> A -> S -> result S)
    (xs : list A) (s : S) :
  (forall i x u, f i x u = g i x u) ->
  for_enumerate xs f s = for_enumerate xs g s.
Proof. apply for_enum_from_ext. Qed.

Lemma bind_ext {A B : Type} (c : result A) (k k' : A -> result B) :
  (forall a, k a = k' a) -> bind c k = bind c k'.
Proof. intros H. destruct c; [apply H | reflexivity]. Qed.

Section DegreesBelowSpin.

Variable samples_ntheta : Z -> string -> result Z.
Variable samples_nphi_equiang : Z -> string -> result Z.
Variable samples_thetas : Z -> string -> result (list R).
Variable samples_phis_equiang : Z -> string -> result (list R).
Variable risbo_compute_full :
  list (list R) -> R -> Z -> Z -> result (list (list R)).
Variable fft_ifft_axis0_forward : list (list C) -> result (list (list C)).

Lemma inverse_direct_zero_low (flm : list C) (L spin : Z) (sampling : string) :
  inverse_direct samples_ntheta samples_nphi_equiang samples_thetas
    samples_phis_equiang risbo_compute_full
    (zero_low_degrees flm spin) L spin sampling =
  inverse_direct samples_ntheta samples_nphi_equiang samples_thetas
    samples_phis_equiang risbo_compute_full flm L spin sampling.
Proof.
  unfold inverse_direct.
  repeat (apply bind_ext; intro).
  f_equal. apply for_enumerate_ext. intros t theta st.
  apply for_range_ext. intros el [f dl] Hel.
  apply bind_ext. intros dl'.
  destruct (Z.leb_spec (Z.abs spin) el) as [Hs|Hs]; [|reflexivity].
  f_equal. apply for_range_ext. intros m f' Hm.
  apply for_enumerate_ext. intros p phi f''.
  apply bind_ext. intros old. apply bind_ext. intros d.
  rewrite get1_zero_low_degrees by lia. reflexivity.
Qed.

Lemma sov_first_stage_zero_low (flm : list C) (L spin : Z) (thetas : list R)
    (fmt : list (list C)) (dl : list (list R)) :
  sov_first_stage risbo_compute_full (zero_low_degrees flm spin) L spin
    thetas fmt dl =
  sov_first_stage risbo_compute_full flm L spin thetas fmt dl.
Proof.
  unfold sov_first_stage.
  apply for_enumerate_ext. intros t theta st.
  apply for_range_ext. intros el [f dl0] Hel.
  apply bind_ext. intros dl'.
  destruct (Z.leb_spec (Z.abs spin) el) as [Hs|Hs]; [|reflexivity].
  f_equal. apply for_range_ext. intros m f' Hm.
  apply bind_ext. intros old. apply bind_ext. intros d.
  rewrite get1_zero_low_degrees by lia. reflexivity.
Qed.

(** C8. The coefficients of the degrees [el < |spin|] contribute nothing to
    the output of the three inverse transforms: replacing them by zero
    leaves the result of [inverse_direct], of [inverse_sov] and of
    [inverse_sov_fft] identical. *)
Theorem low_degrees_do_not_contribute (flm : list C) (L spin : Z)
    (sampling : string) :
  inverse_direct samples_ntheta samples_nphi_equiang samples_thetas
    samples_phis_equiang risbo_compute_full
    (zero_low_degrees flm spin) L spin sampling =
  inverse_direct samples_ntheta samples_nphi_equiang samples_thetas
    samples_phis_equiang risbo_compute_full flm L spin sampling /\
  inverse_sov samples_ntheta samples_nphi_equiang samples_thetas
    samples_phis_equiang risbo_compute_full
    (zero_low_degrees flm spin) L spin sampling =
  inverse_sov samples_ntheta samples_nphi_equiang samples_thetas
    samples_phis_equiang risbo_compute_full flm L spin sampling /\
  inverse_sov_fft samples_ntheta samples_nphi_equiang samples_thetas
    samples_phis_equiang risbo_compute_full fft_ifft_axis0_forward
    (zero_low_degrees flm spin) L spin sampling =
  inverse_sov_fft samples_ntheta samples_nphi_equiang samples_thetas
    samples_phis_equiang risbo_compute_full fft_ifft_axis0_forward
    flm L spin sampling.
Proof.
  split; [apply inverse_direct_zero_low | split].
  - unfold inverse_sov. repeat (apply bind_ext; intro).
    rewrite sov_first_stage_zero_low. reflexivity.
  - unfold inverse_sov_fft. repeat (apply bind_ext; intro).
    rewrite sov_first_stage_zero_low. reflexivity.
Qed.

End DegreesBelowSpin.

(** * The reflections of [turok_fill] in closed form *)

Lemma m1pow_succ (k : Z) : m1pow (k + 1) = (m1pow k * -1)%R.
Proof.
  unfold m1pow. rewrite Z.even_add. simpl.
  destruct (Z.even k); simpl; lra.
Qed.

Lemma m1pow_shift (a k : Z) : m1pow (a + 2 * k) = m1pow a.
Proof.
  unfold m1pow. rewrite Z.even_add, Z.even_mul. simpl.
  destruct (Z.even a); reflexivity.
Qed.

Lemma m1pow_eq (a b k : Z) : a = b + 2 * k -> m1pow a = m1pow b.
Proof. intros ->. apply m1pow_shift. Qed.

Lemma m1pow_sq (k : Z) : (m1pow k * m1pow k)%R = 1%R.
Proof. unfold m1pow. destruct (Z.even k); lra. Qed.

Lemma m1pow_add (a b : Z) : m1pow (a + b) = (m1pow a * m1pow b)%R.
Proof.
  unfold m1pow. rewrite Z.even_add.
  destruct (Z.even a), (Z.even b); simpl; lra.
Qed.

(** The entry [(r, c)] (counted from 0) of the matrix completed from the
    quarter plane [c <= r], [r + c <= 2l] of [f]. *)
Definition fill_entry (l : Z) (f : Z -> Z -> R) (r c : Z) : R :=
  (if c <=? l then
     if c <=? r then
       if r + c <=? 2 * l then f r c else f (2 * l - c) (2 * l - r)
     else (f c r * m1pow (c - r))%R
   else
     if r + c <=? 2 * l then (f c r * m1pow (r + c))%R
     else if c <=? r then f (2 * l - c) (2 * l - r)
     else (f (2 * l - r)%Z (2 * l - c)%Z * m1pow (r + c))%R)%Z.

(** The state of [turok_fill] when the entries in [D] have been written:
    they hold their final value, the others the value they had at the
    start. *)
Definition fill_state (l : Z) (f0 : Z -> Z -> R) (D : Z -> Z -> Prop)
    (dl : ndarray) : Prop :=
  exists m, dl = Arr2 m /\ shape2 m (2 * l + 1) (2 * l + 1) /\
    forall r c, 0 <= r <= 2 * l -> 0 <= c <= 2 * l ->
      (D r c -> mat_at 0%R m r c = fill_entry l f0 r c) /\
      (~ D r c -> mat_at 0%R m r c = f0 r c).

Lemma fill_state_equiv (l : Z) (f0 : Z -> Z -> R) (D D' : Z -> Z -> Prop)
    (dl : ndarray) :
  (forall r c, 0 <= r <= 2 * l -> 0 <= c <= 2 * l -> (D r c <-> D' r c)) ->
  fill_state l f0 D dl -> fill_state l f0 D' dl.
Proof.
  intros HD [m [E [Hs H]]]. exists m. split; [exact E |]. split; [exact Hs |].
  intros r c Hr Hc. destruct (H r c Hr Hc) as [H1 H2].
  destruct (HD r c Hr Hc) as [H3 H4]. split; intros HD'.
  - apply H1. apply H4. exact HD'.
  - apply H2. intros HDr. apply HD'. apply H3. exact HDr.
Qed.

Lemma fill_read_raw (l : Z) (f0 : Z -> Z -> R) (D : Z -> Z -> Prop)
    (dl : ndarray) (r c : Z) :
  fill_state l f0 D dl -> 0 <= r <= 2 * l -> 0 <= c <= 2 * l -> ~ D r c ->
  nd_get2 dl r c = Ok (f0 r c).
Proof.
  intros [m [-> [Hs H]]] Hr Hc HD. cbn [nd_get2].
  rewrite (get2_ok 0%R m (2 * l + 1) (2 * l + 1)) by (assumption || lia).
  f_equal. apply H; assumption.
Qed.

Lemma fill_read_done (l : Z) (f0 : Z -> Z -> R) (D : Z -> Z -> Prop)
    (dl : ndarray) (r c : Z) :
  fill_state l f0 D dl -> 0 <= r <= 2 * l -> 0 <= c <= 2 * l -> D r c ->
  nd_get2 dl r c = Ok (fill_entry l f0 r c).
Proof.
  intros [m [-> [Hs H]]] Hr Hc HD. cbn [nd_get2].
  rewrite (get2_ok 0%R m (2 * l + 1) (2 * l + 1)) by (assumption || lia).
  f_equal. apply H; assumption.
Qed.

Lemma fill_write (l : Z) (f0 : Z -> Z -> R) (D : Z -> Z -> Prop)
    (dl : ndarray) (r c : Z) (v : R) :
  fill_state l f0 D dl -> 0 <= r <= 2 * l -> 0 <= c <= 2 * l ->
  v = fill_entry l f0 r c ->
  exists dl', nd_set2 dl r c v = Ok dl' /\
    fill_state l f0 (fun r' c' => D r' c' \/ (r' = r /\ c' = c)) dl'.
Proof.
  intros [m [-> [Hs H]]] Hr Hc Hv. cbn [nd_set2].
  rewrite (set2_ok m (2 * l + 1) (2 * l + 1)) by (assumption || lia).
  cbn [bind]. eexists. split; [reflexivity |].
  exists (mset m r c v). split; [reflexivity |].
  split; [apply shape2_mset; [assumption | lia] |].
  intros r' c' Hr' Hc'.
  rewrite (mat_at_mset 0%R m (2 * l + 1) (2 * l + 1)) by (assumption || lia).
  destruct (H r' c' Hr' Hc') as [H1 H2].
  destruct (Z.eqb_spec r r') as [Er|Er];
    destruct (Z.eqb_spec c c') as [Ec|Ec]; cbn [andb].
  - subst r' c'. split; [intros _; exact Hv | intros HD; exfalso; apply HD; auto].
  - split; intros HD; [apply H1 | apply H2]; intuition lia.
  - split; intros HD; [apply H1 | apply H2]; intuition lia.
  - split; intros HD; [apply H1 | apply H2]; intuition lia.
Qed.

(** Decide the tests of [fill_entry] from the linear facts at hand. *)
Ltac fill_cases :=
  unfold fill_entry;
  repeat match goal with
  | |- context [Z.leb ?a ?b] => destruct (Z.leb_spec a b); try lia
  end.

(** The regions written by the four passes. *)
Definition pass1 (l r c : Z) : Prop := c <= l /\ 2 * l + 1 <= r + c.
Definition pass2 (l r c : Z) : Prop := r < c /\ c <= l.
Definition pass3 (l r c : Z) : Prop := l + 1 <= c /\ (r + c <= 2 * l \/ c <= r).
Definition pass4 (l r c : Z) : Prop :=
  l + 1 <= c /\ 2 * l + 1 <= r + c /\ r < c.

Lemma turok_fill_pass1 (l : Z) (f0 : Z -> Z -> R) (dl : ndarray) :
  0 <= l -> fill_state l f0 (fun _ _ => False) dl ->
  exists dl',
    for_range 1 (l + 1) (fun i dl =>
      for_range (l + 1) (2 * l + 1 - i + 1) (fun j dl =>
        x <- nd_get2 dl (j - lp1) (i - lp1) ;;
        nd_set2 dl (2 * l + 2 - i - lp1) (2 * l + 2 - j - lp1) x) dl) dl
    = Ok dl' /\ fill_state l f0 (pass1 l) dl'.
Proof.
  intros Hl H0. unfold lp1.
  pose (D := fun (i j r c : Z) =>
    pass1 l r c /\
    (2 * l + 1 - r < i \/ (2 * l + 1 - r = i /\ 2 * l + 1 - c < j))).
  match goal with |- exists z_, for_range _ _ ?body _ = _ /\ _ =>
    destruct (for_range_inv (fun i dl => fill_state l f0 (D i (l + 1)) dl)
                1 (l + 1) body dl) as [dl' [Hdl' HI]] end.
  - lia.
  - revert H0. apply fill_state_equiv. intros r c Hr Hc.
    unfold D, pass1. lia.
  - intros i t Hi Ht.
    match goal with |- exists z_, for_range _ _ ?body _ = _ /\ _ =>
      destruct (for_range_inv (fun j dl => fill_state l f0 (D i j) dl)
                  (l + 1) (2 * l + 1 - i + 1) body t) as [t' [Ht' HI']] end.
    + lia.
    + exact Ht.
    + intros j u Hj Hu.
      rewrite (fill_read_raw l f0 _ u _ _ Hu) by (unfold D, pass1; lia).
      cbn [bind].
      destruct (fill_write l f0 _ u (2 * l + 2 - i - 1) (2 * l + 2 - j - 1)
                  (f0 (j - 1) (i - 1)) Hu) as [u' [Hw Hu']]; try lia.
      { fill_cases. f_equal; lia. }
      exists u'. split; [exact Hw |].
      revert Hu'. apply fill_state_equiv. intros r c Hr Hc.
      unfold D, pass1. lia.
    + exists t'. split; [exact Ht' |].
      revert HI'. apply fill_state_equiv. intros r c Hr Hc.
      unfold D, pass1. lia.
  - exists dl'. split; [exact Hdl' |].
    revert HI. apply fill_state_equiv. intros r c Hr Hc.
    unfold D, pass1. lia.
Qed.

Lemma turok_fill_pass2 (l : Z) (f0 : Z -> Z -> R) (dl : ndarray) :
  0 <= l -> fill_state l f0 (pass1 l) dl ->
  exists dl',
    for_range 1 (l + 2) (fun i dl =>
      let sgn := (-1)%R in
      '(dl, _) <- for_range (i + 1) (l + 2) (fun j '(dl, sgn) =>
          x <- nd_get2 dl (j - lp1) (i - lp1) ;;
          dl <- nd_set2 dl (i - lp1) (j - lp1) (x * sgn)%R ;;
          Ok (dl, (sgn * -1)%R)) (dl, sgn) ;;
      Ok dl) dl
    = Ok dl' /\
    fill_state l f0 (fun r c => pass1 l r c \/ pass2 l r c) dl'.
Proof.
  intros Hl H0. unfold lp1.
  pose (D := fun (i j r c : Z) =>
    pass1 l r c \/
    (pass2 l r c /\ (r + 1 < i \/ (r + 1 = i /\ c + 1 < j)))).
  match goal with |- exists z_, for_range _ _ ?body _ = _ /\ _ =>
    destruct (for_range_inv (fun i dl => fill_state l f0 (D i (i + 1)) dl)
                1 (l + 2) body dl) as [dl' [Hdl' HI]] end.
  - lia.
  - revert H0. apply fill_state_equiv. intros r c Hr Hc.
    unfold D, pass1, pass2. lia.
  - intros i t Hi Ht. cbv zeta.
    match goal with |- exists z_, bind (for_range _ _ ?body _) _ = _ /\ _ =>
      destruct (for_range_inv
                  (fun j (st : ndarray * R) =>
                     fill_state l f0 (D i j) (fst st) /\
                     snd st = m1pow (j - i))
                  (i + 1) (l + 2) body (t, (-1)%R)) as [[t' sg'] [Ht' [HI' _]]] end.
    + lia.
    + split; [exact Ht |]. cbn [snd].
      replace (i + 1 - i) with 1 by lia. reflexivity.
    + intros j [u sgn] Hj [Hu Hsgn]. cbn [fst snd] in Hu, Hsgn.
      rewrite (fill_read_raw l f0 _ u _ _ Hu)
        by (unfold D, pass1, pass2; lia).
      cbn [bind].
      destruct (fill_write l f0 _ u (i - 1) (j - 1)
                  (f0 (j - 1)%Z (i - 1)%Z * sgn)%R Hu) as [u' [Hw Hu']]; try lia.
      { subst sgn. fill_cases. f_equal. f_equal. lia. }
      rewrite Hw. cbn [bind]. eexists. split; [reflexivity |].
      cbn [fst snd]. split.
      * revert Hu'. apply fill_state_equiv. intros r c Hr Hc.
        unfold D, pass1, pass2. lia.
      * subst sgn. rewrite <- m1pow_succ. f_equal. lia.
    + rewrite Ht'. cbn [bind]. exists t'. split; [reflexivity |].
      cbn [fst] in HI'. revert HI'. apply fill_state_equiv. intros r c Hr Hc.
      unfold D, pass1, pass2. lia.
  - exists dl'. split; [exact Hdl' |].
    revert HI. apply fill_state_equiv. intros r c Hr Hc.
    unfold D, pass1, pass2. lia.
Qed.

Lemma turok_fill_pass3 (l : Z) (f0 : Z -> Z -> R) (dl : ndarray) :
  0 <= l -> fill_state l f0 (fun r c => pass1 l r c \/ pass2 l r c) dl ->
  exists dl',
    for_range (l + 2) (2 * l + 2) (fun i dl =>
      let sgn := m1pow (i + 1) in
      '(dl, _) <- for_range 1 (2 * l + 2 - i + 1) (fun j '(dl, sgn) =>
          x <- nd_get2 dl (i - lp1) (j - lp1) ;;
          dl <- nd_set2 dl (j - lp1) (i - lp1) (x * sgn)%R ;;
          Ok (dl, (sgn * -1)%R)) (dl, sgn) ;;
      for_range i (2 * l + 2) (fun j dl =>
        x <- nd_get2 dl (2 * l + 2 - i - lp1) (2 * l + 2 - j - lp1) ;;
        nd_set2 dl (j - lp1) (i - lp1) x) dl) dl
    = Ok dl' /\
    fill_state l f0
      (fun r c => pass1 l r c \/ pass2 l r c \/ pass3 l r c) dl'.
Proof.
  intros Hl H0. unfold lp1.
  pose (D := fun (i : Z) (r c : Z) =>
    pass1 l r c \/ pass2 l r c \/ (pass3 l r c /\ c + 1 < i)).
  pose (Da := fun (i j r c : Z) =>
    D i r c \/ (c + 1 = i /\ r + 1 < j /\ r + c <= 2 * l)).
  pose (Db := fun (i j r c : Z) =>
    D i r c \/ (c + 1 = i /\ (r + c <= 2 * l \/ (c <= r /\ r + 1 < j)))).
  match goal with |- exists z_, for_range _ _ ?body _ = _ /\ _ =>
    destruct (for_range_inv (fun i dl => fill_state l f0 (D i) dl)
                (l + 2) (2 * l + 2) body dl) as [dl' [Hdl' HI]] end.
  - lia.
  - revert H0. apply fill_state_equiv. intros r c Hr Hc.
    unfold D, pass1, pass2, pass3. lia.
  - intros i t Hi Ht. cbv zeta.
    match goal with |- exists z_, bind (for_range _ _ ?body _) _ = _ /\ _ =>
      destruct (for_range_inv
                  (fun j (st : ndarray * R) =>
                     fill_state l f0 (Da i j) (fst st) /\
                     snd st = m1pow (i + j))
                  1 (2 * l + 2 - i + 1) body (t, m1pow (i + 1)))
        as [[t1 sg1] [Ht1 [HI1 _]]] end.
    + lia.
    + split; [|reflexivity]. cbn [fst].
      revert Ht. apply fill_state_equiv. intros r c Hr Hc.
      unfold Da, D, pass1, pass2, pass3. lia.
    + intros j [u sgn] Hj [Hu Hsgn]. cbn [fst snd] in Hu, Hsgn.
      rewrite (fill_read_raw l f0 _ u _ _ Hu)
        by (unfold Da, D, pass1, pass2, pass3; lia).
      cbn [bind].
      destruct (fill_write l f0 _ u (j - 1) (i - 1)
                  (f0 (i - 1)%Z (j - 1)%Z * sgn)%R Hu) as [u' [Hw Hu']]; try lia.
      { subst sgn. fill_cases. f_equal.
        apply (m1pow_eq _ _ 1). lia. }
      rewrite Hw. cbn [bind]. eexists. split; [reflexivity |].
      cbn [fst snd]. split.
      * revert Hu'. apply fill_state_equiv. intros r c Hr Hc.
        unfold Da, D, pass1, pass2, pass3. lia.
      * subst sgn. rewrite <- m1pow_succ. f_equal. lia.
    + rewrite Ht1. cbn [bind]. cbn [fst] in HI1.
      match goal with |- exists z_, for_range _ _ ?body _ = _ /\ _ =>
        destruct (for_range_inv (fun j dl => fill_state l f0 (Db i j) dl)
                    i (2 * l + 2) body t1) as [w [Hw HIw]] end.
      * lia.
      * revert HI1. apply fill_state_equiv. intros r c Hr Hc.
        unfold Da, Db, D, pass1, pass2, pass3. lia.
      * intros j u Hj Hu.
        rewrite (fill_read_raw l f0 _ u _ _ Hu)
          by (unfold Db, D, pass1, pass2, pass3; lia).
        cbn [bind].
        destruct (fill_write l f0 _ u (j - 1) (i - 1)
                    (f0 (2 * l + 2 - i - 1) (2 * l + 2 - j - 1)) Hu)
          as [u' [Hw Hu']]; try lia.
        { fill_cases. f_equal; lia. }
        exists u'. split; [exact Hw |].
        revert Hu'. apply fill_state_equiv. intros r c Hr Hc.
        unfold Db, D, pass1, pass2, pass3. lia.
      * exists w. split; [exact Hw |].
        revert HIw. apply fill_state_equiv. intros r c Hr Hc.
        unfold Db, D, pass1, pass2, pass3. lia.
  - exists dl'. split; [exact Hdl' |].
    revert HI. apply fill_state_equiv. intros r c Hr Hc.
    unfold D, pass1, pass2, pass3. lia.
Qed.

Lemma turok_fill_pass4 (l : Z) (f0 : Z -> Z -> R) (dl : ndarray) :
  0 <= l ->
  fill_state l f0 (fun r c => pass1 l r c \/ pass2 l r c \/ pass3 l r c) dl ->
  exists dl',
    for_range (l + 2) (2 * l + 2) (fun i dl =>
      for_range (2 * l + 3 - i) (i - 1 + 1) (fun j dl =>
        x <- nd_get2 dl (2 * l + 2 - i - lp1) (2 * l + 2 - j - lp1) ;;
        nd_set2 dl (j - lp1) (i - lp1) x) dl) dl
    = Ok dl' /\
    fill_state l f0 (fun r c => ~ (c <= r /\ r + c <= 2 * l)) dl'.
Proof.
  intros Hl H0. unfold lp1.
  pose (D := fun (i j r c : Z) =>
    pass1 l r c \/ pass2 l r c \/ pass3 l r c \/
    (pass4 l r c /\ (c + 1 < i \/ (c + 1 = i /\ r + 1 < j)))).
  match goal with |- exists z_, for_range _ _ ?body _ = _ /\ _ =>
    destruct (for_range_inv
                (fun i dl => fill_state l f0 (D i (2 * l + 3 - i)) dl)
                (l + 2) (2 * l + 2) body dl) as [dl' [Hdl' HI]] end.
  - lia.
  - revert H0. apply fill_state_equiv. intros r c Hr Hc.
    unfold D, pass1, pass2, pass3, pass4. lia.
  - intros i t Hi Ht.
    match goal with |- exists z_, for_range _ _ ?body _ = _ /\ _ =>
      destruct (for_range_inv (fun j dl => fill_state l f0 (D i j) dl)
                  (2 * l + 3 - i) (i - 1 + 1) body t) as [t' [Ht' HI']] end.
    + lia.
    + exact Ht.
    + intros j u Hj Hu.
      rewrite (fill_read_done l f0 _ u _ _ Hu)
        by (unfold D, pass1, pass2, pass3, pass4; lia).
      cbn [bind].
      destruct (fill_write l f0 _ u (j - 1) (i - 1)
                  (fill_entry l f0 (2 * l + 2 - i - 1) (2 * l + 2 - j - 1)) Hu)
        as [u' [Hw Hu']]; try lia.
      { fill_cases.
        - f_equal; [f_equal; lia | apply (m1pow_eq _ _ (1 - j)); lia].
        - f_equal; [f_equal; lia | apply (m1pow_eq _ _ (2 * l + 2 - i - j)); lia]. }
      exists u'. split; [exact Hw |].
      revert Hu'. apply fill_state_equiv. intros r c Hr Hc.
      unfold D, pass1, pass2, pass3, pass4. lia.
    + exists t'. split; [exact Ht' |].
      revert HI'. apply fill_state_equiv. intros r c Hr Hc.
      unfold D, pass1, pass2, pass3, pass4. lia.
  - exists dl'. split; [exact Hdl' |].
    revert HI. apply fill_state_equiv. intros r c Hr Hc.
    unfold D, pass1, pass2, pass3, pass4. lia.
Qed.

(** [turok_fill] on a matrix of side [2l + 1] returns the matrix whose
    entries are given by [fill_entry] from the quarter plane of its
    argument. *)
Lemma turok_fill_spec (l : Z) (m0 : list (list R)) :
  0 <= l -> shape2 m0 (2 * l + 1) (2 * l + 1) ->
  exists m, turok_fill (Arr2 m0) l = Ok (Arr2 m) /\
    shape2 m (2 * l + 1) (2 * l + 1) /\
    forall r c, 0 <= r <= 2 * l -> 0 <= c <= 2 * l ->
      mat_at 0%R m r c = fill_entry l (mat_at 0%R m0) r c.
Proof.
  intros Hl Hs.
  assert (H0 : fill_state l (mat_at 0%R m0) (fun _ _ => False) (Arr2 m0)).
  { exists m0. split; [reflexivity |]. split; [exact Hs |].
    intros r c _ _. split; [contradiction | reflexivity]. }
  destruct (turok_fill_pass1 l _ _ Hl H0) as [d1 [E1 H1]].
  destruct (turok_fill_pass2 l _ _ Hl H1) as [d2 [E2 H2]].
  destruct (turok_fill_pass3 l _ _ Hl H2) as [d3 [E3 H3]].
  destruct (turok_fill_pass4 l _ _ Hl H3) as [d4 [E4 H4]].
  unfold turok_fill.
  rewrite (bind_ok _ _ _ E1). cbv beta. rewrite (bind_ok _ _ _ E2). cbv beta.
  rewrite (bind_ok _ _ _ E3). cbv beta. rewrite (bind_ok _ _ _ E4). cbv beta.
  destruct H4 as [m [-> [Hsm Hm]]]. exists m.
  split; [reflexivity |]. split; [exact Hsm |].
  intros r c Hr Hc. destruct (Hm r c Hr Hc) as [Hd Hq].
  destruct (Z_le_dec c r) as [Hcr|Hcr];
    [destruct (Z_le_dec (r + c) (2 * l)) as [Hrc|Hrc] |].
  - rewrite Hq by lia. fill_cases. reflexivity.
  - apply Hd. lia.
  - apply Hd. lia.
Qed.

Lemma turok_fill_scalar (x : R) : turok_fill (Scalar x) 0 = Ok (Scalar x).
Proof. reflexivity. Qed.

(** * [compute_full] *)

Lemma Zlen_tabulate {A : Type} (n : Z) (f : Z -> A) :
  0 <= n -> Zlen (tabulate n f) = n.
Proof.
  intros H. unfold Zlen, tabulate. rewrite length_map, length_seq. lia.
Qed.

Lemma nthZ_tabulate {A : Type} (d : A) (n : Z) (f : Z -> A) (i : Z) :
  0 <= i < n -> nthZ d (tabulate n f) i = f i.
Proof.
  intros H. unfold nthZ, tabulate.
  rewrite (nth_indep _ d (f 0)) by (rewrite length_map, length_seq; lia).
  rewrite (map_nth (fun k => f (Z.of_nat k)) (seq 0 (Z.to_nat n)) 0%nat).
  rewrite seq_nth by lia. f_equal. lia.
Qed.

Lemma shape2_tabulate {A : Type} (r c : Z) (f : Z -> Z -> A) :
  0 <= r -> 0 <= c ->
  shape2 (tabulate r (fun i => tabulate c (f i))) r c.
Proof.
  intros Hr Hc. split; [apply Zlen_tabulate; assumption |].
  apply Forall_forall. intros row Hin. unfold tabulate at 1 in Hin.
  apply in_map_iff in Hin. destruct Hin as [k [<- _]].
  apply Zlen_tabulate. assumption.
Qed.

Lemma mat_at_tabulate {A : Type} (d : A) (r c : Z) (f : Z -> Z -> A) (i j : Z) :
  0 <= i < r -> 0 <= j < c ->
  mat_at d (tabulate r (fun i => tabulate c (f i))) i j = f i j.
Proof.
  intros Hi Hj. unfold mat_at.
  rewrite (nthZ_tabulate [] r) by assumption.
  apply nthZ_tabulate. assumption.
Qed.

Lemma shape2_forallb {A : Type} (m : list (list A)) (r c : Z) :
  shape2 m r c -> forallb (fun row => Zlen row =? c) m = true.
Proof.
  intros [_ H]. apply forallb_forall. intros row Hin.
  rewrite Forall_forall in H. apply Z.eqb_eq. apply H. assumption.
Qed.

Lemma slice_bounds_in (n a b : Z) :
  0 <= a <= b -> b <= n -> slice_bounds n a b = (a, b).
Proof.
  intros H1 H2. unfold slice_bounds.
  replace (a <? 0) with false by (symmetry; apply Z.ltb_ge; lia).
  replace (b <? 0) with false by (symmetry; apply Z.ltb_ge; lia).
  f_equal; lia.
Qed.

(** The entry [(r, c)] of the matrix of side [2L - 1] with the block [f]
    of side [2el + 1] at its centre and zero around it. *)
Definition centred (L el : Z) (f : Z -> Z -> R) (r c : Z) : R :=
  if (L - 1 - el <=? r) && (r <? L + el) && (L - 1 - el <=? c) && (c <? L + el)
  then f (r - (L - 1 - el)) (c - (L - 1 - el)) else 0%R.

(** [compute_full] in terms of what [turok_quarter] returns. *)
Lemma compute_full_matrix (beta : R) (el L : Z) (q : list (list R)) :
  0 <= el < L ->
  turok_quarter beta el = Ok (Arr2 q) ->
  shape2 q (2 * el + 1) (2 * el + 1) ->
  exists M, compute_full beta el L = Ok M /\
    shape2 M (2 * L - 1) (2 * L - 1) /\
    forall r c, 0 <= r < 2 * L - 1 -> 0 <= c < 2 * L - 1 ->
      mat_at 0%R M r c = centred L el (fill_entry el (mat_at 0%R q)) r c.
Proof.
  intros Hel Hq Hs. unfold compute_full.
  replace (L <=? el) with false by (symmetry; apply Z.leb_gt; lia).
  rewrite np_zeros2_ok by lia. cbn [bind]. rewrite Hq. cbn [bind].
  destruct (turok_fill_spec el q ltac:(lia) Hs) as [m [Hm [Hsm Hent]]].
  rewrite Hm. cbn [bind]. unfold assign_block.
  rewrite slice_bounds_in by lia.
  replace (L + el - (L - 1 - el)) with (2 * el + 1) by lia.
  replace (Zlen m) with (2 * el + 1) by (destruct Hsm; lia).
  rewrite Z.eqb_refl, (shape2_forallb m _ _ Hsm). cbn [andb].
  eexists. split; [reflexivity |]. split.
  - apply shape2_tabulate; lia.
  - intros r c Hr Hc. rewrite mat_at_tabulate by lia.
    unfold centred.
    destruct ((L - 1 - el <=? r) && (r <? L + el) && (L - 1 - el <=? c)
              && (c <? L + el)) eqn:E.
    + apply andb_prop in E. destruct E as [E E4].
      apply andb_prop in E. destruct E as [E E3].
      apply andb_prop in E. destruct E as [E1 E2].
      apply Hent; lia.
    + apply mat_at_zeros; lia.
Qed.

(** [compute_full] when [turok_quarter] returns the integer [1]. *)
Lemma compute_full_scalar (beta : R) (L : Z) :
  0 < L ->
  turok_quarter beta 0 = Ok (Scalar 1%R) ->
  exists M, compute_full beta 0 L = Ok M /\
    shape2 M (2 * L - 1) (2 * L - 1) /\
    forall r c, 0 <= r < 2 * L - 1 -> 0 <= c < 2 * L - 1 ->
      mat_at 0%R M r c = centred L 0 (fun _ _ => 1%R) r c.
Proof.
  intros HL Hq. unfold compute_full.
  replace (L <=? 0) with false by (symmetry; apply Z.leb_gt; lia).
  rewrite np_zeros2_ok by lia. cbn [bind]. rewrite Hq. cbn [bind].
  rewrite turok_fill_scalar. cbn [bind]. unfold assign_block.
  rewrite slice_bounds_in by lia.
  eexists. split; [reflexivity |]. split.
  - apply shape2_tabulate; lia.
  - intros r c Hr Hc. rewrite mat_at_tabulate by lia.
    unfold centred.
    destruct ((L - 1 - 0 <=? r) && (r <? L + 0) && (L - 1 - 0 <=? c)
              && (c <? L + 0)) eqn:E; [reflexivity |].
    apply mat_at_zeros; lia.
Qed.

Lemma turok_quarter_zero (beta : R) (l : Z) :
  0 <= l -> (Rabs beta <= 0)%R ->
  turok_quarter beta l =
  Ok (Arr2 (tabulate (2 * l + 1) (fun r => tabulate (2 * l + 1) (fun c =>
              if r =? c then 1%R else 0%R)))).
Proof.
  intros Hl H0. unfold turok_quarter.
  destruct (Rle_dec (Rabs beta) 0) as [_|H]; [|contradiction].
  unfold np_identity.
  replace (2 * l + 1 <? 0) with false by (symmetry; apply Z.ltb_ge; lia).
  reflexivity.
Qed.

Lemma Rabs_0_singular : (Rabs 0 <= 0)%R.
Proof. rewrite Rabs_R0. lra. Qed.

(** The reflections leave the identity as it is. *)
Lemma fill_entry_identity (l : Z) (f : Z -> Z -> R) (r c : Z) :
  0 <= r <= 2 * l -> 0 <= c <= 2 * l ->
  (forall r' c', 0 <= r' <= 2 * l -> 0 <= c' <= 2 * l ->
     f r' c' = if r' =? c' then 1%R else 0%R) ->
  fill_entry l f r c = if r =? c then 1%R else 0%R.
Proof.
  intros Hr Hc Hf. fill_cases; rewrite Hf by lia;
    repeat match goal with |- context [Z.eqb ?a ?b] =>
      destruct (Z.eqb_spec a b); try lia end;
    try reflexivity; try lra.
Qed.

(** C6. For [0 <= el < L], [compute_full] at [beta = 0] returns the
    identity on the populated block: the central block of side [2el + 1]
    is the identity matrix and every entry outside it is zero. *)
Theorem compute_full_zero_angle (el L : Z) :
  0 <= el < L ->
  exists M, compute_full 0%R el L = Ok M /\
    shape2 M (2 * L - 1) (2 * L - 1) /\
    forall r c, 0 <= r < 2 * L - 1 -> 0 <= c < 2 * L - 1 ->
      mat_at 0%R M r c =
      if (L - 1 - el <=? r) && (r <=? L - 1 + el) && (r =? c)
      then 1%R else 0%R.
Proof.
  intros Hel.
  assert (Hl : 0 <= el) by lia.
  assert (Hn : 0 <= 2 * el + 1) by lia.
  destruct (compute_full_matrix 0%R el L _ Hel
              (turok_quarter_zero 0%R el Hl Rabs_0_singular)
              (shape2_tabulate (2 * el + 1) (2 * el + 1) _ Hn Hn))
    as [M [HM [Hs Hent]]].
  exists M. split; [exact HM |]. split; [exact Hs |].
  intros r c Hr Hc. rewrite Hent by assumption. unfold centred.
  destruct (Z.leb_spec (L - 1 - el) r); destruct (Z.ltb_spec r (L + el));
    destruct (Z.leb_spec (L - 1 - el) c); destruct (Z.ltb_spec c (L + el));
    destruct (Z.leb_spec r (L - 1 + el)); destruct (Z.eqb_spec r c);
    cbn [andb]; try lia; try reflexivity.
  - (* on the diagonal of the block *)
    subst c.
    rewrite (fill_entry_identity el)
      by (try (intros; apply mat_at_tabulate); lia).
    rewrite Z.eqb_refl. reflexivity.
  - (* off the diagonal, inside the block *)
    rewrite (fill_entry_identity el)
      by (try (intros; apply mat_at_tabulate); lia).
    match goal with |- context [Z.eqb ?a ?b] =>
      destruct (Z.eqb_spec a b); [lia | reflexivity] end.
Qed.

Lemma compute_full_zero_angle_witness :
  exists M, compute_full 0%R 1 2 = Ok M /\
    shape2 M 3 3 /\
    forall r c, 0 <= r < 3 -> 0 <= c < 3 ->
      mat_at 0%R M r c =
      if (0 <=? r) && (r <=? 2) && (r =? c) then 1%R else 0%R.
Proof. apply (compute_full_zero_angle 1 2). lia. Defined.

(** The anti-diagonal matrix of the reflection: [(-1) ** (l + m)] at
    [(l - m, l + m)]. *)
Definition antidiag (l r c : Z) : R :=
  if r + c =? 2 * l then m1pow (l + (c - l)) else 0%R.

Lemma turok_quarter_reflection (beta : R) (l : Z) :
  0 <= l -> ~ (Rabs beta <= 0)%R -> (Rabs beta >= PI)%R ->
  exists q, turok_quarter beta l = Ok (Arr2 q) /\
    shape2 q (2 * l + 1) (2 * l + 1) /\
    forall r c, 0 <= r <= 2 * l -> 0 <= c <= 2 * l ->
      mat_at 0%R q r c = antidiag l r c.
Proof.
  intros Hl H0 Hpi. unfold turok_quarter.
  destruct (Rle_dec (Rabs beta) 0) as [H|_]; [contradiction |].
  destruct (Rge_dec (Rabs beta) PI) as [_|H]; [|contradiction].
  rewrite np_zeros2_ok by lia. cbn [bind].
  match goal with |- exists q, bind (for_range _ _ ?body ?s) _ = _ /\ _ =>
    destruct (for_range_inv
      (fun m (dl : list (list R)) =>
         shape2 dl (2 * l + 1) (2 * l + 1) /\
         forall r c, 0 <= r <= 2 * l -> 0 <= c <= 2 * l ->
           mat_at 0%R dl r c =
           if (r + c =? 2 * l) && (c - l <? m) then m1pow (l + (c - l))
           else 0%R)
      (- l) (l + 1) body s) as [q [Hq [Hs Hent]]] end.
  - lia.
  - split; [apply shape2_zeros; lia |].
    intros r c Hr Hc. rewrite mat_at_zeros by lia.
    destruct (Z.eqb_spec (r + c) (2 * l)); destruct (Z.ltb_spec (c - l) (- l));
      cbn [andb]; try reflexivity. lia.
  - intros m dl Hm [Hs Hent].
    rewrite (set2_ok dl (2 * l + 1) (2 * l + 1)) by (assumption || lia).
    eexists. split; [reflexivity |]. split.
    + apply shape2_mset; [assumption | lia].
    + intros r c Hr Hc.
      rewrite (mat_at_mset 0%R dl (2 * l + 1) (2 * l + 1))
        by (assumption || lia).
      rewrite Hent by assumption.
      destruct (Z.eqb_spec (l - m) r); destruct (Z.eqb_spec (l + m) c);
        destruct (Z.eqb_spec (r + c) (2 * l));
        destruct (Z.ltb_spec (c - l) m);
        destruct (Z.ltb_spec (c - l) (m + 1)); cbn [andb];
        try lia; try reflexivity.
      f_equal. lia.
  - rewrite Hq. cbn [bind]. exists q. split; [reflexivity |].
    split; [exact Hs |]. intros r c Hr Hc. rewrite Hent by assumption.
    unfold antidiag.
    destruct (Z.eqb_spec (r + c) (2 * l));
      destruct (Z.ltb_spec (c - l) (l + 1)); cbn [andb];
      try lia; reflexivity.
Qed.

Lemma Rabs_PI_regular : ~ (Rabs PI <= 0)%R /\ (Rabs PI >= PI)%R.
Proof.
  pose proof PI_RGT_0 as Hpi. rewrite Rabs_pos_eq by lra. split; lra.
Qed.

(** The reflections leave the anti-diagonal matrix as it is. *)
Lemma fill_entry_antidiag (l : Z) (f : Z -> Z -> R) (r c : Z) :
  0 <= r <= 2 * l -> 0 <= c <= 2 * l ->
  (forall r' c', 0 <= r' <= 2 * l -> 0 <= c' <= 2 * l ->
     f r' c' = antidiag l r' c') ->
  fill_entry l f r c = antidiag l r c.
Proof.
  intros Hr Hc Hf. fill_cases; rewrite Hf by lia; unfold antidiag;
    repeat match goal with |- context [Z.eqb ?a ?b] =>
      destruct (Z.eqb_spec a b); try lia end;
    try lra.
  rewrite <- m1pow_add. apply (m1pow_eq _ _ r). lia.
Qed.

(** C7. For [0 <= el < L], [compute_full] at [beta = pi] returns the
    anti-diagonal matrix on the populated block: the entry at
    [(el - m, el + m)] of the block, that is at [(L-1-m, L-1+m)] of the
    matrix, is [(-1) ** (el + m)] for [-el <= m <= el], and every other
    entry is zero. *)
Theorem compute_full_pi_angle (el L : Z) :
  0 <= el < L ->
  exists M, compute_full PI el L = Ok M /\
    shape2 M (2 * L - 1) (2 * L - 1) /\
    (forall m, - el <= m <= el ->
       mat_at 0%R M (L - 1 - m) (L - 1 + m) = m1pow (el + m)) /\
    (forall r c, 0 <= r < 2 * L - 1 -> 0 <= c < 2 * L - 1 ->
       ~ (exists m, - el <= m <= el /\ r = L - 1 - m /\ c = L - 1 + m) ->
       mat_at 0%R M r c = 0%R).
Proof.
  intros Hel.
  destruct Rabs_PI_regular as [Hp0 Hp1].
  destruct (turok_quarter_reflection PI el ltac:(lia) Hp0 Hp1)
    as [q [Hq [Hsq Hqent]]].
  destruct (compute_full_matrix PI el L q Hel Hq Hsq) as [M [HM [Hs Hent]]].
  exists M. split; [exact HM |]. split; [exact Hs |]. split.
  - intros m Hm. rewrite Hent by lia. unfold centred.
    destruct (Z.leb_spec (L - 1 - el) (L - 1 - m));
      destruct (Z.ltb_spec (L - 1 - m) (L + el));
      destruct (Z.leb_spec (L - 1 - el) (L - 1 + m));
      destruct (Z.ltb_spec (L - 1 + m) (L + el)); cbn [andb]; try lia.
    rewrite (fill_entry_antidiag el) by (assumption || lia).
    unfold antidiag.
    match goal with |- context [Z.eqb ?a ?b] =>
      destruct (Z.eqb_spec a b); [|lia] end.
    f_equal. lia.
  - intros r c Hr Hc Hno. rewrite Hent by lia. unfold centred.
    destruct (Z.leb_spec (L - 1 - el) r); destruct (Z.ltb_spec r (L + el));
      destruct (Z.leb_spec (L - 1 - el) c); destruct (Z.ltb_spec c (L + el));
      cbn [andb]; try reflexivity.
    rewrite (fill_entry_antidiag el) by (assumption || lia).
    unfold antidiag.
    match goal with |- context [Z.eqb ?a ?b] =>
      destruct (Z.eqb_spec a b); [|reflexivity] end.
    exfalso. apply Hno. exists (c - (L - 1)). lia.
Qed.

Lemma compute_full_pi_angle_witness :
  exists M, compute_full PI 1 2 = Ok M /\
    shape2 M 3 3 /\
    (forall m, - 1 <= m <= 1 ->
       mat_at 0%R M (1 - m) (1 + m) = m1pow (1 + m)) /\
    (forall r c, 0 <= r < 3 -> 0 <= c < 3 ->
       ~ (exists m, - 1 <= m <= 1 /\ r = 1 - m /\ c = 1 + m) ->
       mat_at 0%R M r c = 0%R).
Proof. apply (compute_full_pi_angle 1 2). lia. Defined.

(** * The recurrence along one row *)

(** One row of [dl] and its entry of [lrenorm], as the recurrence sees
    them. *)
Definition prow : Type := ((Z -> R) * R)%type.

(** [recurrence_step] on a row: the new entry at column [m], and the
    rescaling of the columns [0..m] when it exceeds [big_const]. *)
Definition pure_step (l : Z) (c s omc : R) (cpi cp2 : list R) (i m : Z)
    (p : prow) : prow :=
  let lamb := ((IZR (l + 1) * omc - IZR i + IZR m * c) / s)%R in
  let v := (lamb * nthZ 0%R cpi (m - 1) * fst p (m - 1)%Z
            - nthZ 0%R cp2 (m - 1) * fst p (m - 1 - 1)%Z)%R in
  if Rgt_dec v big_const then
    (fun k => if k <=? m
              then ((if k =? m then v else fst p k) * bigi)%R
              else fst p k,
     (snd p - lbig)%R)
  else (fun k => if k =? m then v else fst p k, snd p).

(** [recurrence_start] on a row. *)
Definition pure_start (l : Z) (c s omc : R) (cpi : list R) (i : Z) : Z -> R :=
  fun k =>
    if k =? 0 then 1%R
    else if k =? 1
         then ((IZR (l + 1) * omc - IZR i + c) / s * 1 * nthZ 0%R cpi 0)%R
         else 0%R.

Fixpoint iter_range {T : Type} (n : nat) (a : Z) (step : Z -> T -> T) (t : T)
  : T :=
  match n with
  | O => t
  | S n' => iter_range n' (a + 1) step (step a t)
  end.

Lemma iter_range_snoc {T : Type} (n : nat) (a : Z) (step : Z -> T -> T) (t : T) :
  iter_range (S n) a step t = step (a + Z.of_nat n) (iter_range n a step t).
Proof.
  revert a t. induction n as [|n IH]; intros a t.
  - simpl. rewrite Z.add_0_r. reflexivity.
  - change (iter_range (S (S n)) a step t)
      with (iter_range (S n) (a + 1) step (step a t)).
    rewrite IH. cbn [iter_range]. f_equal. lia.
Qed.

Section Row.

Variables (l : Z) (c s omc : R) (cpi cp2 : list R).
Hypothesis Hl : 1 <= l.
Hypothesis Hcpi : Zlen cpi = 2 * l + 1.
Hypothesis Hcp2 : Zlen cp2 = 2 * l + 1.

(** The state holds the row [p] in the columns below [m] of row [i];
    the rest of the state is the one of [st0]. *)
Definition row_state (i m : Z) (p : prow) (st0 st : rstate) : Prop :=
  shape2 (fst st) (2 * l + 1) (2 * l + 1) /\
  Zlen (snd st) = 2 * l + 1 /\
  (forall k, 0 <= k < m -> mat_at 0%R (fst st) (i - 1) k = fst p k) /\
  nthZ 0%R (snd st) (i - 1) = snd p /\
  (forall r k, 0 <= r <= 2 * l -> 0 <= k <= 2 * l -> r <> i - 1 ->
     mat_at 0%R (fst st) r k = mat_at 0%R (fst st0) r k) /\
  (forall k, 0 <= k <= 2 * l -> k <> i - 1 ->
     nthZ 0%R (snd st) k = nthZ 0%R (snd st0) k).

Lemma recurrence_step_spec (i m : Z) (p : prow) (st0 st : rstate) :
  1 <= i <= 2 * l + 1 -> 2 <= m <= 2 * l ->
  row_state i m p st0 st ->
  exists st', recurrence_step l c s omc cpi cp2 i m st = Ok st' /\
    row_state i (m + 1) (pure_step l c s omc cpi cp2 i m p) st0 st'.
Proof.
  intros Hi Hm. destruct st as [dl lr].
  intros (Hsh & Hlr & Hrow & Hlam & Hfr & Hfl). cbn [fst snd] in *.
  unfold recurrence_step, pure_step, lp1.
  replace (m + 1 - 1) with m by lia.
  rewrite (get1_ok 0%R cpi) by lia. cbn [bind].
  rewrite (get2_ok 0%R dl (2 * l + 1) (2 * l + 1)) by (assumption || lia).
  cbn [bind].
  rewrite (get1_ok 0%R cp2) by lia. cbn [bind].
  rewrite (get2_ok 0%R dl (2 * l + 1) (2 * l + 1)) by (assumption || lia).
  cbn [bind].
  rewrite (set2_ok dl (2 * l + 1) (2 * l + 1)) by (assumption || lia).
  cbn [bind].
  rewrite !Hrow by lia.
  set (v := (_ - _)%R).
  assert (Hsh1 : shape2 (mset dl (i - 1) m v) (2 * l + 1) (2 * l + 1))
    by (apply shape2_mset; [assumption | lia]).
  rewrite (get2_ok 0%R _ (2 * l + 1) (2 * l + 1)) by (assumption || lia).
  cbn [bind].
  assert (Hat : forall r k, 0 <= r -> 0 <= k ->
            mat_at 0%R (mset dl (i - 1) m v) r k =
            if (i - 1 =? r) && (m =? k) then v else mat_at 0%R dl r k).
  { intros r k Hr Hk.
    apply (mat_at_mset 0%R dl (2 * l + 1) (2 * l + 1)); assumption || lia. }
  rewrite Hat by lia. rewrite !Z.eqb_refl. cbn [andb].
  destruct (Rgt_dec v big_const) as [Hbig|Hbig].
  - rewrite (get1_ok 0%R lr) by lia. cbn [bind].
    rewrite set1_ok by lia. cbn [bind].
    match goal with |- exists st', bind (for_range _ _ ?body ?s0) _ = _ /\ _ =>
      destruct (for_range_inv
        (fun im (d : list (list R)) =>
           shape2 d (2 * l + 1) (2 * l + 1) /\
           forall r k, 0 <= r <= 2 * l -> 0 <= k <= 2 * l ->
             mat_at 0%R d r k =
             if (i - 1 =? r) && (k <? im - 1)
             then (mat_at 0%R s0 r k * bigi)%R else mat_at 0%R s0 r k)
        1 (m + 2) body s0) as [d' [Hd' [Hsh' Hent']]] end.
    + lia.
    + split; [exact Hsh1 |]. intros r k Hr Hk.
      destruct (Z.ltb_spec k (1 - 1)); [lia |].
      rewrite andb_false_r. reflexivity.
    + intros im d Him [Hshd Hd].
      rewrite (get2_ok 0%R d (2 * l + 1) (2 * l + 1)) by (assumption || lia).
      cbn [bind].
      rewrite (set2_ok d (2 * l + 1) (2 * l + 1)) by (assumption || lia).
      eexists. split; [reflexivity |]. split.
      * apply shape2_mset; [assumption | lia].
      * intros r k Hr Hk.
        rewrite (mat_at_mset 0%R d (2 * l + 1) (2 * l + 1))
          by (assumption || lia).
        rewrite !Hd by lia.
        destruct (Z.eqb_spec (i - 1) r); destruct (Z.eqb_spec (im - 1) k);
          destruct (Z.ltb_spec k (im - 1));
          destruct (Z.ltb_spec k (im + 1 - 1));
          destruct (Z.ltb_spec (im - 1) (im - 1));
          cbn [andb]; try lia; try reflexivity.
        all: subst; rewrite ?Z.eqb_refl; cbn [andb]; reflexivity.
    + rewrite Hd'. cbn [bind]. eexists. split; [reflexivity |].
      unfold row_state. cbn [fst snd].
      split; [exact Hsh' |]. split; [rewrite Zlen_setZ; exact Hlr |].
      split; [|split; [|split]].
      * intros k Hk. rewrite Hent' by lia. rewrite Hat by lia.
        rewrite Z.eqb_refl. cbn [andb].
        destruct (Z.ltb_spec k (m + 2 - 1)); [|lia].
        destruct (Z.leb_spec k m); [|lia].
        destruct (Z.eqb_spec m k); destruct (Z.eqb_spec k m); try lia.
        -- reflexivity.
        -- rewrite Hrow by lia. reflexivity.
      * rewrite nthZ_setZ_eq by lia. rewrite Hlam. reflexivity.
      * intros r k Hr Hk Hne. rewrite Hent' by lia. rewrite Hat by lia.
        destruct (Z.eqb_spec (i - 1) r); [lia |]. cbn [andb].
        apply Hfr; assumption.
      * intros k Hk Hne. rewrite nthZ_setZ_ne by lia. apply Hfl; assumption.
  - eexists. split; [reflexivity |].
    unfold row_state. cbn [fst snd].
    split; [exact Hsh1 |]. split; [exact Hlr |].
    split; [|split; [|split]].
    + intros k Hk. rewrite Hat by lia. rewrite Z.eqb_refl. cbn [andb].
      destruct (Z.eqb_spec m k); destruct (Z.eqb_spec k m); try lia.
      * reflexivity.
      * apply Hrow. lia.
    + exact Hlam.
    + intros r k Hr Hk Hne. rewrite Hat by lia.
      destruct (Z.eqb_spec (i - 1) r); [lia |]. cbn [andb].
      apply Hfr; assumption.
    + exact Hfl.
Qed.


Lemma recurrence_start_spec (i : Z) (dl : list (list R)) :
  1 <= i <= 2 * l + 1 ->
  shape2 dl (2 * l + 1) (2 * l + 1) ->
  exists dl', recurrence_start l c s omc cpi i dl = Ok dl' /\
    shape2 dl' (2 * l + 1) (2 * l + 1) /\
    (forall k, 0 <= k < 2 ->
       mat_at 0%R dl' (i - 1) k = pure_start l c s omc cpi i k) /\
    (forall r k, 0 <= r <= 2 * l -> 0 <= k <= 2 * l -> r <> i - 1 ->
       mat_at 0%R dl' r k = mat_at 0%R dl r k).
Proof.
  intros Hi Hsh. unfold recurrence_start, lp1.
  replace (1 - 1) with 0 by lia. replace (2 - 1) with 1 by lia.
  rewrite (set2_ok dl (2 * l + 1) (2 * l + 1)) by (assumption || lia).
  cbn [bind].
  assert (Hsh1 : shape2 (mset dl (i - 1) 0 1%R) (2 * l + 1) (2 * l + 1))
    by (apply shape2_mset; [assumption | lia]).
  rewrite (get2_ok 0%R _ (2 * l + 1) (2 * l + 1)) by (assumption || lia).
  cbn [bind].
  rewrite (get1_ok 0%R cpi) by lia. cbn [bind].
  rewrite (set2_ok _ (2 * l + 1) (2 * l + 1)) by (assumption || lia).
  eexists. split; [reflexivity |]. split.
  - apply shape2_mset; [assumption | lia].
  - assert (H1 : mat_at 0%R (mset dl (i - 1) 0 1%R) (i - 1) 0 = 1%R).
    { rewrite (mat_at_mset 0%R dl (2 * l + 1) (2 * l + 1))
        by (assumption || lia).
      rewrite !Z.eqb_refl. reflexivity. }
    rewrite H1. split.
    + intros k Hk.
      rewrite (mat_at_mset 0%R _ (2 * l + 1) (2 * l + 1))
        by (assumption || lia).
      rewrite Z.eqb_refl. cbn [andb]. unfold pure_start.
      assert (k = 0 \/ k = 1) as [-> | ->] by lia.
      * cbn. exact H1.
      * cbn. reflexivity.
    + intros r k Hr Hk Hne.
      rewrite (mat_at_mset 0%R _ (2 * l + 1) (2 * l + 1))
        by (assumption || lia).
      destruct (Z.eqb_spec (i - 1) r); [lia |]. cbn [andb].
      rewrite (mat_at_mset 0%R _ (2 * l + 1) (2 * l + 1))
        by (assumption || lia).
      destruct (Z.eqb_spec (i - 1) r); [lia |]. reflexivity.
Qed.

(** The columns the recurrence computes in row [i]: up to the diagonal in
    the lower rows, up to the anti-diagonal in the upper ones. *)
Definition row_hi (i : Z) : Z := if i <=? l + 1 then i else 2 * l - i + 2.

(** Row [i] after the recurrence, from an entry [0] of [lrenorm]. *)
Definition pure_row (i : Z) : prow :=
  iter_range (Z.to_nat (row_hi i - 2)) 2 (pure_step l c s omc cpi cp2 i)
    (pure_start l c s omc cpi i, 0%R).

Lemma recurrence_loop_spec (i hi : Z) (p0 : prow) (st0 st : rstate) :
  1 <= i <= 2 * l + 1 -> hi <= 2 * l + 1 ->
  row_state i 2 p0 st0 st ->
  exists st', for_range 2 hi (recurrence_step l c s omc cpi cp2 i) st = Ok st' /\
    row_state i (Z.max 2 hi)
      (iter_range (Z.to_nat (hi - 2)) 2 (pure_step l c s omc cpi cp2 i) p0)
      st0 st'.
Proof.
  intros Hi Hhi H0.
  destruct (Z_le_dec hi 2) as [Hle|Hgt].
  - rewrite for_range_empty by lia. exists st. split; [reflexivity |].
    replace (Z.to_nat (hi - 2)) with O by lia.
    replace (Z.max 2 hi) with 2 by lia. exact H0.
  - destruct (for_range_inv
      (fun m st' =>
         row_state i m
           (iter_range (Z.to_nat (m - 2)) 2 (pure_step l c s omc cpi cp2 i) p0)
           st0 st')
      2 hi (recurrence_step l c s omc cpi cp2 i) st) as [st' [Hst' HI]].
    + lia.
    + exact H0.
    + intros m t Hm Ht.
      destruct (recurrence_step_spec i m _ st0 t Hi ltac:(lia) Ht)
        as [t' [Ht' HI']].
      exists t'. split; [exact Ht' |].
      replace (Z.to_nat (m + 1 - 2)) with (S (Z.to_nat (m - 2))) by lia.
      rewrite iter_range_snoc.
      replace (2 + Z.of_nat (Z.to_nat (m - 2))) with m by lia.
      exact HI'.
    + exists st'. split; [exact Hst' |].
      replace (Z.max 2 hi) with hi by lia. exact HI.
Qed.

Lemma row_state_start (i : Z) (dl dl' : list (list R)) (lr : list R) :
  shape2 dl' (2 * l + 1) (2 * l + 1) ->
  Zlen lr = 2 * l + 1 ->
  nthZ 0%R lr (i - 1) = 0%R ->
  (forall k, 0 <= k < 2 ->
     mat_at 0%R dl' (i - 1) k = pure_start l c s omc cpi i k) ->
  (forall r k, 0 <= r <= 2 * l -> 0 <= k <= 2 * l -> r <> i - 1 ->
     mat_at 0%R dl' r k = mat_at 0%R dl r k) ->
  row_state i 2 (pure_start l c s omc cpi i, 0%R) (dl, lr) (dl', lr).
Proof.
  intros Hsh Hlr H0 Hrow Hfr. unfold row_state. cbn [fst snd].
  split; [exact Hsh |]. split; [exact Hlr |]. split; [exact Hrow |].
  split; [exact H0 |]. split; [exact Hfr |]. intros; reflexivity.
Qed.

Lemma recurrence_lower_spec (i : Z) (st : rstate) :
  1 <= i <= l + 1 ->
  shape2 (fst st) (2 * l + 1) (2 * l + 1) ->
  Zlen (snd st) = 2 * l + 1 ->
  nthZ 0%R (snd st) (i - 1) = 0%R ->
  exists st', recurrence_lower l c s omc cpi cp2 i st = Ok st' /\
    row_state i (Z.max 2 (row_hi i)) (pure_row i) st st'.
Proof.
  intros Hi Hsh Hlr H0. destruct st as [dl lr]. cbn [fst snd] in *.
  unfold recurrence_lower.
  destruct (recurrence_start_spec i dl ltac:(lia) Hsh)
    as [dl1 [E1 [Hsh1 [Hrow1 Hfr1]]]].
  rewrite E1. cbn [bind].
  pose proof (row_state_start i dl dl1 lr Hsh1 Hlr H0 Hrow1 Hfr1) as Hst.
  destruct (recurrence_loop_spec i i _ _ _ ltac:(lia) ltac:(lia) Hst)
    as [st' [E2 HI]].
  assert (Hhi : row_hi i = i)
    by (unfold row_hi; destruct (Z.leb_spec i (l + 1)); lia).
  unfold pure_row. rewrite Hhi.
  destruct (Z.ltb_spec 2 i).
  - exists st'. split; assumption.
  - rewrite for_range_empty in E2 by lia. exists (dl1, lr).
    split; [reflexivity |]. injection E2 as <-. exact HI.
Qed.

Lemma recurrence_upper_spec (i : Z) (st : rstate) :
  l + 2 <= i <= 2 * l + 1 ->
  shape2 (fst st) (2 * l + 1) (2 * l + 1) ->
  Zlen (snd st) = 2 * l + 1 ->
  nthZ 0%R (snd st) (i - 1) = 0%R ->
  exists st', recurrence_upper l c s omc cpi cp2 i st = Ok st' /\
    row_state i (Z.max 2 (row_hi i)) (pure_row i) st st'.
Proof.
  intros Hi Hsh Hlr H0. destruct st as [dl lr]. cbn [fst snd] in *.
  unfold recurrence_upper.
  destruct (recurrence_start_spec i dl ltac:(lia) Hsh)
    as [dl1 [E1 [Hsh1 [Hrow1 Hfr1]]]].
  rewrite E1. cbn [bind].
  pose proof (row_state_start i dl dl1 lr Hsh1 Hlr H0 Hrow1 Hfr1) as Hst.
  destruct (recurrence_loop_spec i (2 * l - i + 2) _ _ _
              ltac:(lia) ltac:(lia) Hst) as [st' [E2 HI]].
  assert (Hhi : row_hi i = 2 * l - i + 2)
    by (unfold row_hi; destruct (Z.leb_spec i (l + 1)); lia).
  unfold pure_row. rewrite Hhi.
  destruct (Z.ltb_spec i (2 * l)).
  - exists st'. split; assumption.
  - rewrite for_range_empty in E2 by lia. exists (dl1, lr).
    split; [reflexivity |]. injection E2 as <-. exact HI.
Qed.

End Row.

(** * The rows of the quarter plane *)

Section Rows.

Variables (l : Z) (c s omc : R) (cpi cp2 : list R).
Hypothesis Hl : 1 <= l.
Hypothesis Hcpi : Zlen cpi = 2 * l + 1.
Hypothesis Hcp2 : Zlen cp2 = 2 * l + 1.

(** The rows [A <= i' < i] hold the result of the recurrence; the other
    rows are the ones of [st0]. *)
Definition rows_done (A i : Z) (st0 st : rstate) : Prop :=
  shape2 (fst st) (2 * l + 1) (2 * l + 1) /\
  Zlen (snd st) = 2 * l + 1 /\
  (forall i', A <= i' < i ->
     (forall k, 0 <= k < Z.max 2 (row_hi l i') ->
        mat_at 0%R (fst st) (i' - 1) k
        = fst (pure_row l c s omc cpi cp2 i') k) /\
     nthZ 0%R (snd st) (i' - 1) = snd (pure_row l c s omc cpi cp2 i')) /\
  (forall r k, 0 <= r <= 2 * l -> 0 <= k <= 2 * l -> ~ (A <= r + 1 < i) ->
     mat_at 0%R (fst st) r k = mat_at 0%R (fst st0) r k) /\
  (forall k, 0 <= k <= 2 * l -> ~ (A <= k + 1 < i) ->
     nthZ 0%R (snd st) k = nthZ 0%R (snd st0) k).

Lemma rows_done_init (A : Z) (st0 : rstate) :
  shape2 (fst st0) (2 * l + 1) (2 * l + 1) ->
  Zlen (snd st0) = 2 * l + 1 ->
  rows_done A A st0 st0.
Proof.
  intros Hsh Hlr. unfold rows_done.
  split; [exact Hsh |]. split; [exact Hlr |].
  split; [intros; lia |]. split; intros; reflexivity.
Qed.

Lemma rows_done_step (A i : Z) (st0 st st' : rstate) :
  1 <= A <= i -> i <= 2 * l + 1 ->
  rows_done A i st0 st ->
  row_state l i (Z.max 2 (row_hi l i)) (pure_row l c s omc cpi cp2 i) st st' ->
  rows_done A (i + 1) st0 st'.
Proof.
  intros HA Hi (Hsh & Hlr & Hrows & Hfr & Hfl)
    (Hsh' & Hlr' & Hrow' & Hlam' & Hfr' & Hfl').
  unfold rows_done.
  split; [exact Hsh' |]. split; [exact Hlr' |].
  split; [|split].
  - intros i' Hi'. destruct (Z.eq_dec i' i) as [->|Hne].
    + split; [exact Hrow' | exact Hlam'].
    + destruct (Hrows i' ltac:(lia)) as [H1 H2]. split.
      * intros k Hk.
        assert (Hk' : 0 <= k <= 2 * l).
        { unfold row_hi in Hk. destruct (Z.leb_spec i' (l + 1)); lia. }
        rewrite Hfr' by lia. apply H1. exact Hk.
      * rewrite Hfl' by lia. exact H2.
  - intros r k Hr Hk Hno. rewrite Hfr' by lia. apply Hfr; lia.
  - intros k Hk Hno. rewrite Hfl' by lia. apply Hfl; lia.
Qed.

(** The two loops of the recurrence, over the rows [A..l+1] and
    [l+2..B-1], from a state whose [lrenorm] is zero. *)
Lemma recurrence_rows_spec (A B : Z) (st0 : rstate) :
  1 <= A <= l + 2 -> l + 2 <= B <= 2 * l + 2 ->
  shape2 (fst st0) (2 * l + 1) (2 * l + 1) ->
  Zlen (snd st0) = 2 * l + 1 ->
  (forall k, 0 <= k <= 2 * l -> nthZ 0%R (snd st0) k = 0%R) ->
  exists st1 st2,
    for_range A (l + 2) (recurrence_lower l c s omc cpi cp2) st0 = Ok st1 /\
    for_range (l + 2) B (recurrence_upper l c s omc cpi cp2) st1 = Ok st2 /\
    rows_done A B st0 st2.
Proof.
  intros HA HB Hsh Hlr Hzero.
  destruct (for_range_inv (fun i st => rows_done A i st0 st)
              A (l + 2) (recurrence_lower l c s omc cpi cp2) st0)
    as [st1 [E1 H1]].
  - lia.
  - apply rows_done_init; assumption.
  - intros i t Hi Ht.
    pose proof Ht as (Hsh' & Hlr' & _ & _ & Hfl).
    destruct (recurrence_lower_spec l c s omc cpi cp2 Hl Hcpi Hcp2 i t
                ltac:(lia) Hsh' Hlr') as [t' [Et' Hrow]].
    { rewrite Hfl by lia. apply Hzero. lia. }
    exists t'. split; [exact Et' |].
    apply (rows_done_step A i st0 t t'); assumption || lia.
  - destruct (for_range_inv (fun i st => rows_done A i st0 st)
                (l + 2) B (recurrence_upper l c s omc cpi cp2) st1)
      as [st2 [E2 H2]].
    + lia.
    + exact H1.
    + intros i t Hi Ht.
      pose proof Ht as (Hsh' & Hlr' & _ & _ & Hfl).
      destruct (recurrence_upper_spec l c s omc cpi cp2 Hl Hcpi Hcp2 i t
                  ltac:(lia) Hsh' Hlr') as [t' [Et' Hrow]].
      { rewrite Hfl by lia. apply Hzero. lia. }
      exists t'. split; [exact Et' |].
      apply (rows_done_step A i st0 t t'); assumption || lia.
    + exists st1, st2. split; [exact E1 | split; [exact E2 | exact H2]].
Qed.

End Rows.

(** ** Renormalisation *)

Section Renormalise.

Variables (l : Z) (log_first_row sign lrenorm : list R).
Hypothesis Hl : 1 <= l.
Hypothesis Hlfr : Zlen log_first_row = 2 * l + 1.
Hypothesis Hsign : Zlen sign = 2 * l + 1.
Hypothesis Hlr : Zlen lrenorm = 2 * l + 1.

(** [renorm] for row [i] *)
Definition renorm_factor (i : Z) : R :=
  (nthZ 0%R sign (i - 1)
   * exp (nthZ 0%R log_first_row (i - 1) - nthZ 0%R lrenorm (i - 1)))%R.

Lemma renormalise_row_spec (i n : Z) (dl : list (list R)) :
  1 <= i <= 2 * l + 1 -> 0 <= n <= 2 * l + 1 ->
  shape2 dl (2 * l + 1) (2 * l + 1) ->
  exists dl', renormalise_row log_first_row sign lrenorm i n dl = Ok dl' /\
    shape2 dl' (2 * l + 1) (2 * l + 1) /\
    forall r k, 0 <= r <= 2 * l -> 0 <= k <= 2 * l ->
      mat_at 0%R dl' r k =
      if (r =? i - 1) && (k <? n)
      then (mat_at 0%R dl r k * renorm_factor i)%R
      else mat_at 0%R dl r k.
Proof.
  intros Hi Hn Hsh. unfold renormalise_row, lp1.
  rewrite (get1_ok 0%R sign) by lia. cbn [bind].
  rewrite (get1_ok 0%R log_first_row) by lia. cbn [bind].
  rewrite (get1_ok 0%R lrenorm) by lia. cbn [bind].
  fold (renorm_factor i).
  match goal with |- exists z_, for_range _ _ ?body _ = _ /\ _ =>
    destruct (for_range_inv
      (fun j (d : list (list R)) =>
         shape2 d (2 * l + 1) (2 * l + 1) /\
         forall r k, 0 <= r <= 2 * l -> 0 <= k <= 2 * l ->
           mat_at 0%R d r k =
           if (r =? i - 1) && (k <? j - 1)
           then (mat_at 0%R dl r k * renorm_factor i)%R
           else mat_at 0%R dl r k)
      1 (n + 1) body dl) as [d' [Ed' [Hsh' Hent]]] end.
  - lia.
  - split; [exact Hsh |]. intros r k Hr Hk.
    destruct (Z.ltb_spec k (1 - 1)); [lia |].
    rewrite andb_false_r. reflexivity.
  - intros j d Hj [Hshd Hd].
    rewrite (get2_ok 0%R d (2 * l + 1) (2 * l + 1)) by (assumption || lia).
    cbn [bind].
    rewrite (set2_ok d (2 * l + 1) (2 * l + 1)) by (assumption || lia).
    eexists. split; [reflexivity |]. split.
    + apply shape2_mset; [assumption | lia].
    + intros r k Hr Hk.
      rewrite (mat_at_mset 0%R d (2 * l + 1) (2 * l + 1))
        by (assumption || lia).
      rewrite !Hd by lia.
      destruct (Z.eqb_spec (i - 1) r); destruct (Z.eqb_spec (j - 1) k);
        destruct (Z.eqb_spec r (i - 1)); destruct (Z.ltb_spec k (j - 1));
        destruct (Z.ltb_spec k (j + 1 - 1));
        destruct (Z.ltb_spec (j - 1) (j - 1));
        cbn [andb]; try lia; try reflexivity.
      all: subst; rewrite ?Z.eqb_refl; cbn [andb]; reflexivity.
  - exists d'. split; [exact Ed' |]. split; [exact Hsh' |].
    intros r k Hr Hk. rewrite Hent by lia.
    replace (n + 1 - 1) with n by lia. reflexivity.
Qed.

(** A loop of renormalisations over the rows [A..B-1], [nc i] entries in
    row [i]. *)
Lemma renormalise_rows_spec (nc : Z -> Z) (A B : Z) (dl : list (list R)) :
  1 <= A <= B -> B <= 2 * l + 2 ->
  (forall i, A <= i < B -> 0 <= nc i <= 2 * l + 1) ->
  shape2 dl (2 * l + 1) (2 * l + 1) ->
  exists dl',
    for_range A B (fun i dl =>
      renormalise_row log_first_row sign lrenorm i (nc i) dl) dl = Ok dl' /\
    shape2 dl' (2 * l + 1) (2 * l + 1) /\
    forall r k, 0 <= r <= 2 * l -> 0 <= k <= 2 * l ->
      mat_at 0%R dl' r k =
      if (A <=? r + 1) && (r + 1 <? B) && (k <? nc (r + 1))
      then (mat_at 0%R dl r k * renorm_factor (r + 1))%R
      else mat_at 0%R dl r k.
Proof.
  intros HA HB Hnc Hsh.
  match goal with |- exists z_, for_range _ _ ?body _ = _ /\ _ =>
    destruct (for_range_inv
      (fun i (d : list (list R)) =>
         shape2 d (2 * l + 1) (2 * l + 1) /\
         forall r k, 0 <= r <= 2 * l -> 0 <= k <= 2 * l ->
           mat_at 0%R d r k =
           if (A <=? r + 1) && (r + 1 <? i) && (k <? nc (r + 1))
           then (mat_at 0%R dl r k * renorm_factor (r + 1))%R
           else mat_at 0%R dl r k)
      A B body dl) as [d' [Ed' HI]] end.
  - lia.
  - split; [exact Hsh |]. intros r k Hr Hk.
    destruct (Z.leb_spec A (r + 1)); destruct (Z.ltb_spec (r + 1) A);
      cbn [andb]; try lia; reflexivity.
  - intros i d Hi [Hshd Hd].
    destruct (renormalise_row_spec i (nc i) d ltac:(lia) (Hnc i Hi) Hshd)
      as [d' [Ed' [Hsh' Hent]]].
    exists d'. split; [exact Ed' |]. split; [exact Hsh' |].
    intros r k Hr Hk. rewrite Hent by lia. rewrite !Hd by lia.
    destruct (Z.eqb_spec r (i - 1)); destruct (Z.leb_spec A (r + 1));
      destruct (Z.ltb_spec (r + 1) i); destruct (Z.ltb_spec (r + 1) (i + 1));
      cbn [andb]; try lia; try reflexivity.
    subst r. replace (i - 1 + 1) with i by lia.
    destruct (Z.ltb_spec k (nc i)); reflexivity.
  - exists d'. split; [exact Ed' |]. exact HI.
Qed.

End Renormalise.

(** * The vectors of the recursion *)

Lemma py_truediv_ok (a b : Z) :
  b <> 0 -> py_truediv a b = Ok (IZR a / IZR b)%R.
Proof.
  intros H. unfold py_truediv.
  destruct (Z.eqb_spec b 0); [contradiction | reflexivity].
Qed.

Lemma populate_first_row_ok (c2 t : R) (l : Z) (lfr0 sign0 : list R) :
  1 <= l -> Zlen lfr0 = 2 * l + 1 -> Zlen sign0 = 2 * l + 1 ->
  exists lfr sign,
    populate_first_row c2 t l lfr0 sign0 = Ok (lfr, sign) /\
    Zlen lfr = 2 * l + 1 /\ Zlen sign = 2 * l + 1.
Proof.
  intros Hl H1 H2. unfold populate_first_row.
  rewrite set1_ok by lia. cbn [bind]. rewrite set1_ok by lia. cbn [bind].
  match goal with |- exists lfr sign, for_range _ _ ?body ?s0 = _ /\ _ =>
    destruct (for_range_inv
      (fun (i : Z) (st : list R * list R) =>
         Zlen (fst st) = 2 * l + 1 /\ Zlen (snd st) = 2 * l + 1)
      2 (2 * l + 2) body s0) as [[lfr sign] [E [Ha Hb]]] end.
  - lia.
  - cbn [fst snd]. rewrite !Zlen_setZ. split; assumption.
  - intros i [a b] Hi [Ha Hb]. cbn [fst snd] in Ha, Hb.
    rewrite py_truediv_ok by lia. cbn [bind].
    rewrite (get1_ok 0%R a) by lia. cbn [bind].
    rewrite set1_ok by lia. cbn [bind].
    rewrite (get1_ok 0%R b) by lia. cbn [bind].
    rewrite set1_ok by lia. cbn [bind].
    eexists. split; [reflexivity |]. cbn [fst snd].
    rewrite !Zlen_setZ. split; assumption.
  - exists lfr, sign. split; [exact E |]. split; assumption.
Qed.

(** The vectors [log_first_row] and [sign] of the angle [beta]. *)
Definition first_row_vectors (beta : R) (l : Z) : list R * list R :=
  match populate_first_row (cos (beta / 2)) (tan (- beta / 2)) l
          (repeat 0%R (Z.to_nat (2 * l + 1)))
          (repeat 0%R (Z.to_nat (2 * l + 1))) with
  | Ok p => p
  | Err _ => ([], [])
  end.

Lemma first_row_vectors_ok (beta : R) (l : Z) :
  1 <= l ->
  populate_first_row (cos (beta / 2)) (tan (- beta / 2)) l
    (repeat 0%R (Z.to_nat (2 * l + 1))) (repeat 0%R (Z.to_nat (2 * l + 1)))
  = Ok (first_row_vectors beta l) /\
  Zlen (fst (first_row_vectors beta l)) = 2 * l + 1 /\
  Zlen (snd (first_row_vectors beta l)) = 2 * l + 1.
Proof.
  intros Hl. unfold first_row_vectors.
  destruct (populate_first_row_ok (cos (beta / 2)) (tan (- beta / 2)) l
              (repeat 0%R (Z.to_nat (2 * l + 1)))
              (repeat 0%R (Z.to_nat (2 * l + 1))) Hl)
    as [lfr [sign [E [Ha Hb]]]]; try (rewrite Zlen_repeat; lia).
  rewrite E. cbn [fst snd]. repeat split; assumption.
Qed.

(** [cpi[k]], [cp[k]] and [cp2[k]] *)
Definition cpi_val (l k : Z) : R :=
  (2 / sqrt (IZR (l * (l + 1) - (l - (k + 1)) * (l - (k + 1) + 1))))%R.

Definition cpi_vec (l : Z) : list R :=
  tabulate (2 * l + 1) (fun k => if k <=? l then cpi_val l k else 0%R).

Definition cp_vec (l : Z) : list R :=
  tabulate (2 * l + 1) (fun k => if k <=? l then (1 / cpi_val l k)%R else 0%R).

Definition cp2_vec (l : Z) : list R :=
  tabulate (2 * l + 1) (fun k =>
    if (1 <=? k) && (k <=? l) then (cpi_val l k / cpi_val l (k - 1))%R
    else 0%R).

Lemma Zlen_cpi_vec (l : Z) : 1 <= l -> Zlen (cpi_vec l) = 2 * l + 1.
Proof. intros. apply Zlen_tabulate. lia. Qed.

Lemma Zlen_cp2_vec (l : Z) : 1 <= l -> Zlen (cp2_vec l) = 2 * l + 1.
Proof. intros. apply Zlen_tabulate. lia. Qed.

(** The loop over [m] of [turok_quarter] that fills [cpi] and [cp]. *)
Lemma cpi_cp_loop (l : Z) :
  1 <= l ->
  for_range 1 (l + 2) (fun m '(cpi, cp) =>
    let xm := l - m in
    cpi <- set1 cpi (m - 1)
             (2 / sqrt (IZR (l * (l + 1) - xm * (xm + 1))))%R ;;
    a <- get1 cpi (m - 1) ;;
    cp <- set1 cp (m - 1) (1 / a)%R ;;
    Ok (cpi, cp))
    (repeat 0%R (Z.to_nat (2 * l + 1)), repeat 0%R (Z.to_nat (2 * l + 1)))
  = Ok (cpi_vec l, cp_vec l).
Proof.
  intros Hl.
  match goal with |- for_range _ _ ?body ?s0 = _ =>
    destruct (for_range_inv
      (fun (m : Z) (st : list R * list R) =>
         Zlen (fst st) = 2 * l + 1 /\ Zlen (snd st) = 2 * l + 1 /\
         forall k, 0 <= k <= 2 * l ->
           nthZ 0%R (fst st) k = (if k <? m - 1 then cpi_val l k else 0%R) /\
           nthZ 0%R (snd st) k
           = (if k <? m - 1 then (1 / cpi_val l k)%R else 0%R))
      1 (l + 2) body s0) as [[a b] [E [Ha [Hb Hent]]]] end.
  - lia.
  - cbn [fst snd]. rewrite !Zlen_repeat.
    split; [lia |]. split; [lia |]. intros k Hk.
    rewrite !nthZ_repeat by lia.
    destruct (Z.ltb_spec k (1 - 1)); [lia |]. split; reflexivity.
  - intros m [a b] Hm (Ha & Hb & Hent). cbn [fst snd] in *. cbv zeta.
    rewrite set1_ok by lia. cbn [bind].
    rewrite (get1_ok 0%R) by (rewrite Zlen_setZ; lia). cbn [bind].
    rewrite set1_ok by lia. cbn [bind].
    eexists. split; [reflexivity |]. cbn [fst snd].
    rewrite !Zlen_setZ. split; [assumption |]. split; [assumption |].
    intros k Hk. rewrite nthZ_setZ_eq by lia.
    rewrite !nthZ_setZ by lia. destruct (Hent k Hk) as [H1 H2].
    rewrite H1, H2.
    assert (Hv : (2 / sqrt (IZR (l * (l + 1) - (l - m) * (l - m + 1))))%R
                 = cpi_val l (m - 1)).
    { unfold cpi_val. do 3 f_equal. lia. }
    rewrite Hv.
    destruct (Z.eqb_spec (m - 1) k); destruct (Z.ltb_spec k (m - 1));
      destruct (Z.ltb_spec k (m + 1 - 1)); try lia; subst;
      split; reflexivity.
  - rewrite E. f_equal. cbn [fst snd] in *. f_equal.
    + apply (list_ext_nthZ 0%R); [rewrite Zlen_cpi_vec; lia |].
      intros k Hk. destruct (Hent k ltac:(lia)) as [H1 _]. rewrite H1.
      unfold cpi_vec. rewrite nthZ_tabulate by lia.
      destruct (Z.ltb_spec k (l + 2 - 1)); destruct (Z.leb_spec k l);
        try lia; reflexivity.
    + apply (list_ext_nthZ 0%R);
        [unfold cp_vec; rewrite Zlen_tabulate; lia |].
      intros k Hk. destruct (Hent k ltac:(lia)) as [_ H2]. rewrite H2.
      unfold cp_vec. rewrite nthZ_tabulate by lia.
      destruct (Z.ltb_spec k (l + 2 - 1)); destruct (Z.leb_spec k l);
        try lia; reflexivity.
Qed.

(** The loop over [m] of [turok_quarter_spin] that fills [cpi]. *)
Lemma cpi_loop (l : Z) :
  1 <= l ->
  for_range 1 (l + 2) (fun m cpi =>
    let xm := l - m in
    set1 cpi (m - 1) (2 / sqrt (IZR (l * (l + 1) - xm * (xm + 1))))%R)
    (repeat 0%R (Z.to_nat (2 * l + 1)))
  = Ok (cpi_vec l).
Proof.
  intros Hl.
  match goal with |- for_range _ _ ?body ?s0 = _ =>
    destruct (for_range_inv
      (fun (m : Z) (a : list R) =>
         Zlen a = 2 * l + 1 /\
         forall k, 0 <= k <= 2 * l ->
           nthZ 0%R a k = (if k <? m - 1 then cpi_val l k else 0%R))
      1 (l + 2) body s0) as [a [E [Ha Hent]]] end.
  - lia.
  - rewrite Zlen_repeat. split; [lia |]. intros k Hk.
    rewrite nthZ_repeat by lia.
    destruct (Z.ltb_spec k (1 - 1)); [lia | reflexivity].
  - intros m a Hm (Ha & Hent). cbv zeta.
    rewrite set1_ok by lia.
    eexists. split; [reflexivity |].
    rewrite Zlen_setZ. split; [assumption |].
    intros k Hk. rewrite nthZ_setZ by lia. rewrite Hent by lia.
    assert (Hv : (2 / sqrt (IZR (l * (l + 1) - (l - m) * (l - m + 1))))%R
                 = cpi_val l (m - 1)).
    { unfold cpi_val. do 3 f_equal. lia. }
    rewrite Hv.
    destruct (Z.eqb_spec (m - 1) k); destruct (Z.ltb_spec k (m - 1));
      destruct (Z.ltb_spec k (m + 1 - 1)); try lia; subst; reflexivity.
  - rewrite E. f_equal.
    apply (list_ext_nthZ 0%R); [rewrite Zlen_cpi_vec; lia |].
    intros k Hk. rewrite Hent by lia.
    unfold cpi_vec. rewrite nthZ_tabulate by lia.
    destruct (Z.ltb_spec k (l + 2 - 1)); destruct (Z.leb_spec k l);
      try lia; reflexivity.
Qed.

(** The loops filling [cp2]: [cpi[m-1] * cp[m-2]] in [turok_quarter],
    [cpi[m-1] / cpi[m-2]] in [turok_quarter_spin]; the same vector. *)
Lemma cp2_loop_generic (l : Z) (body : Z -> list R -> result (list R)) :
  1 <= l ->
  (forall m a, 2 <= m < l + 2 -> Zlen a = 2 * l + 1 ->
     body m a = Ok (setZ a (m - 1) (cpi_val l (m - 1) / cpi_val l (m - 2))%R)) ->
  for_range 2 (l + 2) body (repeat 0%R (Z.to_nat (2 * l + 1)))
  = Ok (cp2_vec l).
Proof.
  intros Hl Hbody.
  destruct (for_range_inv
      (fun (m : Z) (a : list R) =>
         Zlen a = 2 * l + 1 /\
         forall k, 0 <= k <= 2 * l ->
           nthZ 0%R a k =
           (if (1 <=? k) && (k <? m - 1)
            then (cpi_val l k / cpi_val l (k - 1))%R else 0%R))
      2 (l + 2) body (repeat 0%R (Z.to_nat (2 * l + 1))))
    as [a [E [Ha Hent]]].
  - lia.
  - rewrite Zlen_repeat. split; [lia |]. intros k Hk.
    rewrite nthZ_repeat by lia.
    destruct (Z.leb_spec 1 k); destruct (Z.ltb_spec k (2 - 1));
      cbn [andb]; try lia; reflexivity.
  - intros m a Hm (Ha & Hent). rewrite Hbody by assumption.
    eexists. split; [reflexivity |].
    rewrite Zlen_setZ. split; [assumption |].
    intros k Hk. rewrite nthZ_setZ by lia. rewrite Hent by lia.
    destruct (Z.eqb_spec (m - 1) k); destruct (Z.leb_spec 1 k);
      destruct (Z.ltb_spec k (m - 1)); destruct (Z.ltb_spec k (m + 1 - 1));
      cbn [andb]; try lia; try reflexivity.
    subst k. do 2 f_equal. lia.
  - rewrite E. f_equal.
    apply (list_ext_nthZ 0%R); [rewrite Zlen_cp2_vec; lia |].
    intros k Hk. rewrite Hent by lia.
    unfold cp2_vec. rewrite nthZ_tabulate by lia.
    destruct (Z.leb_spec 1 k); destruct (Z.ltb_spec k (l + 2 - 1));
      destruct (Z.leb_spec k l); cbn [andb]; try lia; reflexivity.
Qed.

Lemma nthZ_cpi_vec (l k : Z) :
  0 <= k <= l -> nthZ 0%R (cpi_vec l) k = cpi_val l k.
Proof.
  intros H. unfold cpi_vec. rewrite nthZ_tabulate by lia.
  destruct (Z.leb_spec k l); [reflexivity | lia].
Qed.

Lemma nthZ_cp_vec (l k : Z) :
  0 <= k <= l -> nthZ 0%R (cp_vec l) k = (1 / cpi_val l k)%R.
Proof.
  intros H. unfold cp_vec. rewrite nthZ_tabulate by lia.
  destruct (Z.leb_spec k l); [reflexivity | lia].
Qed.

Lemma cp2_loop_full (l : Z) :
  1 <= l ->
  for_range 2 (l + 2) (fun m cp2 =>
    a <- get1 (cpi_vec l) (m - 1) ;;
    b <- get1 (cp_vec l) (m - 2) ;;
    set1 cp2 (m - 1) (a * b)%R) (repeat 0%R (Z.to_nat (2 * l + 1)))
  = Ok (cp2_vec l).
Proof.
  intros Hl. apply cp2_loop_generic; [assumption |].
  intros m a Hm Ha.
  rewrite (get1_ok 0%R) by (rewrite Zlen_cpi_vec; lia). cbn [bind].
  rewrite (get1_ok 0%R) by (unfold cp_vec; rewrite Zlen_tabulate; lia).
  cbn [bind]. rewrite set1_ok by lia.
  rewrite nthZ_cpi_vec, nthZ_cp_vec by lia.
  do 2 f_equal. unfold Rdiv. ring.
Qed.

Lemma cp2_loop_spin (l : Z) :
  1 <= l ->
  for_range 2 (l + 2) (fun m cp2 =>
    a <- get1 (cpi_vec l) (m - 1) ;;
    b <- get1 (cpi_vec l) (m - 2) ;;
    set1 cp2 (m - 1) (a / b)%R) (repeat 0%R (Z.to_nat (2 * l + 1)))
  = Ok (cp2_vec l).
Proof.
  intros Hl. apply cp2_loop_generic; [assumption |].
  intros m a Hm Ha.
  rewrite (get1_ok 0%R) by (rewrite Zlen_cpi_vec; lia). cbn [bind].
  rewrite (get1_ok 0%R) by (rewrite Zlen_cpi_vec; lia). cbn [bind].
  rewrite set1_ok by lia.
  rewrite !nthZ_cpi_vec by lia. reflexivity.
Qed.

(** * The quarter plane at a regular angle *)

(** The entry [(r, k)] of the quarter plane at the angle [beta]: the
    result of the recurrence along row [r + 1], renormalised. *)
Definition quarter_value (beta : R) (l r k : Z) : R :=
  let p := pure_row l (cos beta) (sin beta) (1 - cos beta)
             (cpi_vec l) (cp2_vec l) (r + 1) in
  (fst p k
   * (nthZ 0%R (snd (first_row_vectors beta l)) r
      * exp (nthZ 0%R (fst (first_row_vectors beta l)) r - snd p)))%R.

(** The matrix [dl] when the recurrence starts: zero but for the two
    entries [dl[0, 0]] and [dl[2l, 0]]. *)
Definition quarter_seed (l : Z) : list (list R) :=
  mset (mset (repeat (repeat 0%R (Z.to_nat (2 * l + 1)))
                (Z.to_nat (2 * l + 1))) 0 0 1%R) (2 * l) 0 1%R.

Lemma quarter_seed_shape (l : Z) :
  1 <= l -> shape2 (quarter_seed l) (2 * l + 1) (2 * l + 1).
Proof.
  intros Hl. unfold quarter_seed.
  apply shape2_mset; [|lia]. apply shape2_mset; [|lia].
  apply shape2_zeros; lia.
Qed.

Lemma quarter_seed_at (l r k : Z) :
  1 <= l -> 0 <= r <= 2 * l -> 0 <= k <= 2 * l ->
  mat_at 0%R (quarter_seed l) r k =
  if ((r =? 0) || (r =? 2 * l)) && (k =? 0) then 1%R else 0%R.
Proof.
  intros Hl Hr Hk. unfold quarter_seed.
  rewrite (mat_at_mset 0%R _ (2 * l + 1) (2 * l + 1));
    [| apply shape2_mset; [apply shape2_zeros; lia | lia] | lia ..].
  rewrite (mat_at_mset 0%R _ (2 * l + 1) (2 * l + 1));
    [| apply shape2_zeros; lia | lia ..].
  rewrite mat_at_zeros by lia.
  destruct (Z.eqb_spec (2 * l) r); destruct (Z.eqb_spec r (2 * l));
    destruct (Z.eqb_spec 0 r); destruct (Z.eqb_spec r 0);
    destruct (Z.eqb_spec 0 k); destruct (Z.eqb_spec k 0);
    cbn [andb orb]; try lia; reflexivity.
Qed.

(** The state after the recurrence over the rows [A..B-1] and the
    renormalisation of the rows [A'..B'-1], from the seed: every entry of
    the quarter plane in a row that went through both (or, for the first
    and the last row, was left at its seed and renormalised) holds
    [quarter_value]. *)
Lemma quarter_rows (beta : R) (l A B A' B' : Z)
    (st2 : rstate) (d1 d2 : list (list R)) :
  1 <= l ->
  1 <= A <= l + 2 -> l + 2 <= B <= 2 * l + 2 ->
  rows_done l (cos beta) (sin beta) (1 - cos beta) (cpi_vec l) (cp2_vec l)
    A B (quarter_seed l, repeat 0%R (Z.to_nat (2 * l + 1))) st2 ->
  shape2 d2 (2 * l + 1) (2 * l + 1) ->
  (forall r k, 0 <= r <= 2 * l -> 0 <= k <= 2 * l ->
     mat_at 0%R d1 r k =
     if (A' <=? r + 1) && (r + 1 <? l + 2) && (k <? r + 1)
     then (mat_at 0%R (fst st2) r k
           * renorm_factor (fst (first_row_vectors beta l))
               (snd (first_row_vectors beta l)) (snd st2) (r + 1))%R
     else mat_at 0%R (fst st2) r k) ->
  (forall r k, 0 <= r <= 2 * l -> 0 <= k <= 2 * l ->
     mat_at 0%R d2 r k =
     if (l + 2 <=? r + 1) && (r + 1 <? B') && (k <? 2 * l + 2 - (r + 1))
     then (mat_at 0%R d1 r k
           * renorm_factor (fst (first_row_vectors beta l))
               (snd (first_row_vectors beta l)) (snd st2) (r + 1))%R
     else mat_at 0%R d1 r k) ->
  forall r k, 0 <= k <= r -> r + k <= 2 * l ->
    A' <= r + 1 < B' ->
    A <= r + 1 < B \/ r = 0 \/ r = 2 * l ->
    mat_at 0%R d2 r k = quarter_value beta l r k.
Proof.
  intros Hl HA HB (Hsh & Hlr & Hrows & Hfr & Hfl) Hsh2 Hd1 Hd2
    r k Hk Hrk HA' Hin.
  cbn [fst snd] in *.
  (* the entry and the exponent before the renormalisation *)
  assert (Hpre : mat_at 0%R (fst st2) r k
                 = fst (pure_row l (cos beta) (sin beta) (1 - cos beta)
                          (cpi_vec l) (cp2_vec l) (r + 1)) k /\
                 nthZ 0%R (snd st2) r
                 = snd (pure_row l (cos beta) (sin beta) (1 - cos beta)
                          (cpi_vec l) (cp2_vec l) (r + 1))).
  { destruct (Z_le_dec A (r + 1)) as [Ha|Ha];
      [destruct (Z_lt_dec (r + 1) B) as [Hb|Hb] |].
    - destruct (Hrows (r + 1) ltac:(lia)) as [H1 H2].
      replace (r + 1 - 1) with r in * by lia. split; [|exact H2].
      apply H1. unfold row_hi. destruct (Z.leb_spec (r + 1) (l + 1)); lia.
    - assert (r = 2 * l) by lia. subst r. assert (k = 0) by lia. subst k.
      rewrite Hfr, Hfl by lia. rewrite quarter_seed_at by lia.
      rewrite nthZ_repeat by lia. unfold pure_row, row_hi.
      destruct (Z.leb_spec (2 * l + 1) (l + 1)); [lia |].
      replace (Z.to_nat (2 * l - (2 * l + 1) + 2 - 2)) with O by lia.
      cbn [iter_range fst snd]. unfold pure_start.
      rewrite Z.eqb_refl, orb_true_r. split; reflexivity.
    - assert (r = 0) by lia. subst r. assert (k = 0) by lia. subst k.
      rewrite Hfr, Hfl by lia. rewrite quarter_seed_at by lia.
      rewrite nthZ_repeat by lia. unfold pure_row, row_hi.
      destruct (Z.leb_spec (0 + 1) (l + 1)); [|lia].
      replace (Z.to_nat (0 + 1 - 2)) with O by lia.
      cbn [iter_range fst snd]. unfold pure_start.
      split; reflexivity. }
  destruct Hpre as [Hent Hexp].
  rewrite Hd2, Hd1 by lia. unfold quarter_value, renorm_factor.
  replace (r + 1 - 1) with r by lia. rewrite Hent, Hexp.
  destruct (Z.leb_spec (l + 2) (r + 1)); destruct (Z.ltb_spec (r + 1) B');
    destruct (Z.ltb_spec k (2 * l + 2 - (r + 1)));
    destruct (Z.leb_spec A' (r + 1)); destruct (Z.ltb_spec (r + 1) (l + 2));
    destruct (Z.ltb_spec k (r + 1)); cbn [andb]; try lia; reflexivity.
Qed.

(** [turok_quarter] at a regular angle, [0 < |beta| < pi], and a degree
    [l >= 1]: it returns, and the quarter plane of the result holds
    [quarter_value]. *)
Lemma turok_quarter_regular (beta : R) (l : Z) :
  1 <= l -> ~ (Rabs beta <= 0)%R -> ~ (Rabs beta >= PI)%R ->
  exists q, turok_quarter beta l = Ok (Arr2 q) /\
    shape2 q (2 * l + 1) (2 * l + 1) /\
    forall r k, 0 <= k <= r -> r + k <= 2 * l ->
      mat_at 0%R q r k = quarter_value beta l r k.
Proof.
  intros Hl H0 Hpi. unfold turok_quarter.
  destruct (Rle_dec (Rabs beta) 0); [contradiction |].
  destruct (Rge_dec (Rabs beta) PI); [contradiction |].
  destruct (Z.eqb_spec l 0); [lia |].
  rewrite np_zeros2_ok by lia. cbn [bind].
  rewrite !np_zeros_ok by lia. cbn [bind].
  destruct (first_row_vectors_ok beta l Hl) as [Ef [Hlf Hsg]].
  rewrite Ef. cbn [bind].
  rewrite (surjective_pairing (first_row_vectors beta l)).
  pose proof (cpi_cp_loop l Hl) as Ecpi. cbn [bind] in Ecpi.
  rewrite Ecpi. cbn [bind].
  pose proof (cp2_loop_full l Hl) as Ecp2. cbn [bind] in Ecp2.
  rewrite Ecp2. cbn [bind].
  unfold lp1. replace (1 - 1) with 0 by lia.
  replace (2 * l + 1 - 1) with (2 * l) by lia.
  rewrite (set2_ok _ (2 * l + 1) (2 * l + 1))
    by (try apply shape2_zeros; lia).
  cbn [bind].
  rewrite (set2_ok _ (2 * l + 1) (2 * l + 1))
    by (try (apply shape2_mset; [apply shape2_zeros |]); lia).
  cbn [bind]. fold (quarter_seed l).
  destruct (recurrence_rows_spec l (cos beta) (sin beta) (1 - cos beta)
              (cpi_vec l) (cp2_vec l) Hl (Zlen_cpi_vec l Hl)
              (Zlen_cp2_vec l Hl) 2 (2 * l + 1)
              (quarter_seed l, repeat 0%R (Z.to_nat (2 * l + 1))))
    as [st1 [[dl2 lr2] [E1 [E2 Hdone]]]]; cbn [fst snd];
    try lia; try (apply quarter_seed_shape; assumption);
    try (rewrite Zlen_repeat; lia);
    try (intros; apply nthZ_repeat; lia).
  rewrite E1. cbn [bind]. rewrite E2. cbn [bind].
  pose proof Hdone as (Hsh2 & Hlr2 & _). cbn [fst snd] in Hsh2, Hlr2.
  destruct (renormalise_rows_spec l (fst (first_row_vectors beta l))
              (snd (first_row_vectors beta l)) lr2 Hlf Hsg Hlr2
              (fun i => i) 1 (l + 2) dl2) as [d1 [Ed1 [Hshd1 Hd1]]];
    try lia; try assumption; try (intros; cbv beta; lia).
  cbv beta in Ed1, Hd1. rewrite Ed1. cbn [bind].
  destruct (renormalise_rows_spec l (fst (first_row_vectors beta l))
              (snd (first_row_vectors beta l)) lr2 Hlf Hsg Hlr2
              (fun i => 2 * l + 2 - i) (l + 2) (2 * l + 2) d1)
    as [d2 [Ed2 [Hshd2 Hd2]]]; try lia; try assumption;
    try (intros; cbv beta; lia).
  cbv beta in Ed2, Hd2. rewrite Ed2. cbn [bind].
  exists d2. split; [reflexivity |]. split; [exact Hshd2 |].
  intros r k Hk Hrk.
  apply (quarter_rows beta l 2 (2 * l + 1) 1 (2 * l + 2) (dl2, lr2) d1 d2);
    try assumption; try lia.
Qed.

(** [fill_entry] reads its argument in the quarter plane only. *)
Lemma fill_entry_ext (l : Z) (f g : Z -> Z -> R) (r c : Z) :
  0 <= r <= 2 * l -> 0 <= c <= 2 * l ->
  (forall r' c', 0 <= c' <= r' -> r' + c' <= 2 * l -> f r' c' = g r' c') ->
  fill_entry l f r c = fill_entry l g r c.
Proof.
  intros Hr Hc H. fill_cases; rewrite H by lia; reflexivity.
Qed.

(** Row [l - spin] of the completed matrix reads the quarter plane in the
    rows [l - |spin| .. l + |spin|] only. *)
Lemma fill_entry_row_ext (l spin : Z) (f g : Z -> Z -> R) (c : Z) :
  Z.abs spin <= l -> 0 <= c <= 2 * l ->
  (forall r' c', 0 <= c' <= r' -> r' + c' <= 2 * l ->
     l - Z.abs spin <= r' <= l + Z.abs spin -> f r' c' = g r' c') ->
  fill_entry l f (l - spin) c = fill_entry l g (l - spin) c.
Proof.
  intros Hs Hc H. fill_cases; rewrite H by lia; reflexivity.
Qed.

(** [turok_quarter_spin] at a regular angle and a degree [l >= 1], for
    [|spin| <= l]: it returns row [l - spin] of the matrix completed from
    [quarter_value]. *)
Lemma turok_quarter_spin_regular (beta : R) (l spin : Z) :
  1 <= l -> Z.abs spin <= l ->
  ~ (Rabs beta <= 0)%R -> ~ (Rabs beta >= PI)%R ->
  exists v, turok_quarter_spin beta l spin false = Ok (Arr1 v) /\
    Zlen v = 2 * l + 1 /\
    forall k, 0 <= k <= 2 * l ->
      nthZ 0%R v k = fill_entry l (quarter_value beta l) (l - spin) k.
Proof.
  intros Hl Hspin H0 Hpi. unfold turok_quarter_spin.
  destruct (Rle_dec (Rabs beta) 0); [contradiction |].
  destruct (Rge_dec (Rabs beta) PI); [contradiction |].
  destruct (Z.eqb_spec l 0); [lia |].
  rewrite np_zeros2_ok by lia. cbn [bind].
  rewrite !np_zeros_ok by lia. cbn [bind].
  destruct (first_row_vectors_ok beta l Hl) as [Ef [Hlf Hsg]].
  rewrite Ef. cbn [bind].
  rewrite (surjective_pairing (first_row_vectors beta l)).
  pose proof (cpi_loop l Hl) as Ecpi. cbn [bind] in Ecpi.
  rewrite Ecpi. cbn [bind].
  pose proof (cp2_loop_spin l Hl) as Ecp2. cbn [bind] in Ecp2.
  rewrite Ecp2. cbn [bind].
  unfold lp1. replace (1 - 1) with 0 by lia.
  replace (2 * l + 1 - 1) with (2 * l) by lia.
  rewrite (set2_ok _ (2 * l + 1) (2 * l + 1))
    by (try apply shape2_zeros; lia).
  cbn [bind].
  rewrite (set2_ok _ (2 * l + 1) (2 * l + 1))
    by (try (apply shape2_mset; [apply shape2_zeros |]); lia).
  cbn [bind]. fold (quarter_seed l).
  destruct (recurrence_rows_spec l (cos beta) (sin beta) (1 - cos beta)
              (cpi_vec l) (cp2_vec l) Hl (Zlen_cpi_vec l Hl)
              (Zlen_cp2_vec l Hl) (l - Z.abs spin + 1) (l + Z.abs spin + 2)
              (quarter_seed l, repeat 0%R (Z.to_nat (2 * l + 1))))
    as [st1 [[dl2 lr2] [E1 [E2 Hdone]]]]; cbn [fst snd];
    try lia; try (apply quarter_seed_shape; assumption);
    try (rewrite Zlen_repeat; lia);
    try (intros; apply nthZ_repeat; lia).
  rewrite E1. cbn [bind]. rewrite E2. cbn [bind].
  pose proof Hdone as (Hsh2 & Hlr2 & _). cbn [fst snd] in Hsh2, Hlr2.
  destruct (renormalise_rows_spec l (fst (first_row_vectors beta l))
              (snd (first_row_vectors beta l)) lr2 Hlf Hsg Hlr2
              (fun i => i) (l - Z.abs spin + 1) (l + 2) dl2)
    as [d1 [Ed1 [Hshd1 Hd1]]];
    try lia; try assumption; try (intros; cbv beta; lia).
  cbv beta in Ed1, Hd1. rewrite Ed1. cbn [bind].
  destruct (renormalise_rows_spec l (fst (first_row_vectors beta l))
              (snd (first_row_vectors beta l)) lr2 Hlf Hsg Hlr2
              (fun i => 2 * l + 2 - i) (l + 2) (l + Z.abs spin + 2) d1)
    as [d2 [Ed2 [Hshd2 Hd2]]]; try lia; try assumption;
    try (intros; cbv beta; lia).
  cbv beta in Ed2, Hd2. rewrite Ed2. cbn [bind].
  destruct (turok_fill_spec l d2 ltac:(lia) Hshd2) as [m [Em [Hshm Hm]]].
  rewrite Em. cbn [bind nd_row].
  replace (l - spin + 1 - 1) with (l - spin) by lia.
  rewrite (get1_ok [] m) by (destruct Hshm; lia). cbn [bind].
  eexists. split; [reflexivity |].
  split; [apply (shape2_row m (2 * l + 1) (2 * l + 1)); [assumption | lia] |].
  intros k Hk. change (nthZ 0%R (nthZ [] m (l - spin)) k)
    with (mat_at 0%R m (l - spin) k).
  rewrite Hm by lia.
  apply fill_entry_row_ext; try assumption.
  intros r' c' Hc' Hrc' Hr'.
  apply (quarter_rows beta l (l - Z.abs spin + 1) (l + Z.abs spin + 2)
           (l - Z.abs spin + 1) (l + Z.abs spin + 2) (dl2, lr2) d1 d2);
    try assumption; try lia.
Qed.

(** * [compute_spin_slice] against [compute_full] *)

(** What [turok_quarter_spin] returns is row [l - spin] of the matrix
    completed from what [turok_quarter] returns (both return the integer
    [1] at [l = 0] and a regular angle). *)
Lemma spin_vs_quarter (beta : R) (l spin : Z) :
  0 <= l -> Z.abs spin <= l ->
  (exists q v,
     turok_quarter beta l = Ok (Arr2 q) /\
     shape2 q (2 * l + 1) (2 * l + 1) /\
     turok_quarter_spin beta l spin false = Ok (Arr1 v) /\
     Zlen v = 2 * l + 1 /\
     forall k, 0 <= k <= 2 * l ->
       nthZ 0%R v k = fill_entry l (mat_at 0%R q) (l - spin) k) \/
  (l = 0 /\ turok_quarter beta 0 = Ok (Scalar 1%R) /\
   turok_quarter_spin beta 0 spin false = Ok (Scalar 1%R)).
Proof.
  intros Hl Hs.
  destruct (Rle_dec (Rabs beta) 0) as [H0|H0].
  { (* beta = 0 *)
    left. eexists. exists (setZ (repeat 0%R (Z.to_nat (2 * l + 1))) (l - spin) 1%R).
    split; [apply turok_quarter_zero; assumption |].
    split; [apply shape2_tabulate; lia |].
    split.
    { unfold turok_quarter_spin.
      destruct (Rle_dec (Rabs beta) 0); [|contradiction].
      rewrite np_zeros_ok by lia. cbn [bind].
      rewrite set1_ok by (rewrite Zlen_repeat; lia). reflexivity. }
    split; [rewrite Zlen_setZ, Zlen_repeat; lia |].
    intros k Hk.
    rewrite (fill_entry_identity l)
      by (try (intros; apply mat_at_tabulate); lia).
    rewrite nthZ_setZ by (rewrite ?Zlen_repeat; lia).
    rewrite nthZ_repeat by lia. reflexivity. }
  destruct (Rge_dec (Rabs beta) PI) as [Hpi|Hpi].
  { (* |beta| >= pi *)
    left.
    destruct (turok_quarter_reflection beta l Hl H0 Hpi) as [q [Eq [Hsh Hq]]].
    exists q.
    exists (setZ (repeat 0%R (Z.to_nat (2 * l + 1))) (l + spin)
              (m1pow (l + spin))).
    split; [exact Eq |]. split; [exact Hsh |]. split.
    { unfold turok_quarter_spin.
      destruct (Rle_dec (Rabs beta) 0); [contradiction |].
      destruct (Rge_dec (Rabs beta) PI); [|contradiction].
      rewrite np_zeros_ok by lia. cbn [bind].
      rewrite set1_ok by (rewrite Zlen_repeat; lia). reflexivity. }
    split; [rewrite Zlen_setZ, Zlen_repeat; lia |].
    intros k Hk.
    rewrite (fill_entry_antidiag l) by (assumption || lia).
    rewrite nthZ_setZ by (rewrite ?Zlen_repeat; lia).
    rewrite nthZ_repeat by lia. unfold antidiag.
    destruct (Z.eqb_spec (l + spin) k); destruct (Z.eqb_spec (l - spin + k) (2 * l));
      try lia; [|reflexivity].
    f_equal. lia. }
  destruct (Z.eq_dec l 0) as [->|Hne].
  { (* l = 0 at a regular angle *)
    right. split; [reflexivity |].
    unfold turok_quarter, turok_quarter_spin.
    destruct (Rle_dec (Rabs beta) 0); [contradiction |].
    destruct (Rge_dec (Rabs beta) PI); [contradiction |].
    split; reflexivity. }
  (* the recursion *)
  left.
  destruct (turok_quarter_regular beta l ltac:(lia) H0 Hpi) as [q [Eq [Hsh Hq]]].
  destruct (turok_quarter_spin_regular beta l spin ltac:(lia) Hs H0 Hpi)
    as [v [Ev [Hlen Hv]]].
  exists q, v. split; [exact Eq |]. split; [exact Hsh |].
  split; [exact Ev |]. split; [exact Hlen |].
  intros k Hk. rewrite Hv by assumption.
  apply fill_entry_ext; try lia.
  intros r' c' H1 H2. symmetry. apply Hq; assumption.
Qed.

Lemma nthZ_zeros (n k : Z) :
  0 <= k < n -> nthZ 0%R (repeat 0%R (Z.to_nat n)) k = 0%R.
Proof. intros H. apply nthZ_repeat. lia. Qed.

(** [compute_spin_slice] without acceleration, for [|spin| <= el < L]:
    it returns, [compute_full] returns, and the vector is the row of the
    matrix at the first index [-spin], that is at position [L - 1 - spin].
    At a regular angle and [el >= 1] this is an equality of real numbers:
    the two functions compute [cp2] by different expressions. *)
Lemma compute_spin_slice_row (beta : R) (el L spin : Z) :
  Z.abs spin <= el -> el < L ->
  exists v M,
    compute_spin_slice beta el L spin false = Ok v /\
    compute_full beta el L = Ok M /\
    v = nthZ [] M (L - 1 - spin).
Proof.
  intros Hs HL.
  assert (Hel : 0 <= el) by lia.
  unfold compute_spin_slice.
  replace (el <? spin) with false by (symmetry; apply Z.ltb_ge; lia).
  replace (L <=? el) with false by (symmetry; apply Z.leb_gt; lia).
  rewrite np_zeros_ok by lia. cbn [bind].
  destruct (spin_vs_quarter beta el spin Hel Hs)
    as [[q [v0 [Eq [Hsh [Ev [Hlen Hv]]]]]] | [-> [Eq Ev]]].
  - destruct (compute_full_matrix beta el L q ltac:(lia) Eq Hsh)
      as [M [EM [HshM HM]]].
    rewrite Ev. cbn [bind]. unfold assign_slice.
    rewrite Zlen_repeat, Z2Nat.id by lia.
    rewrite slice_bounds_in by lia.
    replace (Zlen v0 =? L + el - (L - 1 - el)) with true
      by (symmetry; apply Z.eqb_eq; lia).
    eexists. exists M. split; [reflexivity |]. split; [exact EM |].
    apply (list_ext_nthZ 0%R).
    + rewrite Zlen_tabulate by lia.
      rewrite (shape2_row M (2 * L - 1) (2 * L - 1)); [reflexivity | assumption | lia].
    + intros k Hk. rewrite Zlen_tabulate in Hk by lia.
      rewrite nthZ_tabulate by lia.
      change (nthZ 0%R (nthZ [] M (L - 1 - spin)) k)
        with (mat_at 0%R M (L - 1 - spin) k).
      rewrite HM by lia. unfold centred.
      rewrite nthZ_zeros by lia.
      destruct (Z.leb_spec (L - 1 - el) (L - 1 - spin));
        destruct (Z.ltb_spec (L - 1 - spin) (L + el));
        destruct (Z.leb_spec (L - 1 - el) k);
        destruct (Z.ltb_spec k (L + el)); cbn [andb]; try lia;
        try reflexivity.
      rewrite Hv by lia. f_equal. lia.
  - assert (spin = 0) by lia. subst spin.
    destruct (compute_full_scalar beta L ltac:(lia) Eq) as [M [EM [HshM HM]]].
    rewrite Ev. cbn [bind]. unfold assign_slice.
    rewrite Zlen_repeat, Z2Nat.id by lia.
    rewrite slice_bounds_in by lia.
    eexists. exists M. split; [reflexivity |]. split; [exact EM |].
    apply (list_ext_nthZ 0%R).
    + rewrite Zlen_tabulate by lia.
      rewrite (shape2_row M (2 * L - 1) (2 * L - 1)); [reflexivity | assumption | lia].
    + intros k Hk. rewrite Zlen_tabulate in Hk by lia.
      rewrite nthZ_tabulate by lia.
      change (nthZ 0%R (nthZ [] M (L - 1 - 0)) k)
        with (mat_at 0%R M (L - 1 - 0) k).
      rewrite HM by lia. unfold centred.
      rewrite nthZ_zeros by lia.
      destruct (Z.leb_spec (L - 1 - 0) (L - 1 - 0));
        destruct (Z.ltb_spec (L - 1 - 0) (L + 0));
        destruct (Z.leb_spec (L - 1 - 0) k);
        destruct (Z.ltb_spec k (L + 0)); cbn [andb]; try lia;
        reflexivity.
Qed.







(** * The slice as a column read backwards *)

(** The completed matrix is symmetric about its anti-diagonal. *)
Lemma fill_entry_antitranspose (l : Z) (f : Z -> Z -> R) (r c : Z) :
  0 <= r <= 2 * l -> 0 <= c <= 2 * l ->
  fill_entry l f r c = fill_entry l f (2 * l - c) (2 * l - r).
Proof.
  intros Hr Hc. fill_cases;
    repeat match goal with
    | |- (_ * _)%R = (_ * _)%R => f_equal
    | |- f _ _ = f _ _ => f_equal; lia
    | |- m1pow _ = m1pow _ =>
        first [ apply (m1pow_eq _ _ (c - 2 * l)); lia
              | apply (m1pow_eq _ _ (r + c - 2 * l)); lia
              | apply (m1pow_eq _ _ r); lia ]
    end.
Qed.

(** What [compute_full] returns is symmetric about its anti-diagonal. *)
Lemma compute_full_antitranspose (beta : R) (el L : Z) (M : list (list R)) :
  0 <= el < L -> compute_full beta el L = Ok M ->
  forall r c, 0 <= r < 2 * L - 1 -> 0 <= c < 2 * L - 1 ->
    mat_at 0%R M r c = mat_at 0%R M (2 * (L - 1) - c) (2 * (L - 1) - r).
Proof.
  intros Hel EM r c Hr Hc.
  destruct (spin_vs_quarter beta el 0 ltac:(lia) ltac:(lia))
    as [[q [v0 [Eq [Hsh _]]]] | [-> [Eq _]]].
  - destruct (compute_full_matrix beta el L q Hel Eq Hsh) as [M' [EM' [_ HM]]].
    rewrite EM in EM'. injection EM' as <-.
    rewrite !HM by lia. unfold centred.
    destruct (Z.leb_spec (L - 1 - el) r); destruct (Z.ltb_spec r (L + el));
      destruct (Z.leb_spec (L - 1 - el) c); destruct (Z.ltb_spec c (L + el));
      destruct (Z.leb_spec (L - 1 - el) (2 * (L - 1) - c));
      destruct (Z.ltb_spec (2 * (L - 1) - c) (L + el));
      destruct (Z.leb_spec (L - 1 - el) (2 * (L - 1) - r));
      destruct (Z.ltb_spec (2 * (L - 1) - r) (L + el));
      cbn [andb]; try lia; try reflexivity.
    rewrite fill_entry_antitranspose by lia. f_equal; lia.
  - destruct (compute_full_scalar beta L ltac:(lia) Eq) as [M' [EM' [_ HM]]].
    rewrite EM in EM'. injection EM' as <-.
    rewrite !HM by lia. unfold centred.
    destruct (Z.leb_spec (L - 1 - 0) r); destruct (Z.ltb_spec r (L + 0));
      destruct (Z.leb_spec (L - 1 - 0) c); destruct (Z.ltb_spec c (L + 0));
      destruct (Z.leb_spec (L - 1 - 0) (2 * (L - 1) - c));
      destruct (Z.ltb_spec (2 * (L - 1) - c) (L + 0));
      destruct (Z.leb_spec (L - 1 - 0) (2 * (L - 1) - r));
      destruct (Z.ltb_spec (2 * (L - 1) - r) (L + 0));
      cbn [andb]; try lia; reflexivity.
Qed.

(** Hence the slice is the column of the full matrix at the second index
    [spin] read backwards: entry [k] of the slice is the entry of the
    column in row [2 (L - 1) - k] (as real numbers, see
    [compute_spin_slice_row]). *)
Lemma spin_slice_is_reversed_column (beta : R) (el L spin : Z) :
  Z.abs spin <= el -> el < L ->
  exists v M,
    compute_spin_slice beta el L spin false = Ok v /\
    compute_full beta el L = Ok M /\
    forall k, 0 <= k < 2 * L - 1 ->
      nthZ 0%R v k = mat_at 0%R M (2 * (L - 1) - k) (L - 1 + spin).
Proof.
  intros Hs HL.
  destruct (compute_spin_slice_row beta el L spin Hs HL) as [v [M [Ev [EM Hv]]]].
  exists v, M. split; [exact Ev |]. split; [exact EM |].
  intros k Hk. rewrite Hv.
  change (nthZ 0%R (nthZ [] M (L - 1 - spin)) k)
    with (mat_at 0%R M (L - 1 - spin) k).
  rewrite (compute_full_antitranspose beta el L M) by (assumption || lia).
  f_equal. lia.
Qed.

(** * The boundaries of [compute_spin_slice] *)

(** The boundaries that the tests of [compute_spin_slice] enforce: with
    [|spin| < L] the call with [el == |spin|] returns; with [spin >= 0]
    the call with [el == |spin| - 1] fails with [SpinExceedsDegree]; the
    call with [el == L] fails with [InvalidBandlimit] when [spin <= L]
    (and with [SpinExceedsDegree] when [spin > L], the test of the degree
    against the spin coming first). *)
Lemma spin_slice_boundaries_enforced (beta : R) (L spin : Z) :
  (Z.abs spin < L ->
     is_ok (compute_spin_slice beta (Z.abs spin) L spin false)) /\
  (0 <= spin ->
     compute_spin_slice beta (Z.abs spin - 1) L spin false
       = Err SpinExceedsDegree) /\
  (spin <= L ->
     compute_spin_slice beta L L spin false = Err InvalidBandlimit) /\
  (L < spin ->
     compute_spin_slice beta L L spin false = Err SpinExceedsDegree).
Proof.
  split; [|split; [|split]].
  - intros H.
    destruct (compute_spin_slice_row beta (Z.abs spin) L spin)
      as [v [M [Ev _]]]; try lia.
    exists v. exact Ev.
  - intros H. unfold compute_spin_slice.
    replace (Z.abs spin - 1 <? spin) with true
      by (symmetry; apply Z.ltb_lt; lia).
    reflexivity.
  - intros H. unfold compute_spin_slice.
    replace (L <? spin) with false by (symmetry; apply Z.ltb_ge; lia).
    rewrite Z.leb_refl. reflexivity.
  - intros H. unfold compute_spin_slice.
    replace (L <? spin) with true by (symmetry; apply Z.ltb_lt; lia).
    reflexivity.
Qed.

(** C5. The test of the degree against the spin is [el < spin], not
    [el < |spin|]: with the spin [-1] the degree [|spin| - 1 = 0] is not
    rejected.  For every [L >= 2] (so that [|spin| < L]) the call
    [compute_spin_slice beta 0 L (-1)] never fails with
    [SpinExceedsDegree]: at [beta = 0] it fails inside numpy with an
    [IndexError] ([dl[l - spin] = 1] on a vector of length [1]); at
    [|beta| >= pi] the subscript [l + spin = -1] wraps around and the call
    returns a vector with [-1] at the centre; at a regular angle it
    returns a vector with [1] at the centre. *)
Theorem spin_slice_negative_spin_accepted (beta : R) (L : Z) :
  2 <= L ->
  compute_spin_slice beta 0 L (-1) false <> Err SpinExceedsDegree /\
  ((Rabs beta <= 0)%R ->
     compute_spin_slice beta 0 L (-1) false = Err IndexError) /\
  (~ (Rabs beta <= 0)%R -> (Rabs beta >= PI)%R ->
     exists v, compute_spin_slice beta 0 L (-1) false = Ok v /\
       Zlen v = 2 * L - 1 /\ nthZ 0%R v (L - 1) = (-1)%R) /\
  (~ (Rabs beta <= 0)%R -> ~ (Rabs beta >= PI)%R ->
     exists v, compute_spin_slice beta 0 L (-1) false = Ok v /\
       Zlen v = 2 * L - 1 /\ nthZ 0%R v (L - 1) = 1%R).
Proof.
  intros HL.
  assert (E0 : compute_spin_slice beta 0 L (-1) false =
            (v <- turok_quarter_spin beta 0 (-1) false ;;
             assign_slice (repeat 0%R (Z.to_nat (2 * L - 1)))
               (L - 1 - 0) (L + 0) v)).
  { unfold compute_spin_slice.
    replace (0 <? -1) with false by reflexivity.
    replace (L <=? 0) with false by (symmetry; apply Z.leb_gt; lia).
    rewrite np_zeros_ok by lia. reflexivity. }
  assert (Hcentre : (L - 1 - 0 <=? L - 1) && (L - 1 <? L + 0) = true)
    by (apply andb_true_intro; split; [apply Z.leb_le | apply Z.ltb_lt]; lia).
  assert (H1 : (Rabs beta <= 0)%R ->
            compute_spin_slice beta 0 L (-1) false = Err IndexError).
  { intros H0. rewrite E0. unfold turok_quarter_spin.
    destruct (Rle_dec (Rabs beta) 0); [|contradiction]. reflexivity. }
  assert (H2 : ~ (Rabs beta <= 0)%R -> (Rabs beta >= PI)%R ->
            exists v, compute_spin_slice beta 0 L (-1) false = Ok v /\
              Zlen v = 2 * L - 1 /\ nthZ 0%R v (L - 1) = (-1)%R).
  { intros H0 Hpi. rewrite E0. unfold turok_quarter_spin.
    destruct (Rle_dec (Rabs beta) 0); [contradiction |].
    destruct (Rge_dec (Rabs beta) PI); [|contradiction].
    change (np_zeros 0%R (2 * 0 + 1)) with (Ok [0%R]). cbn [bind].
    change (set1 [0%R] (0 + -1) (m1pow (0 + -1))) with (Ok [(-1)%R]).
    cbn [bind]. unfold assign_slice.
    rewrite Zlen_repeat, Z2Nat.id by lia.
    rewrite slice_bounds_in by lia.
    replace (Zlen [(-1)%R] =? L + 0 - (L - 1 - 0)) with true
      by (symmetry; apply Z.eqb_eq; unfold Zlen; cbn [List.length]; lia).
    eexists. split; [reflexivity |]. split; [apply Zlen_tabulate; lia |].
    rewrite nthZ_tabulate by lia. rewrite Hcentre.
    replace (L - 1 - (L - 1 - 0)) with 0 by lia. reflexivity. }
  assert (H3 : ~ (Rabs beta <= 0)%R -> ~ (Rabs beta >= PI)%R ->
            exists v, compute_spin_slice beta 0 L (-1) false = Ok v /\
              Zlen v = 2 * L - 1 /\ nthZ 0%R v (L - 1) = 1%R).
  { intros H0 Hpi. rewrite E0. unfold turok_quarter_spin.
    destruct (Rle_dec (Rabs beta) 0); [contradiction |].
    destruct (Rge_dec (Rabs beta) PI); [contradiction |].
    cbn [Z.eqb bind]. unfold assign_slice.
    rewrite Zlen_repeat, Z2Nat.id by lia.
    rewrite slice_bounds_in by lia.
    eexists. split; [reflexivity |]. split; [apply Zlen_tabulate; lia |].
    rewrite nthZ_tabulate by lia. rewrite Hcentre. reflexivity. }
  split; [|split; [exact H1 | split; [exact H2 | exact H3]]].
  destruct (Rle_dec (Rabs beta) 0) as [H0|H0].
  - rewrite (H1 H0). discriminate.
  - destruct (Rge_dec (Rabs beta) PI) as [Hpi|Hpi].
    + destruct (H2 H0 Hpi) as [v [-> _]]. discriminate.
    + destruct (H3 H0 Hpi) as [v [-> _]]. discriminate.
Qed.

Lemma spin_slice_negative_spin_accepted_witness :
  compute_spin_slice 1%R 0 2 (-1) false <> Err SpinExceedsDegree /\
  exists v, compute_spin_slice 1%R 0 2 (-1) false = Ok v /\
    Zlen v = 2 * 2 - 1 /\ nthZ 0%R v (2 - 1) = 1%R.
Proof.
  destruct (spin_slice_negative_spin_accepted 1%R 2) as [H1 [_ [_ H4]]];
    [lia |].
  split; [exact H1 |]. apply H4.
  - rewrite Rabs_pos_eq by lra. lra.
  - rewrite Rabs_pos_eq by lra. pose proof PI2_3_2 as H. unfold PI2 in H. lra.
Defined.

(** * Further properties of [s2fft/wigner/turok.py] *)

Lemma m1pow_same_parity (a b : Z) :
  Z.even (a + b) = true -> m1pow a = m1pow b.
Proof.
  unfold m1pow. rewrite Z.even_add.
  destruct (Z.even a), (Z.even b); simpl; intros H;
    try reflexivity; discriminate.
Qed.

Lemma m1pow_cancel (x : R) (a b : Z) :
  Z.even (a + b) = true -> x = (x * m1pow a * m1pow b)%R.
Proof.
  intros H. rewrite (m1pow_same_parity a b H), Rmult_assoc, m1pow_sq. lra.
Qed.

(** Close a goal [Z.even n = true] for [n] twice a sum of the indices. *)
Ltac even_sum r c l :=
  apply Z.even_spec;
  first [ exists r; lia | exists c; lia | exists (r + c); lia
        | exists (c - l); lia | exists (r + c - l); lia
        | exists (r + c - 2 * l); lia | exists (2 * l - r - c); lia
        | exists 0; lia ].

(** The completed matrix and its transpose differ by the sign
    [(-1) ** (r + c)]. *)
Lemma fill_entry_transpose (l : Z) (f : Z -> Z -> R) (r c : Z) :
  0 <= r <= 2 * l -> 0 <= c <= 2 * l ->
  fill_entry l f r c = (fill_entry l f c r * m1pow (r + c))%R.
Proof.
  intros Hr Hc. fill_cases.
  all: try (assert (c = r) by lia; subst c).
  all: first
    [ reflexivity
    | apply m1pow_cancel; even_sum r c l
    | f_equal; apply m1pow_same_parity; even_sum r c l
    | rewrite <- (Rmult_1_r (f _ _)) at 1; f_equal; symmetry;
      apply (m1pow_eq _ 0 r); lia ].
Qed.

(** What [compute_full] returns for [0 <= el < L], at every angle: the
    matrix completed by [fill_entry] from some quarter plane [g], centred
    in the zero matrix. *)
Lemma compute_full_entries (beta : R) (el L : Z) :
  0 <= el < L ->
  exists M g, compute_full beta el L = Ok M /\
    shape2 M (2 * L - 1) (2 * L - 1) /\
    forall r c, 0 <= r < 2 * L - 1 -> 0 <= c < 2 * L - 1 ->
      mat_at 0%R M r c = centred L el (fill_entry el g) r c.
Proof.
  intros Hel.
  destruct (spin_vs_quarter beta el 0 ltac:(lia) ltac:(lia))
    as [[q [v0 [Eq [Hsh _]]]] | [-> [Eq _]]].
  - destruct (compute_full_matrix beta el L q Hel Eq Hsh) as [M [EM [HshM HM]]].
    exists M, (mat_at 0%R q). auto.
  - destruct (compute_full_scalar beta L ltac:(lia) Eq) as [M [EM [HshM HM]]].
    exists M, (fun _ _ => 1%R). split; [exact EM |]. split; [exact HshM |].
    intros r c Hr Hc. rewrite HM by assumption. unfold centred.
    destruct ((L - 1 - 0 <=? r) && (r <? L + 0) && (L - 1 - 0 <=? c)
              && (c <? L + 0)) eqn:E; [|reflexivity].
    apply andb_prop in E. destruct E as [E E4].
    apply andb_prop in E. destruct E as [E E3].
    apply andb_prop in E. destruct E as [E1 E2].
    apply Z.leb_le in E1, E3. apply Z.ltb_lt in E2, E4.
    replace (r - (L - 1 - 0)) with 0 by lia.
    replace (c - (L - 1 - 0)) with 0 by lia. reflexivity.
Qed.

Lemma centred_inside (L el : Z) (f : Z -> Z -> R) (r c : Z) :
  L - 1 - el <= r < L + el -> L - 1 - el <= c < L + el ->
  centred L el f r c = f (r - (L - 1 - el)) (c - (L - 1 - el)).
Proof.
  intros Hr Hc. unfold centred.
  destruct (Z.leb_spec (L - 1 - el) r); destruct (Z.ltb_spec r (L + el));
    destruct (Z.leb_spec (L - 1 - el) c); destruct (Z.ltb_spec c (L + el));
    cbn [andb]; try lia; reflexivity.
Qed.

Lemma centred_outside (L el : Z) (f : Z -> Z -> R) (r c : Z) :
  ~ (L - 1 - el <= r < L + el /\ L - 1 - el <= c < L + el) ->
  centred L el f r c = 0%R.
Proof.
  intros H. unfold centred.
  destruct (Z.leb_spec (L - 1 - el) r); destruct (Z.ltb_spec r (L + el));
    destruct (Z.leb_spec (L - 1 - el) c); destruct (Z.ltb_spec c (L + el));
    cbn [andb]; try lia; reflexivity.
Qed.

Lemma turok_quarter_negative (beta : R) (l : Z) :
  l < 0 -> turok_quarter beta l = Err NumpyValueError.
Proof.
  intros Hl. unfold turok_quarter, np_identity, np_zeros2.
  replace (2 * l + 1 <? 0) with true by (symmetry; apply Z.ltb_lt; lia).
  destruct (Rle_dec (Rabs beta) 0); [reflexivity |].
  destruct (Rge_dec (Rabs beta) PI); [reflexivity |].
  destruct (Z.eqb_spec l 0); [lia | reflexivity].
Qed.

(** X1. [compute_full] returns exactly for [0 <= el < L], at every angle,
    and then a matrix of side [2L - 1]; it fails with the bandlimit error
    for [el >= L], and inside numpy (negative dimension) for a negative
    degree. *)
Theorem compute_full_domain (beta : R) (el L : Z) :
  (0 <= el < L ->
     exists M, compute_full beta el L = Ok M /\
       shape2 M (2 * L - 1) (2 * L - 1)) /\
  (L <= el -> compute_full beta el L = Err InvalidBandlimit) /\
  (el < 0 -> el < L -> compute_full beta el L = Err NumpyValueError).
Proof.
  split; [|split].
  - intros Hel.
    destruct (compute_full_entries beta el L Hel) as [M [g [EM [Hsh _]]]].
    exists M. auto.
  - intros H. unfold compute_full.
    replace (L <=? el) with true by (symmetry; apply Z.leb_le; lia).
    reflexivity.
  - intros H0 HL. unfold compute_full.
    replace (L <=? el) with false by (symmetry; apply Z.leb_gt; lia).
    rewrite turok_quarter_negative by assumption.
    destruct (np_zeros2 0%R (2 * L - 1) (2 * L - 1)) as [dl|e] eqn:E.
    + reflexivity.
    + unfold np_zeros2 in E.
      destruct ((2 * L - 1 <? 0) || (2 * L - 1 <? 0)); [|discriminate].
      injection E as <-. reflexivity.
Qed.

Lemma compute_full_domain_witness :
  (exists M, compute_full 1%R 2 3 = Ok M /\ shape2 M 5 5) /\
  compute_full 1%R 3 3 = Err InvalidBandlimit /\
  compute_full 1%R (-1) 3 = Err NumpyValueError.
Proof.
  destruct (compute_full_domain 1%R 2 3) as [H1 _].
  destruct (compute_full_domain 1%R 3 3) as [_ [H2 _]].
  destruct (compute_full_domain 1%R (-1) 3) as [_ [_ H3]].
  split; [apply H1; lia |]. split; [apply H2; lia | apply H3; lia].
Defined.

(** X2. The matrix returned by [compute_full] is zero outside the central
    block of side [2el + 1], at every angle. *)
Theorem compute_full_support (beta : R) (el L : Z) :
  0 <= el < L ->
  exists M, compute_full beta el L = Ok M /\
    forall r c, 0 <= r < 2 * L - 1 -> 0 <= c < 2 * L - 1 ->
      ~ (L - 1 - el <= r <= L - 1 + el /\ L - 1 - el <= c <= L - 1 + el) ->
      mat_at 0%R M r c = 0%R.
Proof.
  intros Hel.
  destruct (compute_full_entries beta el L Hel) as [M [g [EM [_ HM]]]].
  exists M. split; [exact EM |]. intros r c Hr Hc Hout.
  rewrite HM by assumption. apply centred_outside. lia.
Qed.

Lemma compute_full_support_witness :
  exists M, compute_full 1%R 1 3 = Ok M /\
    forall r c, 0 <= r < 5 -> 0 <= c < 5 ->
      ~ (1 <= r <= 3 /\ 1 <= c <= 3) -> mat_at 0%R M r c = 0%R.
Proof. apply (compute_full_support 1%R 1 3). lia. Defined.


(** The transposition symmetry of a matrix returned by [compute_full]. *)
Lemma compute_full_transposed (beta : R) (el L : Z) (M : list (list R)) :
  0 <= el < L -> compute_full beta el L = Ok M ->
  forall r c, 0 <= r < 2 * L - 1 -> 0 <= c < 2 * L - 1 ->
    mat_at 0%R M r c = (mat_at 0%R M c r * m1pow (r + c))%R.
Proof.
  intros Hel EM r c Hr Hc.
  destruct (compute_full_entries beta el L Hel) as [M' [g [EM' [_ HM]]]].
  rewrite EM in EM'. injection EM' as <-.
  rewrite !HM by assumption.
  destruct (Z_le_dec (L - 1 - el) r) as [H1|H1];
    [destruct (Z_lt_dec r (L + el)) as [H2|H2];
       [destruct (Z_le_dec (L - 1 - el) c) as [H3|H3];
          [destruct (Z_lt_dec c (L + el)) as [H4|H4] |] |] |];
    try (rewrite !centred_outside by lia; lra).
  rewrite !centred_inside by lia.
  rewrite fill_entry_transpose by lia. f_equal.
  apply m1pow_same_parity. apply Z.even_spec.
  exists (r + c - (L - 1 - el)). lia.
Qed.

(** X3. The matrix returned by [compute_full] and its transpose differ by
    the sign [(-1) ** (r + c)], at every angle:
    [d[m, m'] = (-1) ** (m - m') * d[m', m]]. *)
Theorem compute_full_transpose_symmetry (beta : R) (el L : Z) :
  0 <= el < L ->
  exists M, compute_full beta el L = Ok M /\
    forall r c, 0 <= r < 2 * L - 1 -> 0 <= c < 2 * L - 1 ->
      mat_at 0%R M r c = (mat_at 0%R M c r * m1pow (r + c))%R.
Proof.
  intros Hel.
  destruct (compute_full_entries beta el L Hel) as [M [g [EM _]]].
  exists M. split; [exact EM |].
  apply (compute_full_transposed beta el L M Hel EM).
Qed.

Lemma compute_full_transpose_symmetry_witness :
  exists M, compute_full 1%R 2 3 = Ok M /\
    forall r c, 0 <= r < 5 -> 0 <= c < 5 ->
      mat_at 0%R M r c = (mat_at 0%R M c r * m1pow (r + c))%R.
Proof. apply (compute_full_transpose_symmetry 1%R 2 3). lia. Defined.

(** X4. The matrix returned by [compute_full] is symmetric about its
    anti-diagonal, [d[m, m'] = d[-m', -m]], and so symmetric up to the
    sign about its centre, [d[m, m'] = (-1) ** (m - m') * d[-m, -m']], at
    every angle. *)
Theorem compute_full_centre_symmetry (beta : R) (el L : Z) :
  0 <= el < L ->
  exists M, compute_full beta el L = Ok M /\
    forall r c, 0 <= r < 2 * L - 1 -> 0 <= c < 2 * L - 1 ->
      mat_at 0%R M r c = mat_at 0%R M (2 * (L - 1) - c) (2 * (L - 1) - r) /\
      mat_at 0%R M r c =
      (mat_at 0%R M (2 * (L - 1) - r) (2 * (L - 1) - c) * m1pow (r + c))%R.
Proof.
  intros Hel.
  destruct (compute_full_entries beta el L Hel) as [M [g [EM _]]].
  exists M. split; [exact EM |].
  intros r c Hr Hc. split.
  - apply (compute_full_antitranspose beta el L M Hel EM); assumption.
  - rewrite (compute_full_transposed beta el L M Hel EM r c) by assumption.
    f_equal.
    apply (compute_full_antitranspose beta el L M Hel EM); assumption.
Qed.

Lemma compute_full_centre_symmetry_witness :
  exists M, compute_full 1%R 2 3 = Ok M /\
    forall r c, 0 <= r < 5 -> 0 <= c < 5 ->
      mat_at 0%R M r c = mat_at 0%R M (4 - c) (4 - r) /\
      mat_at 0%R M r c = (mat_at 0%R M (4 - r) (4 - c) * m1pow (r + c))%R.
Proof. apply (compute_full_centre_symmetry 1%R 2 3). lia. Defined.

(** ** [compute_spin_slice] *)



(** X6. For [|spin| <= el < L] and every angle, the vector returned by
    [compute_spin_slice] is zero outside the positions
    [L - 1 - el .. L - 1 + el]. *)
Theorem compute_spin_slice_support (beta : R) (el L spin : Z) :
  Z.abs spin <= el -> el < L ->
  exists v, compute_spin_slice beta el L spin false = Ok v /\
    forall k, 0 <= k < 2 * L - 1 ->
      ~ (L - 1 - el <= k <= L - 1 + el) -> nthZ 0%R v k = 0%R.
Proof.
  intros Hs HL.
  destruct (compute_spin_slice_row beta el L spin Hs HL) as [v [M [Ev [EM Hv]]]].
  destruct (compute_full_entries beta el L ltac:(lia)) as [M' [g [EM' [Hsh HM]]]].
  rewrite EM in EM'. injection EM' as <-.
  exists v. split; [exact Ev |].
  intros k Hk Hout. rewrite Hv.
  change (nthZ 0%R (nthZ [] M (L - 1 - spin)) k)
    with (mat_at 0%R M (L - 1 - spin) k).
  rewrite HM by lia. apply centred_outside. lia.
Qed.

Lemma compute_spin_slice_support_witness :
  exists v, compute_spin_slice 1%R 1 3 (-1) false = Ok v /\
    forall k, 0 <= k < 5 -> ~ (1 <= k <= 3) -> nthZ 0%R v k = 0%R.
Proof. apply (compute_spin_slice_support 1%R 1 3 (-1)); lia. Defined.

(** ** [turok_fill] *)

Lemma fill_entry_quarter (l : Z) (f : Z -> Z -> R) (r c : Z) :
  0 <= c <= r -> r + c <= 2 * l -> fill_entry l f r c = f r c.
Proof. intros H1 H2. fill_cases. reflexivity. Qed.

(** X7. [turok_fill] on a matrix of side [2l + 1] returns, does not change
    the quarter plane it reads ([c <= r], [r + c <= 2l]), and is
    idempotent. *)
Theorem turok_fill_idempotent (l : Z) (m0 : list (list R)) :
  0 <= l -> shape2 m0 (2 * l + 1) (2 * l + 1) ->
  exists m, turok_fill (Arr2 m0) l = Ok (Arr2 m) /\
    shape2 m (2 * l + 1) (2 * l + 1) /\
    (forall r c, 0 <= c <= r -> r + c <= 2 * l ->
       mat_at 0%R m r c = mat_at 0%R m0 r c) /\
    turok_fill (Arr2 m) l = Ok (Arr2 m).
Proof.
  intros Hl Hs.
  destruct (turok_fill_spec l m0 Hl Hs) as [m [Em [Hsm Hm]]].
  exists m. split; [exact Em |]. split; [exact Hsm |]. split.
  - intros r c H1 H2. rewrite Hm by lia. apply fill_entry_quarter; assumption.
  - destruct (turok_fill_spec l m Hl Hsm) as [m' [Em' [Hsm' Hm']]].
    rewrite Em'. do 2 f_equal.
    apply (mat_ext 0%R m' m (2 * l + 1) (2 * l + 1)); try assumption.
    intros r c Hr Hc. rewrite Hm', Hm by lia.
    apply fill_entry_ext; try lia.
    intros r' c' H1 H2. rewrite Hm by lia. apply fill_entry_quarter; assumption.
Qed.

Lemma turok_fill_idempotent_witness :
  exists m, turok_fill (Arr2 [[1; 7; 7]; [2; 3; 7]; [4; 7; 7]]%R) 1
            = Ok (Arr2 m) /\
    shape2 m 3 3 /\
    (forall r c, 0 <= c <= r -> r + c <= 2 ->
       mat_at 0%R m r c
       = mat_at 0%R [[1; 7; 7]; [2; 3; 7]; [4; 7; 7]]%R r c) /\
    turok_fill (Arr2 m) 1 = Ok (Arr2 m).
Proof.
  apply (turok_fill_idempotent 1 [[1; 7; 7]; [2; 3; 7]; [4; 7; 7]]%R).
  - lia.
  - split; [reflexivity | repeat constructor].
Defined.

(** X8. [turok_fill] reads the quarter plane only: two matrices of side
    [2l + 1] with the same quarter plane are completed to the same
    matrix. *)
Theorem turok_fill_quarter_only (l : Z) (m1 m2 : list (list R)) :
  0 <= l ->
  shape2 m1 (2 * l + 1) (2 * l + 1) -> shape2 m2 (2 * l + 1) (2 * l + 1) ->
  (forall r c, 0 <= c <= r -> r + c <= 2 * l ->
     mat_at 0%R m1 r c = mat_at 0%R m2 r c) ->
  turok_fill (Arr2 m1) l = turok_fill (Arr2 m2) l /\
  is_ok (turok_fill (Arr2 m1) l).
Proof.
  intros Hl Hs1 Hs2 Hq.
  destruct (turok_fill_spec l m1 Hl Hs1) as [a [Ea [Hsa Ha]]].
  destruct (turok_fill_spec l m2 Hl Hs2) as [b [Eb [Hsb Hb]]].
  rewrite Ea, Eb. split; [|eexists; reflexivity].
  do 2 f_equal.
  apply (mat_ext 0%R a b (2 * l + 1) (2 * l + 1)); try assumption.
  intros r c Hr Hc. rewrite Ha, Hb by lia.
  apply fill_entry_ext; try lia. assumption.
Qed.

Lemma turok_fill_quarter_only_witness :
  turok_fill (Arr2 [[1; 7; 7]; [2; 3; 7]; [4; 7; 7]]%R) 1
  = turok_fill (Arr2 [[1; 0; 9]; [2; 3; 8]; [4; 5; 6]]%R) 1 /\
  is_ok (turok_fill (Arr2 [[1; 7; 7]; [2; 3; 7]; [4; 7; 7]]%R) 1).
Proof.
  apply (turok_fill_quarter_only 1).
  - lia.
  - split; [reflexivity | repeat constructor].
  - split; [reflexivity | repeat constructor].
  - intros r c H1 H2.
    assert ((r = 0 /\ c = 0) \/ (r = 1 /\ c = 0) \/ (r = 1 /\ c = 1)
            \/ (r = 2 /\ c = 0)) as [[-> ->]|[[-> ->]|[[-> ->]|[-> ->]]]]
      by lia; reflexivity.
Defined.

(** ** The singular angles *)

Lemma Rabs_beyond_PI (beta : R) :
  (Rabs beta >= PI)%R -> ~ (Rabs beta <= 0)%R.
Proof. pose proof PI_RGT_0. lra. Qed.

(** X9. The angle is clamped at [pi]: for [|beta| >= pi] (so at [- pi],
    [2 pi], ...) [compute_full] and [compute_spin_slice] do what they do at
    [beta = pi], for all other arguments. *)
Theorem beyond_pi_is_pi (beta : R) (el L spin : Z) (accelerate : bool) :
  (Rabs beta >= PI)%R ->
  compute_full beta el L = compute_full PI el L /\
  compute_spin_slice beta el L spin accelerate
  = compute_spin_slice PI el L spin accelerate.
Proof.
  intros H. pose proof (Rabs_beyond_PI beta H) as H0.
  destruct Rabs_PI_regular as [Hp0 Hp1].
  unfold compute_full, compute_spin_slice, turok_quarter, turok_quarter_spin.
  destruct (Rle_dec (Rabs beta) 0); [contradiction |].
  destruct (Rge_dec (Rabs beta) PI); [|contradiction].
  destruct (Rle_dec (Rabs PI) 0); [contradiction |].
  destruct (Rge_dec (Rabs PI) PI); [|contradiction].
  split; reflexivity.
Qed.

Lemma beyond_pi_is_pi_witness :
  compute_full (2 * PI) 2 3 = compute_full PI 2 3 /\
  compute_spin_slice (2 * PI) 2 3 1 false = compute_spin_slice PI 2 3 1 false.
Proof.
  apply (beyond_pi_is_pi (2 * PI) 2 3 1 false).
  pose proof PI_RGT_0. rewrite Rabs_pos_eq by lra. lra.
Defined.

(** [turok_quarter] at degree [0]: the entry is [1] at every angle. *)
Lemma compute_full_degree_zero (beta : R) (L : Z) :
  1 <= L ->
  exists M, compute_full beta 0 L = Ok M /\
    shape2 M (2 * L - 1) (2 * L - 1) /\
    forall r c, 0 <= r < 2 * L - 1 -> 0 <= c < 2 * L - 1 ->
      mat_at 0%R M r c = if (r =? L - 1) && (c =? L - 1) then 1%R else 0%R.
Proof.
  intros HL.
  assert (Hc : forall g : Z -> Z -> R, g 0 0 = 1%R ->
            forall r c, centred L 0 (fill_entry 0 g) r c
              = if (r =? L - 1) && (c =? L - 1) then 1%R else 0%R).
  { intros g Hg r c.
    destruct (Z.eqb_spec r (L - 1)) as [->|Hr];
      [destruct (Z.eqb_spec c (L - 1)) as [->|Hc'] |]; cbn [andb].
    - rewrite centred_inside by lia.
      replace (L - 1 - (L - 1 - 0)) with 0 by lia.
      rewrite fill_entry_quarter by lia. exact Hg.
    - apply centred_outside. lia.
    - apply centred_outside. lia. }
  destruct (Rle_dec (Rabs beta) 0) as [H0|H0];
    [|destruct (Rge_dec (Rabs beta) PI) as [Hpi|Hpi]].
  - pose proof (turok_quarter_zero beta 0 ltac:(lia) H0) as Eq.
    destruct (compute_full_matrix beta 0 L _ ltac:(lia) Eq)
      as [M [EM [Hsh HM]]]; [apply shape2_tabulate; lia |].
    exists M. split; [exact EM |]. split; [exact Hsh |].
    intros r c Hr Hc'. rewrite HM by assumption. apply Hc.
    rewrite mat_at_tabulate by lia. reflexivity.
  - destruct (turok_quarter_reflection beta 0 ltac:(lia) H0 Hpi)
      as [q [Eq [Hshq Hq]]].
    destruct (compute_full_matrix beta 0 L q ltac:(lia) Eq Hshq)
      as [M [EM [Hsh HM]]].
    exists M. split; [exact EM |]. split; [exact Hsh |].
    intros r c Hr Hc'. rewrite HM by assumption. apply Hc.
    rewrite Hq by lia. reflexivity.
  - assert (Eq : turok_quarter beta 0 = Ok (Scalar 1%R)).
    { unfold turok_quarter.
      destruct (Rle_dec (Rabs beta) 0); [contradiction |].
      destruct (Rge_dec (Rabs beta) PI); [contradiction |]. reflexivity. }
    destruct (compute_full_scalar beta L ltac:(lia) Eq) as [M [EM [Hsh HM]]].
    exists M. split; [exact EM |]. split; [exact Hsh |].
    intros r c Hr Hc'. rewrite HM by assumption.
    rewrite <- (Hc (fun _ _ => 1%R) eq_refl r c). unfold centred.
    destruct ((L - 1 - 0 <=? r) && (r <? L + 0) && (L - 1 - 0 <=? c)
              && (c <? L + 0)) eqn:E; [|reflexivity].
    apply andb_prop in E. destruct E as [E E4].
    apply andb_prop in E. destruct E as [E E3].
    apply andb_prop in E. destruct E as [E1 E2].
    apply Z.leb_le in E1, E3. apply Z.ltb_lt in E2, E4.
    rewrite fill_entry_quarter by lia. reflexivity.
Qed.

(** X10. At degree [0] the angle plays no part: for every [beta] and every
    [L >= 1], [compute_full] returns the matrix with [1] at the centre and
    zero elsewhere, and [compute_spin_slice] at spin [0] its middle row. *)
Theorem degree_zero_is_one (beta : R) (L : Z) :
  1 <= L ->
  exists M v,
    compute_full beta 0 L = Ok M /\
    compute_spin_slice beta 0 L 0 false = Ok v /\
    shape2 M (2 * L - 1) (2 * L - 1) /\ Zlen v = 2 * L - 1 /\
    forall r c, 0 <= r < 2 * L - 1 -> 0 <= c < 2 * L - 1 ->
      mat_at 0%R M r c = (if (r =? L - 1) && (c =? L - 1) then 1%R else 0%R) /\
      nthZ 0%R v c = (if c =? L - 1 then 1%R else 0%R).
Proof.
  intros HL.
  destruct (compute_full_degree_zero beta L HL) as [M [EM [Hsh HM]]].
  destruct (compute_spin_slice_row beta 0 L 0 ltac:(lia) ltac:(lia))
    as [v [M' [Ev [EM' Hv]]]].
  rewrite EM in EM'. injection EM' as <-.
  exists M, v. split; [exact EM |]. split; [exact Ev |]. split; [exact Hsh |].
  split.
  - rewrite Hv. apply (shape2_row M (2 * L - 1) (2 * L - 1)); [assumption | lia].
  - intros r c Hr Hc'. split; [apply HM; assumption |].
    rewrite Hv.
    change (nthZ 0%R (nthZ [] M (L - 1 - 0)) c)
      with (mat_at 0%R M (L - 1 - 0) c).
    rewrite HM by lia.
    replace (L - 1 - 0 =? L - 1) with true by (symmetry; apply Z.eqb_eq; lia).
    reflexivity.
Qed.

Lemma degree_zero_is_one_witness :
  exists M v,
    compute_full 1%R 0 2 = Ok M /\
    compute_spin_slice 1%R 0 2 0 false = Ok v /\
    shape2 M 3 3 /\ Zlen v = 3 /\
    forall r c, 0 <= r < 3 -> 0 <= c < 3 ->
      mat_at 0%R M r c = (if (r =? 1) && (c =? 1) then 1%R else 0%R) /\
      nthZ 0%R v c = (if c =? 1 then 1%R else 0%R).
Proof. apply (degree_zero_is_one 1%R 2). lia. Defined.

(** ** Spins below [- el] *)

Lemma py_index_out (n i : Z) :
  0 <= n -> i < - n \/ n <= i -> py_index n i = Err IndexError.
Proof.
  intros Hn H. unfold py_index.
  destruct (Z.leb_spec 0 i); destruct (Z.ltb_spec i n);
    destruct (Z.leb_spec (- n) i); destruct (Z.ltb_spec i 0);
    cbn [andb]; try lia; reflexivity.
Qed.

Lemma py_index_wrap (n i : Z) :
  - n <= i < 0 -> py_index n i = Ok (i + n).
Proof.
  intros H. unfold py_index.
  destruct (Z.leb_spec 0 i); destruct (Z.ltb_spec i n);
    destruct (Z.leb_spec (- n) i); destruct (Z.ltb_spec i 0);
    cbn [andb]; try lia; reflexivity.
Qed.

(** X11. The test [el < spin] of [compute_spin_slice] lets a spin below
    [- el] through.  At [beta = 0] the call then fails inside numpy, with
    an [IndexError]; at [|beta| >= pi] it fails the same way for
    [spin < - (3 el + 1)], and for [- (3 el + 1) <= spin < - el] the
    negative subscript [el + spin] wraps around and a vector is returned,
    with [(-1) ** (el + spin)] at position [L + 2 el + spin]. *)
Theorem spin_below_minus_degree (beta : R) (el L spin : Z) :
  0 <= el < L -> spin < - el ->
  ((Rabs beta <= 0)%R ->
     compute_spin_slice beta el L spin false = Err IndexError) /\
  ((Rabs beta >= PI)%R -> spin < - (3 * el + 1) ->
     compute_spin_slice beta el L spin false = Err IndexError) /\
  ((Rabs beta >= PI)%R -> - (3 * el + 1) <= spin ->
     exists v, compute_spin_slice beta el L spin false = Ok v /\
       Zlen v = 2 * L - 1 /\
       nthZ 0%R v (L + 2 * el + spin) = m1pow (el + spin)).
Proof.
  intros Hel Hs.
  assert (E0 : compute_spin_slice beta el L spin false =
            (dl <- np_zeros 0%R (2 * L - 1) ;;
             v <- turok_quarter_spin beta el spin false ;;
             assign_slice dl (L - 1 - el) (L + el) v)).
  { unfold compute_spin_slice.
    replace (el <? spin) with false by (symmetry; apply Z.ltb_ge; lia).
    replace (L <=? el) with false by (symmetry; apply Z.leb_gt; lia).
    reflexivity. }
  rewrite E0. rewrite np_zeros_ok by lia. cbn [bind].
  split; [|split].
  - intros H0. unfold turok_quarter_spin.
    destruct (Rle_dec (Rabs beta) 0); [|contradiction].
    rewrite np_zeros_ok by lia. cbn [bind]. unfold set1.
    rewrite Zlen_repeat, Z2Nat.id by lia.
    rewrite py_index_out by lia. reflexivity.
  - intros Hpi Hlow. pose proof (Rabs_beyond_PI beta Hpi) as H0.
    unfold turok_quarter_spin.
    destruct (Rle_dec (Rabs beta) 0); [contradiction |].
    destruct (Rge_dec (Rabs beta) PI); [|contradiction].
    rewrite np_zeros_ok by lia. cbn [bind]. unfold set1.
    rewrite Zlen_repeat, Z2Nat.id by lia.
    rewrite py_index_out by lia. reflexivity.
  - intros Hpi Hlow. pose proof (Rabs_beyond_PI beta Hpi) as H0.
    unfold turok_quarter_spin.
    destruct (Rle_dec (Rabs beta) 0); [contradiction |].
    destruct (Rge_dec (Rabs beta) PI); [|contradiction].
    rewrite np_zeros_ok by lia. cbn [bind]. unfold set1.
    rewrite Zlen_repeat, Z2Nat.id by lia.
    rewrite py_index_wrap by lia. cbn [bind].
    unfold assign_slice.
    rewrite Zlen_repeat, Z2Nat.id by lia.
    rewrite slice_bounds_in by lia.
    rewrite Zlen_setZ, Zlen_repeat, Z2Nat.id by lia.
    replace (2 * el + 1 =? L + el - (L - 1 - el)) with true
      by (symmetry; apply Z.eqb_eq; lia).
    eexists. split; [reflexivity |]. split.
    + apply Zlen_tabulate. lia.
    + rewrite nthZ_tabulate by lia.
      replace ((L - 1 - el <=? L + 2 * el + spin)
               && (L + 2 * el + spin <? L + el)) with true
        by (symmetry; apply andb_true_intro;
            split; [apply Z.leb_le | apply Z.ltb_lt]; lia).
      replace (L + 2 * el + spin - (L - 1 - el))
        with (el + spin + (2 * el + 1)) by lia.
      apply nthZ_setZ_eq. rewrite Zlen_repeat. lia.
Qed.

Lemma spin_below_minus_degree_witness :
  compute_spin_slice 0%R 1 2 (-2) false = Err IndexError /\
  compute_spin_slice PI 1 2 (-5) false = Err IndexError /\
  exists v, compute_spin_slice PI 1 2 (-2) false = Ok v /\
    Zlen v = 3 /\ nthZ 0%R v 2 = m1pow (-1).
Proof.
  destruct (spin_below_minus_degree 0%R 1 2 (-2)) as [H1 _]; try lia.
  destruct (spin_below_minus_degree PI 1 2 (-5)) as [_ [H2 _]]; try lia.
  destruct (spin_below_minus_degree PI 1 2 (-2)) as [_ [_ H3]]; try lia.
  split; [apply H1, Rabs_0_singular |].
  split; [apply H2; [apply Rabs_PI_regular | lia] |].
  apply H3; [apply Rabs_PI_regular | lia].
Defined.

(** * Further properties of [s2fft/utils.py] *)

(** ** Loops that stop on an exception *)

Lemma for_count_app {S : Type} (body : Z -> S -> result S) (n k : nat)
    (a : Z) (s : S) :
  for_count (n + k) a body s
  = (t <- for_count n a body s ;; for_count k (a + Z.of_nat n) body t).
Proof.
  revert a s. induction n as [|n IH]; intros a s.
  - cbn [for_count bind Nat.add]. rewrite Z.add_0_r. reflexivity.
  - cbn [for_count Nat.add]. destruct (body a s) as [t|e]; [|reflexivity].
    cbn [bind]. rewrite IH.
    replace (a + 1 + Z.of_nat n) with (a + Z.of_nat (Datatypes.S n)) by lia.
    reflexivity.
Qed.

Lemma for_range_split {S : Type} (body : Z -> S -> result S) (a k b : Z) (s : S) :
  a <= k <= b ->
  for_range a b body s = (t <- for_range a k body s ;; for_range k b body t).
Proof.
  intros H. unfold for_range.
  replace (Z.to_nat (b - a)) with (Z.to_nat (k - a) + Z.to_nat (b - k))%nat
    by lia.
  rewrite for_count_app. replace (a + Z.of_nat (Z.to_nat (k - a))) with k by lia.
  reflexivity.
Qed.

Lemma for_range_first {S : Type} (body : Z -> S -> result S) (a b : Z) (s : S) :
  a < b ->
  for_range a b body s = (t <- body a s ;; for_range (a + 1) b body t).
Proof.
  intros H. unfold for_range.
  replace (Z.to_nat (b - a)) with (Datatypes.S (Z.to_nat (b - (a + 1)))) by lia.
  reflexivity.
Qed.

(** The loop raises what its body raises at [k], when it gets there. *)
Lemma for_range_raises {S : Type} (body : Z -> S -> result S) (a k b : Z)
    (s t : S) (e : error) :
  a <= k < b ->
  for_range a k body s = Ok t -> body k t = Err e ->
  for_range a b body s = Err e.
Proof.
  intros H Hpre Hk.
  rewrite (for_range_split body a k b) by lia. rewrite Hpre. cbn [bind].
  rewrite for_range_first by lia. rewrite Hk. reflexivity.
Qed.

(** ** The table layout *)

Definition in_triangle (L r k : Z) : bool :=
  (- r <=? k - (L - 1)) && (k - (L - 1) <=? r).

Lemma in_triangle_spec (L r k : Z) :
  in_triangle L r k = true <-> - r <= k - (L - 1) <= r.
Proof.
  unfold in_triangle. rewrite andb_true_iff, !Z.leb_le. tauto.
Qed.

(** X12. [flm_2d_to_1d] reads the triangle [-el <= m <= el] of the table
    only: converting any [L] x [(2L-1)] table to the flat vector and back
    returns the table with every entry outside the triangle set to zero. *)
Theorem flm_2d_round_trip_projects (L : Z) (y : list (list C)) :
  1 <= L -> shape2 y L (2 * L - 1) ->
  exists x y', flm_2d_to_1d y L = Ok x /\ flm_1d_to_2d x L = Ok y' /\
    Zlen x = L * L /\ shape2 y' L (2 * L - 1) /\
    forall r k, 0 <= r < L -> 0 <= k < 2 * L - 1 ->
      mat_at C0 y' r k = if in_triangle L r k then mat_at C0 y r k else C0.
Proof.
  intros HL Hsh.
  destruct (flm_2d_to_1d_spec y L HL Hsh) as [x [Hx [Hl Hent]]].
  destruct (flm_1d_to_2d_spec x L HL Hl) as [y' [Hy' [Hsh' Hent']]].
  exists x, y'. split; [exact Hx |]. split; [exact Hy' |].
  split; [exact Hl |]. split; [exact Hsh' |].
  intros r k Hr Hk. destruct (Hent' r k Hr Hk) as [Hin Hout].
  destruct (in_triangle L r k) eqn:E.
  - apply in_triangle_spec in E. rewrite Hin by assumption.
    rewrite Hent by lia. f_equal. lia.
  - apply Hout. intros H. apply in_triangle_spec in H. congruence.
Qed.

Lemma flm_2d_round_trip_projects_witness :
  exists x y',
    flm_2d_to_1d [[(9, 9); (5, 0); (9, 9)]; [(6, 1); (7, 0); (8, 2)]]%R 2 = Ok x /\
    flm_1d_to_2d x 2 = Ok y' /\
    Zlen x = 2 * 2 /\ shape2 y' 2 (2 * 2 - 1) /\
    forall r k, 0 <= r < 2 -> 0 <= k < 2 * 2 - 1 ->
      mat_at C0 y' r k =
      if in_triangle 2 r k
      then mat_at C0 [[(9, 9); (5, 0); (9, 9)]; [(6, 1); (7, 0); (8, 2)]]%R r k
      else C0.
Proof.
  apply (flm_2d_round_trip_projects 2).
  - lia.
  - split; [reflexivity | repeat constructor].
Defined.

(** ** The length of the flat vector *)

Lemma nthZ_firstn {A : Type} (d : A) (v : list A) (n i : Z) :
  0 <= i < n -> nthZ d (firstn (Z.to_nat n) v) i = nthZ d v i.
Proof.
  intros H. unfold nthZ. revert v.
  assert (Hlt : (Z.to_nat i < Z.to_nat n)%nat) by lia.
  revert Hlt. generalize (Z.to_nat i) (Z.to_nat n). clear.
  intros k n. revert k. induction n as [|n IH]; intros k Hk v; [lia |].
  destruct v as [|h t]; [destruct k; reflexivity |].
  destruct k as [|k]; [reflexivity |]. cbn [firstn nth]. apply IH. lia.
Qed.

Lemma Zlen_firstn {A : Type} (v : list A) (n : Z) :
  0 <= n <= Zlen v -> Zlen (firstn (Z.to_nat n) v) = n.
Proof. unfold Zlen. intros H. rewrite length_firstn. lia. Qed.

Lemma get1_firstn {A : Type} (v : list A) (n i : Z) :
  0 <= i < n -> n <= Zlen v -> get1 (firstn (Z.to_nat n) v) i = get1 v i.
Proof.
  intros Hi Hn. destruct v as [|d v'].
  - unfold Zlen in Hn. cbn in Hn. lia.
  - rewrite (get1_ok d) by (rewrite Zlen_firstn; lia).
    rewrite (get1_ok d) by lia. rewrite nthZ_firstn by lia. reflexivity.
Qed.

Lemma get1_out {A : Type} (v : list A) (i : Z) :
  Zlen v <= i -> get1 v i = Err IndexError.
Proof.
  intros H. unfold get1. rewrite py_index_out; [reflexivity | |].
  - apply Zlen_nonneg.
  - right. assumption.
Qed.

(** [flm_1d_to_2d] on a vector longer than [L * L] reads its first
    [L * L] entries only. *)
Lemma flm_1d_to_2d_long (x : list C) (L : Z) :
  L * L <= Zlen x ->
  flm_1d_to_2d x L = flm_1d_to_2d (firstn (Z.to_nat (L * L)) x) L.
Proof.
  intros Hx. unfold flm_1d_to_2d.
  apply bind_ext. intros z. apply for_range_ext. intros el t Hel.
  apply for_range_ext. intros m u Hm.
  pose proof (elm2ind_range L el m ltac:(lia) ltac:(lia)) as Hidx.
  rewrite get1_firstn by lia. reflexivity.
Qed.

(** [flm_1d_to_2d] on a vector shorter than [L * L] raises when it reads
    past the end. *)
Lemma flm_1d_to_2d_short (x : list C) (L : Z) :
  1 <= L -> Zlen x < L * L -> flm_1d_to_2d x L = Err IndexError.
Proof.
  intros HL Hx. pose proof (Zlen_nonneg x) as Hx0.
  set (n := Zlen x) in *.
  set (e0 := Z.sqrt n).
  assert (He0 : 0 <= e0 < L /\ e0 * e0 <= n < (e0 + 1) * (e0 + 1)).
  { pose proof (Z.sqrt_spec n Hx0) as Hs. unfold Z.succ in Hs.
    fold e0 in Hs. pose proof (Z.sqrt_nonneg n) as Hn. fold e0 in Hn.
    split; [|lia]. split; [lia |].
    destruct (Z_lt_dec e0 L); [assumption | nia]. }
  set (m0 := n - e0 * e0 - e0).
  assert (Hm0 : - e0 <= m0 <= e0) by (unfold m0; lia).
  assert (Hn : elm2ind e0 m0 = n) by (unfold elm2ind, m0; lia).
  unfold flm_1d_to_2d. rewrite np_zeros2_ok by lia. cbn [bind].
  assert (Hinner : forall e lo hi cur, 0 <= e < L -> - e <= lo <= hi ->
            hi <= e + 1 -> elm2ind e hi <= n ->
            shape2 cur L (2 * L - 1) ->
            exists cur', for_range lo hi (fun m flm_2d =>
                x0 <- get1 x (elm2ind e m) ;; set2 flm_2d e (L - 1 + m) x0) cur
              = Ok cur' /\ shape2 cur' L (2 * L - 1)).
  { intros e lo hi cur He Hlo Hhi Hidx Hcur.
    apply (for_range_inv (fun _ c => shape2 c L (2 * L - 1))); [lia | exact Hcur |].
    intros m t Hm Ht.
    rewrite (get1_ok C0) by (fold n; unfold elm2ind in *; lia). cbn [bind].
    rewrite (set2_ok t L (2 * L - 1)) by (assumption || lia).
    eexists. split; [reflexivity |]. apply shape2_mset; [assumption | lia]. }
  match goal with |- for_range 0 L ?body ?s = _ =>
    destruct (for_range_inv (fun _ c => shape2 c L (2 * L - 1)) 0 e0 body s)
      as [cur [Hcur Hsh]] end.
  - lia.
  - apply shape2_zeros; lia.
  - intros e t He Ht. apply Hinner; try lia; try assumption.
    unfold elm2ind. nia.
  - apply (for_range_raises _ 0 e0 L _ cur); [lia | exact Hcur |].
    destruct (Hinner e0 (- e0) m0 cur) as [cur' [Hcur' Hsh']];
      try lia; try assumption.
    apply (for_range_raises _ (- e0) m0 (e0 + 1) _ cur'); [lia | exact Hcur' |].
    rewrite get1_out by (fold n; lia). reflexivity.
Qed.

(** X13. [flm_1d_to_2d] does not compare the length of its argument with
    [L]: of a vector longer than [L * L] it silently reads the first
    [L * L] entries, and on a shorter one it fails inside numpy, with an
    [IndexError]. *)
Theorem flm_1d_to_2d_length_unchecked (x : list C) (L : Z) :
  1 <= L ->
  (L * L <= Zlen x ->
     flm_1d_to_2d x L = flm_1d_to_2d (firstn (Z.to_nat (L * L)) x) L /\
     is_ok (flm_1d_to_2d x L)) /\
  (Zlen x < L * L -> flm_1d_to_2d x L = Err IndexError).
Proof.
  intros HL. split.
  - intros Hx. split; [apply flm_1d_to_2d_long; assumption |].
    rewrite flm_1d_to_2d_long by assumption.
    destruct (flm_1d_to_2d_spec (firstn (Z.to_nat (L * L)) x) L HL)
      as [y [Hy _]].
    + apply Zlen_firstn. nia.
    + exists y. exact Hy.
  - apply flm_1d_to_2d_short. assumption.
Qed.

Lemma flm_1d_to_2d_length_unchecked_witness :
  (flm_1d_to_2d [(1, 0); (2, 1); (3, 0); (4, -1); (5, 5)]%R 2
   = flm_1d_to_2d
       (firstn (Z.to_nat (2 * 2)) [(1, 0); (2, 1); (3, 0); (4, -1); (5, 5)]%R) 2
   /\ is_ok (flm_1d_to_2d [(1, 0); (2, 1); (3, 0); (4, -1); (5, 5)]%R 2)) /\
  flm_1d_to_2d [(1, 0); (2, 1); (3, 0)]%R 2 = Err IndexError.
Proof.
  split.
  - apply (flm_1d_to_2d_length_unchecked
             [(1, 0); (2, 1); (3, 0); (4, -1); (5, 5)]%R 2); [lia |].
    vm_compute. discriminate.
  - apply (flm_1d_to_2d_length_unchecked [(1, 0); (2, 1); (3, 0)]%R 2); [lia |].
    reflexivity.
Defined.

(** ** The HEALPix layout *)

Section HealpixLayout.

Variable hp_getidx : Z -> Z -> Z -> Z.

(** What [flm_hp_to_2d] stores at [(r, k)] of the triangle: the HEALPix
    entry for [m = k - (L - 1) >= 0], its signed conjugate for [m < 0]. *)
Definition hp_entry (flm_hp : list C) (L r k : Z) : C :=
  if L - 1 <=? k then nthZ C0 flm_hp (hp_getidx L r (k - (L - 1)))
  else Cmul (RtoC (m1pow (L - 1 - k)))
         (Cconj (nthZ C0 flm_hp (hp_getidx L r (L - 1 - k)))).

Lemma flm_hp_to_2d_spec (flm_hp : list C) (L : Z) :
  1 <= L ->
  (forall el m, 0 <= m <= el -> el < L ->
     0 <= hp_getidx L el m < Zlen flm_hp) ->
  exists y, flm_hp_to_2d hp_getidx flm_hp L = Ok y /\
    shape2 y L (2 * L - 1) /\
    forall r k, 0 <= r < L -> 0 <= k < 2 * L - 1 ->
      mat_at C0 y r k
      = if in_triangle L r k then hp_entry flm_hp L r k else C0.
Proof.
  intros HL Hidx. unfold flm_hp_to_2d.
  rewrite np_zeros2_ok by lia. cbn [bind].
  pose (D := fun (e m r k : Z) =>
    (r < e /\ - r <= k - (L - 1) <= r) \/ (r = e /\ - m < k - (L - 1) < m)).
  pose (I := fun (e m : Z) (cur : list (list C)) =>
    shape2 cur L (2 * L - 1) /\
    forall r k, 0 <= r < L -> 0 <= k < 2 * L - 1 ->
      (D e m r k -> mat_at C0 cur r k = hp_entry flm_hp L r k) /\
      (~ D e m r k -> mat_at C0 cur r k = C0)).
  match goal with |- exists y, for_range 0 L ?body ?s = _ /\ _ =>
    destruct (for_range_inv (fun e cur => I e 0 cur) 0 L body s)
      as [y [Hy [Hsh HI]]] end.
  - lia.
  - split; [apply shape2_zeros; lia |].
    intros r k Hr Hk. split.
    + unfold D. intros; lia.
    + intros _. apply mat_at_zeros; lia.
  - intros e cur He [Hcsh Hcur].
    rewrite (get1_ok C0) by (apply Hidx; lia). cbn [bind].
    rewrite (set2_ok cur L (2 * L - 1)) by (assumption || lia). cbn [bind].
    match goal with |- exists t', for_range _ _ ?body ?s = _ /\ _ =>
      destruct (for_range_inv (fun m cur => I e m cur) 1 (e + 1) body s)
        as [cur' [Hc' HI']] end.
    + lia.
    + split; [apply shape2_mset; [assumption | lia] |].
      intros r k Hr Hk.
      rewrite (mat_at_mset C0 cur L (2 * L - 1)) by (assumption || lia).
      destruct (Hcur r k Hr Hk) as [H1 H2].
      destruct (Z.eqb_spec e r) as [Er|Er];
        destruct (Z.eqb_spec (L - 1 + 0) k) as [Ek|Ek]; cbn [andb].
      * subst r k. split; [intros _ | intros HD; exfalso; apply HD; unfold D; lia].
        unfold hp_entry.
        replace (L - 1 <=? L - 1 + 0) with true by (symmetry; apply Z.leb_le; lia).
        f_equal. f_equal. lia.
      * split; intros HD; [apply H1 | apply H2]; unfold D in *; lia.
      * split; intros HD; [apply H1 | apply H2]; unfold D in *; lia.
      * split; intros HD; [apply H1 | apply H2]; unfold D in *; lia.
    + intros m t Hm [Htsh Ht].
      rewrite (get1_ok C0) by (apply Hidx; lia). cbn [bind].
      rewrite (set2_ok t L (2 * L - 1)) by (assumption || lia). cbn [bind].
      assert (Hsh1 : shape2 (mset t e (L - 1 + m)
                               (nthZ C0 flm_hp (hp_getidx L e m))) L (2 * L - 1))
        by (apply shape2_mset; [assumption | lia]).
      rewrite (get2_ok C0 _ L (2 * L - 1)) by (assumption || lia). cbn [bind].
      rewrite (set2_ok _ L (2 * L - 1)) by (assumption || lia).
      eexists. split; [reflexivity |]. split.
      * apply shape2_mset; [assumption | lia].
      * intros r k Hr Hk.
        rewrite (mat_at_mset C0 _ L (2 * L - 1)) by (assumption || lia).
        rewrite !(mat_at_mset C0 t L (2 * L - 1)) by (assumption || lia).
        rewrite !Z.eqb_refl. cbn [andb].
        destruct (Ht r k Hr Hk) as [H1 H2].
        destruct (Z.eqb_spec e r) as [Er|Er]; cbn [andb];
          [destruct (Z.eqb_spec (L - 1 - m) k) as [Ek|Ek];
             [|destruct (Z.eqb_spec (L - 1 + m) k) as [Ek'|Ek']] |].
        -- subst r k. split; [intros _ | intros HD; exfalso; apply HD; unfold D; lia].
           unfold hp_entry.
           replace (L - 1 <=? L - 1 - m) with false
             by (symmetry; apply Z.leb_gt; lia).
           replace (L - 1 - (L - 1 - m)) with m by lia. reflexivity.
        -- subst r k. split; [intros _ | intros HD; exfalso; apply HD; unfold D; lia].
           unfold hp_entry.
           replace (L - 1 <=? L - 1 + m) with true
             by (symmetry; apply Z.leb_le; lia).
           f_equal. f_equal. lia.
        -- split; intros HD; [apply H1 | apply H2]; unfold D in *; lia.
        -- split; intros HD; [apply H1 | apply H2]; unfold D in *; lia.
    + exists cur'. split; [exact Hc' |].
      destruct HI' as [Hsh' HI']. split; [exact Hsh' |].
      intros r k Hr Hk. destruct (HI' r k Hr Hk) as [H1 H2].
      split; intros HD; [apply H1 | apply H2]; unfold D in *; lia.
  - exists y. split; [exact Hy |]. split; [exact Hsh |].
    intros r k Hr Hk. destruct (HI r k Hr Hk) as [H1 H2].
    destruct (in_triangle L r k) eqn:E.
    + apply in_triangle_spec in E. apply H1. unfold D. lia.
    + apply H2. intros HD.
      assert (in_triangle L r k = true) by (apply in_triangle_spec; unfold D in HD; lia).
      congruence.
Qed.

Lemma hp_size_nonneg (L : Z) : 0 <= L -> 0 <= hp_size L.
Proof.
  intros H. unfold hp_size.
  assert (0 <= L * (L + 1) / 2) by (apply Z.div_pos; nia). lia.
Qed.

Lemma flm_2d_to_hp_spec (y : list (list C)) (L : Z) :
  1 <= L -> shape2 y L (2 * L - 1) ->
  (forall el m, 0 <= m <= el -> el < L ->
     0 <= hp_getidx L el m < hp_size L) ->
  (forall el m el' m', 0 <= m <= el -> el < L -> 0 <= m' <= el' -> el' < L ->
     hp_getidx L el m = hp_getidx L el' m' -> el = el' /\ m = m') ->
  exists h, flm_2d_to_hp hp_getidx y L = Ok h /\ Zlen h = hp_size L /\
    (forall el m, 0 <= m <= el -> el < L ->
       nthZ C0 h (hp_getidx L el m) = mat_at C0 y el (L - 1 + m)) /\
    (forall i, 0 <= i < hp_size L ->
       (forall el m, 0 <= m <= el -> el < L -> hp_getidx L el m <> i) ->
       nthZ C0 h i = C0).
Proof.
  intros HL Hy Hidx Hinj. unfold flm_2d_to_hp.
  pose proof (hp_size_nonneg L ltac:(lia)) as Hsz.
  rewrite np_zeros_ok by assumption. cbn [bind].
  pose (D := fun (e m r k : Z) => r < e \/ (r = e /\ k < m)).
  pose (I := fun (e m : Z) (cur : list C) =>
    Zlen cur = hp_size L /\
    (forall el' m', 0 <= m' <= el' -> el' < L -> D e m el' m' ->
       nthZ C0 cur (hp_getidx L el' m') = mat_at C0 y el' (L - 1 + m')) /\
    (forall i, 0 <= i < hp_size L ->
       (forall el' m', 0 <= m' <= el' -> el' < L -> D e m el' m' ->
          hp_getidx L el' m' <> i) ->
       nthZ C0 cur i = C0)).
  match goal with |- exists x, for_range 0 L ?body ?s = _ /\ _ =>
    destruct (for_range_inv (fun e cur => I e 0 cur) 0 L body s)
      as [h [Hh [Hlen [HI1 HI2]]]] end.
  - lia.
  - split; [rewrite Zlen_repeat; lia |]. split.
    + intros el' m' H1 H2 HD. unfold D in HD. lia.
    + intros i Hi _. apply nthZ_repeat. lia.
  - intros e cur He Hcur.
    match goal with |- exists t', for_range _ _ ?body ?s = _ /\ _ =>
      destruct (for_range_inv (fun m cur => I e m cur) 0 (e + 1) body s)
        as [cur' [Hc' HI']] end.
    + lia.
    + exact Hcur.
    + intros m t Hm [Htl [Ht1 Ht2]].
      pose proof (Hidx e m ltac:(lia) ltac:(lia)) as Hr.
      rewrite (get2_ok C0 y L (2 * L - 1)) by (assumption || lia). cbn [bind].
      rewrite set1_ok by lia.
      eexists. split; [reflexivity |]. split; [|split].
      * rewrite Zlen_setZ. assumption.
      * intros el' m' H1 H2 HD.
        pose proof (Hidx el' m' H1 H2) as Hr'.
        rewrite nthZ_setZ by lia.
        destruct (Z.eqb_spec (hp_getidx L e m) (hp_getidx L el' m')) as [E|E].
        -- apply Hinj in E; try lia. destruct E; subst. reflexivity.
        -- apply Ht1; try assumption. unfold D in *.
           destruct (Z.eq_dec el' e); [|lia].
           destruct (Z.eq_dec m' m); [subst; contradiction | lia].
      * intros i Hi Hno.
        rewrite nthZ_setZ by lia.
        destruct (Z.eqb_spec (hp_getidx L e m) i) as [E|E].
        -- exfalso. apply (Hno e m); try lia. unfold D. lia.
        -- apply Ht2; [assumption |]. intros el' m' H1 H2 HD.
           apply Hno; try assumption. unfold D in *. lia.
    + exists cur'. split; [exact Hc' |].
      destruct HI' as [Hl' [HI1' HI2']]. split; [exact Hl' |]. split.
      * intros el' m' H1 H2 HD. apply HI1'; try assumption. unfold D in *. lia.
      * intros i Hi Hno. apply HI2'; [assumption |].
        intros el' m' H1 H2 HD. apply Hno; try assumption. unfold D in *. lia.
  - exists h. split; [exact Hh |]. split; [exact Hlen |]. split.
    + intros el m H1 H2. apply HI1; try assumption. unfold D. lia.
    + intros i Hi Hno. apply HI2; [assumption |].
      intros el' m' H1 H2 _. apply Hno; assumption.
Qed.

End HealpixLayout.

(** The layout of the docstrings at [L = 2]. *)
Lemma hp_getidx_layout_two_range (el m : Z) :
  0 <= m <= el -> el < 2 -> 0 <= hp_getidx_layout 2 el m < hp_size 2.
Proof.
  intros H1 H2.
  assert ((el = 0 /\ m = 0) \/ (el = 1 /\ m = 0) \/ (el = 1 /\ m = 1))
    as [[-> ->]|[[-> ->]|[-> ->]]] by lia; vm_compute; split; congruence.
Qed.

Lemma hp_getidx_layout_two_inj (el m el' m' : Z) :
  0 <= m <= el -> el < 2 -> 0 <= m' <= el' -> el' < 2 ->
  hp_getidx_layout 2 el m = hp_getidx_layout 2 el' m' -> el = el' /\ m = m'.
Proof.
  intros H1 H2 H3 H4.
  assert ((el = 0 /\ m = 0) \/ (el = 1 /\ m = 0) \/ (el = 1 /\ m = 1))
    as [[-> ->]|[[-> ->]|[-> ->]]] by lia;
  assert ((el' = 0 /\ m' = 0) \/ (el' = 1 /\ m' = 0) \/ (el' = 1 /\ m' = 1))
    as [[-> ->]|[[-> ->]|[-> ->]]] by lia;
  vm_compute; intros E; try discriminate E; split; reflexivity.
Qed.

(** X14. [flm_hp_to_2d] unpacks the coefficients of a real signal: for
    any index function [hp_getidx] that stays inside the HEALPix vector,
    the table holds the vector's entry at every [m >= 0], its conjugate
    with the sign [(-1) ** m] at [-m], and zero outside the triangle. *)
Theorem flm_hp_to_2d_real_signal (hp_getidx : Z -> Z -> Z -> Z)
    (flm_hp : list C) (L : Z) :
  1 <= L ->
  (forall el m, 0 <= m <= el -> el < L ->
     0 <= hp_getidx L el m < Zlen flm_hp) ->
  exists y, flm_hp_to_2d hp_getidx flm_hp L = Ok y /\
    shape2 y L (2 * L - 1) /\
    forall el, 0 <= el < L ->
      (forall m, 0 <= m <= el ->
         mat_at C0 y el (L - 1 + m) = nthZ C0 flm_hp (hp_getidx L el m)) /\
      (forall m, 1 <= m <= el ->
         mat_at C0 y el (L - 1 - m)
         = Cmul (RtoC (m1pow m)) (Cconj (mat_at C0 y el (L - 1 + m)))) /\
      (forall k, 0 <= k < 2 * L - 1 -> ~ (- el <= k - (L - 1) <= el) ->
         mat_at C0 y el k = C0).
Proof.
  intros HL Hidx.
  destruct (flm_hp_to_2d_spec hp_getidx flm_hp L HL Hidx) as [y [Hy [Hsh Hent]]].
  exists y. split; [exact Hy |]. split; [exact Hsh |].
  assert (Hpos : forall el m, 0 <= el < L -> 0 <= m <= el ->
            mat_at C0 y el (L - 1 + m) = nthZ C0 flm_hp (hp_getidx L el m)).
  { intros el m Hel Hm. rewrite Hent by lia.
    replace (in_triangle L el (L - 1 + m)) with true
      by (symmetry; apply in_triangle_spec; lia).
    unfold hp_entry.
    replace (L - 1 <=? L - 1 + m) with true by (symmetry; apply Z.leb_le; lia).
    f_equal. f_equal. lia. }
  intros el Hel. split; [|split].
  - intros m Hm. apply Hpos; assumption.
  - intros m Hm. rewrite Hpos by lia. rewrite Hent by lia.
    replace (in_triangle L el (L - 1 - m)) with true
      by (symmetry; apply in_triangle_spec; lia).
    unfold hp_entry.
    replace (L - 1 <=? L - 1 - m) with false by (symmetry; apply Z.leb_gt; lia).
    replace (L - 1 - (L - 1 - m)) with m by lia. reflexivity.
  - intros k Hk Hout. rewrite Hent by lia.
    destruct (in_triangle L el k) eqn:E; [|reflexivity].
    apply in_triangle_spec in E. contradiction.
Qed.

Lemma flm_hp_to_2d_real_signal_witness :
  exists y,
    flm_hp_to_2d hp_getidx_layout
      [(1, 0); (2, 0); (0, 0); (3, 4); (0, 0); (0, 0)]%R 2 = Ok y /\
    shape2 y 2 (2 * 2 - 1) /\
    forall el, 0 <= el < 2 ->
      (forall m, 0 <= m <= el ->
         mat_at C0 y el (2 - 1 + m)
         = nthZ C0 [(1, 0); (2, 0); (0, 0); (3, 4); (0, 0); (0, 0)]%R
             (hp_getidx_layout 2 el m)) /\
      (forall m, 1 <= m <= el ->
         mat_at C0 y el (2 - 1 - m)
         = Cmul (RtoC (m1pow m)) (Cconj (mat_at C0 y el (2 - 1 + m)))) /\
      (forall k, 0 <= k < 2 * 2 - 1 -> ~ (- el <= k - (2 - 1) <= el) ->
         mat_at C0 y el k = C0).
Proof.
  apply (flm_hp_to_2d_real_signal hp_getidx_layout); [lia |].
  intros el m H1 H2. apply (hp_getidx_layout_two_range el m H1 H2).
Defined.

(** X15. [flm_2d_to_hp] followed by [flm_hp_to_2d] returns the table it
    was given, when the table holds the coefficients of a real signal
    (conjugate symmetric in [m], zero outside the triangle); the index
    function has to stay inside the HEALPix vector and to give different
    coefficients different offsets. *)
Theorem healpix_round_trip_real (hp_getidx : Z -> Z -> Z -> Z)
    (y : list (list C)) (L : Z) :
  1 <= L -> shape2 y L (2 * L - 1) ->
  (forall el m, 0 <= m <= el -> el < L ->
     0 <= hp_getidx L el m < hp_size L) ->
  (forall el m el' m', 0 <= m <= el -> el < L -> 0 <= m' <= el' -> el' < L ->
     hp_getidx L el m = hp_getidx L el' m' -> el = el' /\ m = m') ->
  (forall el m, 1 <= m <= el -> el < L ->
     mat_at C0 y el (L - 1 - m)
     = Cmul (RtoC (m1pow m)) (Cconj (mat_at C0 y el (L - 1 + m)))) ->
  (forall el k, 0 <= el < L -> 0 <= k < 2 * L - 1 ->
     ~ (- el <= k - (L - 1) <= el) -> mat_at C0 y el k = C0) ->
  exists h, flm_2d_to_hp hp_getidx y L = Ok h /\ Zlen h = hp_size L /\
    flm_hp_to_2d hp_getidx h L = Ok y.
Proof.
  intros HL Hsh Hidx Hinj Hsym Hzero.
  destruct (flm_2d_to_hp_spec hp_getidx y L HL Hsh Hidx Hinj)
    as [h [Hh [Hlen [Hent _]]]].
  exists h. split; [exact Hh |]. split; [exact Hlen |].
  destruct (flm_hp_to_2d_spec hp_getidx h L HL) as [y' [Hy' [Hsh' Hent']]].
  { rewrite Hlen. exact Hidx. }
  rewrite Hy'. f_equal.
  apply (mat_ext C0 y' y L (2 * L - 1)); try assumption.
  intros r k Hr Hk. rewrite Hent' by assumption.
  destruct (in_triangle L r k) eqn:E.
  - apply in_triangle_spec in E. unfold hp_entry.
    destruct (Z.leb_spec (L - 1) k) as [Hge|Hlt].
    + rewrite Hent by lia. f_equal. lia.
    + rewrite Hent by lia.
      rewrite <- (Hsym r (L - 1 - k)) by lia. f_equal. lia.
  - symmetry. apply Hzero; try assumption.
    intros H. apply in_triangle_spec in H. congruence.
Qed.

Lemma healpix_round_trip_real_witness :
  exists h,
    flm_2d_to_hp hp_getidx_layout
      [[C0; (5, 0); C0]; [(-3, 4); (7, 0); (3, 4)]]%R 2 = Ok h /\
    Zlen h = hp_size 2 /\
    flm_hp_to_2d hp_getidx_layout h 2
    = Ok [[C0; (5, 0); C0]; [(-3, 4); (7, 0); (3, 4)]]%R.
Proof.
  apply (healpix_round_trip_real hp_getidx_layout).
  - lia.
  - split; [reflexivity | repeat constructor].
  - apply hp_getidx_layout_two_range.
  - apply hp_getidx_layout_two_inj.
  - intros el m H1 H2. assert (el = 1 /\ m = 1) as [-> ->] by lia.
    replace (mat_at C0 _ 1 (2 - 1 - 1)) with ((-3)%R, 4%R) by reflexivity.
    replace (mat_at C0 _ 1 (2 - 1 + 1)) with (3%R, 4%R) by reflexivity.
    unfold Cmul, Cconj, RtoC, m1pow. cbn [fst snd Z.even]. f_equal; lra.
  - intros el k Hel Hk Hout.
    assert (el = 0 /\ (k = 0 \/ k = 2)) as [-> [-> | ->]] by lia; reflexivity.
Defined.

(** X16. [flm_2d_to_hp] keeps the orders [m >= 0] only: two tables that
    agree there are sent to the same HEALPix vector, whatever they hold at
    negative [m]; and of a HEALPix vector unpacked by [flm_hp_to_2d] it
    returns the entries that have an offset [hp_getidx(L, el, m)] with
    [el < L], the others being set to zero. *)
Theorem flm_2d_to_hp_forgets (hp_getidx : Z -> Z -> Z -> Z)
    (y1 y2 : list (list C)) (flm_hp : list C) (L : Z) :
  1 <= L ->
  (forall el m, 0 <= m <= el -> el < L ->
     0 <= hp_getidx L el m < hp_size L) ->
  (forall el m el' m', 0 <= m <= el -> el < L -> 0 <= m' <= el' -> el' < L ->
     hp_getidx L el m = hp_getidx L el' m' -> el = el' /\ m = m') ->
  (shape2 y1 L (2 * L - 1) -> shape2 y2 L (2 * L - 1) ->
   (forall el m, 0 <= m <= el -> el < L ->
      mat_at C0 y1 el (L - 1 + m) = mat_at C0 y2 el (L - 1 + m)) ->
   flm_2d_to_hp hp_getidx y1 L = flm_2d_to_hp hp_getidx y2 L /\
   is_ok (flm_2d_to_hp hp_getidx y1 L)) /\
  (Zlen flm_hp = hp_size L ->
   exists y h, flm_hp_to_2d hp_getidx flm_hp L = Ok y /\
     flm_2d_to_hp hp_getidx y L = Ok h /\ Zlen h = hp_size L /\
     (forall el m, 0 <= m <= el -> el < L ->
        nthZ C0 h (hp_getidx L el m) = nthZ C0 flm_hp (hp_getidx L el m)) /\
     (forall i, 0 <= i < hp_size L ->
        (forall el m, 0 <= m <= el -> el < L -> hp_getidx L el m <> i) ->
        nthZ C0 h i = C0)).
Proof.
  intros HL Hidx Hinj. split.
  - intros Hs1 Hs2 Hagree. split.
    + unfold flm_2d_to_hp. apply bind_ext. intros z.
      apply for_range_ext. intros el t Hel.
      apply for_range_ext. intros m u Hm.
      rewrite (get2_ok C0 y1 L (2 * L - 1)) by (assumption || lia).
      rewrite (get2_ok C0 y2 L (2 * L - 1)) by (assumption || lia).
      rewrite Hagree by lia. reflexivity.
    + destruct (flm_2d_to_hp_spec hp_getidx y1 L HL Hs1 Hidx Hinj)
        as [h1 [Hh1 _]].
      exists h1. exact Hh1.
  - intros Hlen.
    destruct (flm_hp_to_2d_spec hp_getidx flm_hp L HL)
      as [y [Hy [Hsh Hent]]].
    { rewrite Hlen. exact Hidx. }
    destruct (flm_2d_to_hp_spec hp_getidx y L HL Hsh Hidx Hinj)
      as [h [Hh [Hl [Ha Hb]]]].
    exists y, h. split; [exact Hy |]. split; [exact Hh |]. split; [exact Hl |].
    split; [|exact Hb].
    intros el m H1 H2. rewrite Ha by assumption.
    rewrite Hent by lia.
    replace (in_triangle L el (L - 1 + m)) with true
      by (symmetry; apply in_triangle_spec; lia).
    unfold hp_entry.
    replace (L - 1 <=? L - 1 + m) with true by (symmetry; apply Z.leb_le; lia).
    f_equal. f_equal. lia.
Qed.

Lemma flm_2d_to_hp_forgets_witness :
  (flm_2d_to_hp hp_getidx_layout [[C0; (5, 0); C0]; [(9, 9); (7, 0); (3, 4)]]%R 2
   = flm_2d_to_hp hp_getidx_layout
       [[(1, 1); (5, 0); C0]; [(-3, 4); (7, 0); (3, 4)]]%R 2 /\
   is_ok (flm_2d_to_hp hp_getidx_layout
            [[C0; (5, 0); C0]; [(9, 9); (7, 0); (3, 4)]]%R 2)) /\
  exists y h,
    flm_hp_to_2d hp_getidx_layout
      [(1, 0); (2, 0); (8, 8); (3, 4); (8, 8); (8, 8)]%R 2 = Ok y /\
    flm_2d_to_hp hp_getidx_layout y 2 = Ok h /\ Zlen h = hp_size 2 /\
    (forall el m, 0 <= m <= el -> el < 2 ->
       nthZ C0 h (hp_getidx_layout 2 el m)
       = nthZ C0 [(1, 0); (2, 0); (8, 8); (3, 4); (8, 8); (8, 8)]%R
           (hp_getidx_layout 2 el m)) /\
    (forall i, 0 <= i < hp_size 2 ->
       (forall el m, 0 <= m <= el -> el < 2 -> hp_getidx_layout 2 el m <> i) ->
       nthZ C0 h i = C0).
Proof.
  destruct (flm_2d_to_hp_forgets hp_getidx_layout
              [[C0; (5, 0); C0]; [(9, 9); (7, 0); (3, 4)]]%R
              [[(1, 1); (5, 0); C0]; [(-3, 4); (7, 0); (3, 4)]]%R
              [(1, 0); (2, 0); (8, 8); (3, 4); (8, 8); (8, 8)]%R 2)
    as [H1 H2].
  - lia.
  - apply hp_getidx_layout_two_range.
  - apply hp_getidx_layout_two_inj.
  - split.
    + apply H1.
      * split; [reflexivity | repeat constructor].
      * split; [reflexivity | repeat constructor].
      * intros el m Hm Hel.
        assert ((el = 0 /\ m = 0) \/ (el = 1 /\ m = 0) \/ (el = 1 /\ m = 1))
          as [[-> ->]|[[-> ->]|[-> ->]]] by lia; reflexivity.
    + apply H2. reflexivity.
Defined.

(** ** Random coefficients *)

Section RandomCoefficients.

Variable G : Type.
Variable rand : G -> R * G.

Lemma length_rand_vec (n : nat) (g : G) :
  List.length (fst (rand_vec G rand n g)) = n.
Proof.
  revert g. induction n as [|n IH]; intros g; [reflexivity |].
  cbn [rand_vec]. destruct (rand g) as [x g1].
  specialize (IH g1). destruct (rand_vec G rand n g1) as [v g2].
  cbn [fst List.length] in *. lia.
Qed.

(** The coefficients of a real signal at the degree [el]: the one of
    order [0] is real, the one of order [-m] is the conjugate of the one
    of order [m] with the sign [(-1) ** m]. *)
Definition real_degree (flm : list C) (el : Z) : Prop :=
  snd (nthZ C0 flm (elm2ind el 0)) = 0%R /\
  forall m, 1 <= m <= el ->
    nthZ C0 flm (elm2ind el (- m))
    = Cmul (RtoC (m1pow m)) (Cconj (nthZ C0 flm (elm2ind el m))).

Lemma generate_flm_real_spec (L spin : Z) (g : G) :
  0 <= spin ->
  exists flm g', generate_flm G rand L spin true g = Ok (flm, g') /\
    Zlen flm = L * L /\
    (forall i, 0 <= i < L * L -> i < spin * spin -> nthZ C0 flm i = C0) /\
    (forall el, spin <= el < L -> real_degree flm el).
Proof.
  intros Hs. unfold generate_flm, ncoeff. cbn [negb].
  rewrite np_zeros_ok by nia. cbn [bind].
  destruct (Z_le_dec L spin) as [Hle|Hgt].
  { rewrite for_range_empty by lia.
    eexists. eexists. split; [reflexivity |].
    split; [rewrite Zlen_repeat; nia |]. split.
    - intros i Hi _. apply nthZ_repeat. lia.
    - intros el Hel. lia. }
  pose (I := fun (e : Z) (st : list C * G) =>
    Zlen (fst st) = L * L /\
    (forall i, 0 <= i < L * L -> i < spin * spin \/ e * e <= i ->
       nthZ C0 (fst st) i = C0) /\
    (forall el, spin <= el < e -> real_degree (fst st) el)).
  match goal with |- exists flm g', for_range _ _ ?body ?s = _ /\ _ =>
    destruct (for_range_inv I spin L body s) as [[flm g'] [Hf [Hlen [Hz Hr]]]] end.
  - lia.
  - unfold I. cbn [fst]. split; [rewrite Zlen_repeat; nia |]. split.
    + intros i Hi _. cbn [fst]. apply nthZ_repeat. lia.
    + intros el Hel. lia.
  - intros e [cur g0] He [Hcl [Hcz Hcr]]. cbn [fst] in *.
    destruct (rand g0) as [x g1].
    pose proof (elm2ind_range L e 0 ltac:(lia) ltac:(lia)) as Hi0.
    rewrite set1_ok by lia. cbn [bind].
    pose (J := fun (m : Z) (st : list C * G) =>
      Zlen (fst st) = L * L /\
      (forall i, 0 <= i < L * L ->
         i < spin * spin \/ (e + 1) * (e + 1) <= i ->
         nthZ C0 (fst st) i = C0) /\
      (forall el, spin <= el < e -> real_degree (fst st) el) /\
      snd (nthZ C0 (fst st) (elm2ind e 0)) = 0%R /\
      forall m', 1 <= m' < m ->
        nthZ C0 (fst st) (elm2ind e (- m'))
        = Cmul (RtoC (m1pow m')) (Cconj (nthZ C0 (fst st) (elm2ind e m')))).
    match goal with |- exists t', for_range _ _ ?body ?s = _ /\ _ =>
      destruct (for_range_inv J 1 (e + 1) body s)
        as [[cur' g2] [Hc' [Hl' [Hz' [Hr' [H0' Hs']]]]]] end.
    + lia.
    + unfold J. cbn [fst].
      split; [rewrite Zlen_setZ; assumption |]. split; [|split; [|split]].
      * intros i Hi Hcase. rewrite nthZ_setZ by lia.
        destruct (Z.eqb_spec (elm2ind e 0) i) as [E|E].
        -- exfalso. unfold elm2ind in E. nia.
        -- apply Hcz; [assumption |]. nia.
      * intros el Hel. destruct (Hcr el Hel) as [Ha Hb]. split.
        -- pose proof (elm2ind_range L el 0 ltac:(lia) ltac:(lia)).
           rewrite nthZ_setZ by lia.
           destruct (Z.eqb_spec (elm2ind e 0) (elm2ind el 0)) as [E|E];
             [unfold elm2ind in E; nia | exact Ha].
        -- intros m Hm.
           pose proof (elm2ind_range L el m ltac:(lia) ltac:(lia)).
           pose proof (elm2ind_range L el (- m) ltac:(lia) ltac:(lia)).
           rewrite !nthZ_setZ by lia.
           destruct (Z.eqb_spec (elm2ind e 0) (elm2ind el (- m))) as [E|E];
             [unfold elm2ind in E; nia |].
           destruct (Z.eqb_spec (elm2ind e 0) (elm2ind el m)) as [E'|E'];
             [unfold elm2ind in E'; nia |].
           apply Hb. assumption.
      * rewrite nthZ_setZ_eq by lia. reflexivity.
      * intros m' Hm'. lia.
    + intros m [t g3] Hm [Htl [Htz [Htr [Ht0 Hts]]]]. cbn [fst] in *.
      destruct (rand g3) as [a g4]. destruct (rand g4) as [b g5].
      pose proof (elm2ind_range L e m ltac:(lia) ltac:(lia)) as Hip.
      pose proof (elm2ind_range L e (- m) ltac:(lia) ltac:(lia)) as Him.
      rewrite set1_ok by lia. cbn [bind].
      rewrite (get1_ok C0) by (rewrite Zlen_setZ; lia). cbn [bind].
      rewrite nthZ_setZ_eq by lia.
      rewrite set1_ok by (rewrite Zlen_setZ; lia). cbn [bind].
      eexists. split; [reflexivity |]. unfold J. cbn [fst].
      assert (Hrd : forall j, 0 <= j -> j <> elm2ind e m -> j <> elm2ind e (- m) ->
                nthZ C0 (setZ (setZ t (elm2ind e m) (Cadd (RtoC a) (0%R, b)))
                           (elm2ind e (- m))
                           (Cmul (RtoC (m1pow m))
                              (Cconj (Cadd (RtoC a) (0%R, b))))) j
                = nthZ C0 t j).
      { intros j Hj H1 H2.
        rewrite nthZ_setZ_ne by (rewrite ?Zlen_setZ; lia).
        rewrite nthZ_setZ_ne by lia. reflexivity. }
      split; [rewrite !Zlen_setZ; assumption |]. split; [|split; [|split]].
      * intros i Hi Hcase. rewrite Hrd; try lia.
        -- apply Htz; assumption.
        -- unfold elm2ind. nia.
        -- unfold elm2ind. nia.
      * intros el Hel. destruct (Htr el Hel) as [Ha Hb]. split.
        -- pose proof (elm2ind_range L el 0 ltac:(lia) ltac:(lia)).
           rewrite Hrd; try lia; try exact Ha; unfold elm2ind; nia.
        -- intros m1 Hm1.
           pose proof (elm2ind_range L el m1 ltac:(lia) ltac:(lia)).
           pose proof (elm2ind_range L el (- m1) ltac:(lia) ltac:(lia)).
           rewrite !Hrd; try lia; try (unfold elm2ind; nia).
           apply Hb. assumption.
      * rewrite Hrd; try lia; try exact Ht0; unfold elm2ind; lia.
      * intros m' Hm'.
        destruct (Z.eq_dec m' m) as [->|Hne].
        -- rewrite nthZ_setZ_eq by (rewrite Zlen_setZ; lia).
           rewrite nthZ_setZ_ne by (unfold elm2ind in *; lia).
           rewrite nthZ_setZ_eq by lia. reflexivity.
        -- pose proof (elm2ind_range L e m' ltac:(lia) ltac:(lia)).
           pose proof (elm2ind_range L e (- m') ltac:(lia) ltac:(lia)).
           rewrite !Hrd; try lia; try (unfold elm2ind; lia).
           apply Hts. lia.
    + exists (cur', g2). split; [exact Hc' |]. unfold I. cbn [fst] in *.
      split; [exact Hl' |]. split.
      * intros i Hi Hcase. apply Hz'; assumption.
      * intros el Hel. destruct (Z.eq_dec el e) as [->|Hne].
        -- split; [exact H0' |]. intros m Hm. apply Hs'. lia.
        -- apply Hr'. lia.
  - cbn [fst] in *. exists flm, g'. split; [exact Hf |].
    split; [exact Hlen |]. split.
    + intros i Hi Hlt. apply Hz; [assumption | lia].
    + exact Hr.
Qed.

End RandomCoefficients.

Lemma generate_flm_complex_spec (G : Type) (rand : G -> R * G) (L spin : Z)
    (g : G) :
  exists flm g', generate_flm G rand L spin false g = Ok (flm, g') /\
    Zlen flm = L * L /\
    (forall i, 0 <= i < L * L -> i < spin * spin -> nthZ C0 flm i = C0) /\
    (forall i, spin * spin <= i < L * L ->
       nthZ C0 flm i
       = (nthZ 0%R (fst (rand_vec G rand (Z.to_nat (L * L)) g)) i,
          nthZ 0%R (fst (rand_vec G rand (Z.to_nat (L * L))
                           (snd (rand_vec G rand (Z.to_nat (L * L)) g)))) i)).
Proof.
  unfold generate_flm, ncoeff. cbn [negb].
  rewrite np_zeros_ok by nia. cbn [bind].
  pose proof (length_rand_vec G rand (Z.to_nat (L * L)) g) as Hre.
  destruct (rand_vec G rand (Z.to_nat (L * L)) g) as [re g1].
  cbn [fst snd] in *.
  pose proof (length_rand_vec G rand (Z.to_nat (L * L)) g1) as Him.
  destruct (rand_vec G rand (Z.to_nat (L * L)) g1) as [im g2].
  cbn [fst snd] in *.
  set (flm := map (fun '(a, b) => Cadd (RtoC a) (0%R, b)) (combine re im)).
  assert (Hlen : Zlen flm = L * L).
  { unfold Zlen, flm. rewrite length_map, length_combine. nia. }
  assert (Hnth : forall i, 0 <= i < L * L ->
            nthZ C0 flm i = (nthZ 0%R re i, nthZ 0%R im i)).
  { intros i Hi. unfold nthZ, flm.
    set (F := fun '(a, b) => Cadd (RtoC a) (0%R, b)).
    rewrite (nth_indep _ C0 (F (0%R, 0%R)))
      by (rewrite length_map, length_combine; lia).
    rewrite (map_nth F). rewrite combine_nth by lia.
    unfold F, Cadd, RtoC. cbn [fst snd]. f_equal; lra. }
  rewrite Hlen. unfold slice_bounds.
  replace (0 <? 0) with false by reflexivity.
  replace (spin * spin <? 0) with false by (symmetry; apply Z.ltb_ge; nia).
  eexists. eexists. split; [reflexivity |].
  split; [apply Zlen_tabulate; nia |]. split.
  - intros i Hi Hlt. rewrite nthZ_tabulate by lia.
    replace ((Z.min 0 (L * L) <=? i)
             && (i <? Z.max (Z.min 0 (L * L)) (Z.min (spin * spin) (L * L))))
      with true
      by (symmetry; apply andb_true_intro;
          split; [apply Z.leb_le | apply Z.ltb_lt]; lia).
    reflexivity.
  - intros i Hi. assert (0 <= i) by nia. rewrite nthZ_tabulate by lia.
    replace (i <? Z.max (Z.min 0 (L * L)) (Z.min (spin * spin) (L * L)))
      with false by (symmetry; apply Z.ltb_ge; lia).
    rewrite andb_false_r. apply Hnth. lia.
Qed.

(** X17. The coefficients returned by [generate_flm] have no degree below
    the spin: the vector has length [L * L] and the coefficient [(el, m)]
    is zero for every [el < |spin|], in the complex case for every spin
    and in the real case for a spin [>= 0]. *)
Theorem generate_flm_low_degrees_zero (G : Type) (rand : G -> R * G)
    (L spin : Z) (reality : bool) (g : G) :
  (reality = true -> 0 <= spin) ->
  exists flm g', generate_flm G rand L spin reality g = Ok (flm, g') /\
    Zlen flm = L * L /\
    forall el m, 0 <= el < L -> el < Z.abs spin -> - el <= m <= el ->
      nthZ C0 flm (elm2ind el m) = C0.
Proof.
  intros Hs.
  assert (Hlow : forall el m, 0 <= el < L -> el < Z.abs spin -> - el <= m <= el ->
            0 <= elm2ind el m < L * L /\ elm2ind el m < spin * spin).
  { intros el m Hel Hlt Hm. split; [apply elm2ind_range; assumption |].
    unfold elm2ind. nia. }
  destruct reality.
  - destruct (generate_flm_real_spec G rand L spin g (Hs eq_refl))
      as [flm [g' [Hf [Hlen [Hz _]]]]].
    exists flm, g'. split; [exact Hf |]. split; [exact Hlen |].
    intros el m Hel Hlt Hm. apply Hz; apply Hlow; assumption.
  - destruct (generate_flm_complex_spec G rand L spin g)
      as [flm [g' [Hf [Hlen [Hz _]]]]].
    exists flm, g'. split; [exact Hf |]. split; [exact Hlen |].
    intros el m Hel Hlt Hm. apply Hz; apply Hlow; assumption.
Qed.

(** A generator for the examples: the draws are [0], [1], [2], ... *)
Definition count_rand (n : nat) : R * nat := (INR n, Datatypes.S n).

Lemma generate_flm_low_degrees_zero_witness :
  exists flm g', generate_flm nat count_rand 3 2 true O = Ok (flm, g') /\
    Zlen flm = 3 * 3 /\
    forall el m, 0 <= el < 3 -> el < Z.abs 2 -> - el <= m <= el ->
      nthZ C0 flm (elm2ind el m) = C0.
Proof.
  apply (generate_flm_low_degrees_zero nat count_rand 3 2 true O). lia.
Defined.

(** X18. With [reality=True] and a spin [>= 0], [generate_flm] returns the
    coefficients of a real signal: at every degree [spin <= el < L] the
    coefficient of order [0] is real and the coefficient of order [-m] is
    [(-1) ** m] times the conjugate of the one of order [m]. *)
Theorem generate_flm_reality (G : Type) (rand : G -> R * G)
    (L spin : Z) (g : G) :
  0 <= spin ->
  exists flm g', generate_flm G rand L spin true g = Ok (flm, g') /\
    forall el, spin <= el < L ->
      snd (nthZ C0 flm (elm2ind el 0)) = 0%R /\
      forall m, 1 <= m <= el ->
        nthZ C0 flm (elm2ind el (- m))
        = Cmul (RtoC (m1pow m)) (Cconj (nthZ C0 flm (elm2ind el m))).
Proof.
  intros Hs.
  destruct (generate_flm_real_spec G rand L spin g Hs)
    as [flm [g' [Hf [_ [_ Hr]]]]].
  exists flm, g'. split; [exact Hf |]. exact Hr.
Qed.

Lemma generate_flm_reality_witness :
  exists flm g', generate_flm nat count_rand 3 1 true O = Ok (flm, g') /\
    forall el, 1 <= el < 3 ->
      snd (nthZ C0 flm (elm2ind el 0)) = 0%R /\
      forall m, 1 <= m <= el ->
        nthZ C0 flm (elm2ind el (- m))
        = Cmul (RtoC (m1pow m)) (Cconj (nthZ C0 flm (elm2ind el m))).
Proof. apply (generate_flm_reality nat count_rand 3 1 O). lia. Defined.

(** * Further properties of [s2fft/transform.py] *)

(** ** Loops over a list, and two loops side by side *)

Lemma for_enum_from_inv {A S : Type} (I : Z -> S -> Prop)
    (body : Z -> A -> S -> result S) (xs : list A) (t0 : Z) (s : S) :
  I t0 s ->
  (forall i x u, t0 <= i < t0 + Zlen xs ->
     nth_error xs (Z.to_nat (i - t0)) = Some x -> I i u ->
     exists u', body i x u = Ok u' /\ I (i + 1) u') ->
  exists s', for_enum_from t0 xs body s = Ok s' /\ I (t0 + Zlen xs) s'.
Proof.
  revert t0 s. induction xs as [|x xs IH]; intros t0 s H0 Hstep.
  - exists s. cbn [for_enum_from]. unfold Zlen. cbn [List.length].
    rewrite Z.add_0_r. auto.
  - assert (Hlen : Zlen (x :: xs) = Zlen xs + 1)
      by (unfold Zlen; cbn [List.length]; lia).
    pose proof (Zlen_nonneg xs) as Hnn.
    destruct (Hstep t0 x s) as [u [Hb Hu]]; [lia | | exact H0 |].
    { replace (t0 - t0) with 0 by lia. reflexivity. }
    cbn [for_enum_from]. rewrite Hb. cbn [bind].
    destruct (IH (t0 + 1) u Hu) as [s' [Hs' HI]].
    + intros i y v Hi Hy Hv. apply Hstep; [lia | | exact Hv].
      replace (Z.to_nat (i - t0)) with (Datatypes.S (Z.to_nat (i - (t0 + 1))))
        by lia.
      exact Hy.
    + exists s'. split; [exact Hs' |].
      rewrite Hlen. replace (t0 + (Zlen xs + 1)) with (t0 + 1 + Zlen xs) by lia.
      exact HI.
Qed.

Lemma for_enumerate_inv {A S : Type} (I : Z -> S -> Prop)
    (body : Z -> A -> S -> result S) (xs : list A) (s : S) :
  I 0 s ->
  (forall i x u, 0 <= i < Zlen xs ->
     nth_error xs (Z.to_nat i) = Some x -> I i u ->
     exists u', body i x u = Ok u' /\ I (i + 1) u') ->
  exists s', for_enumerate xs body s = Ok s' /\ I (Zlen xs) s'.
Proof.
  intros H0 Hstep.
  destruct (for_enum_from_inv I body xs 0 s H0) as [s' [H1 H2]].
  - intros i x u Hi Hx. apply Hstep; [lia |].
    replace (i - 0) with i in Hx by lia. exact Hx.
  - exists s'. split; [exact H1 |]. exact H2.
Qed.

(** Two loops over the same range whose bodies keep a relation between
    their states both return, in related states. *)
Lemma for_count_rel {S1 S2 : Type} (R : S1 -> S2 -> Prop)
    (body1 : Z -> S1 -> result S1) (body2 : Z -> S2 -> result S2)
    (n : nat) (a : Z) (s1 : S1) (s2 : S2) :
  R s1 s2 ->
  (forall i u1 u2, a <= i < a + Z.of_nat n -> R u1 u2 ->
     exists u1' u2', body1 i u1 = Ok u1' /\ body2 i u2 = Ok u2' /\ R u1' u2') ->
  exists s1' s2', for_count n a body1 s1 = Ok s1' /\
    for_count n a body2 s2 = Ok s2' /\ R s1' s2'.
Proof.
  revert a s1 s2. induction n as [|n IH]; intros a s1 s2 H0 Hstep.
  - exists s1, s2. cbn [for_count]. auto.
  - destruct (Hstep a s1 s2 ltac:(lia) H0) as [u1 [u2 [H1 [H2 Hu]]]].
    cbn [for_count]. rewrite H1, H2. cbn [bind].
    apply IH; [exact Hu |].
    intros i v1 v2 Hi Hv. apply Hstep; [lia | exact Hv].
Qed.

Lemma for_range_rel {S1 S2 : Type} (R : S1 -> S2 -> Prop)
    (body1 : Z -> S1 -> result S1) (body2 : Z -> S2 -> result S2)
    (a b : Z) (s1 : S1) (s2 : S2) :
  R s1 s2 ->
  (forall i u1 u2, a <= i < b -> R u1 u2 ->
     exists u1' u2', body1 i u1 = Ok u1' /\ body2 i u2 = Ok u2' /\ R u1' u2') ->
  exists s1' s2', for_range a b body1 s1 = Ok s1' /\
    for_range a b body2 s2 = Ok s2' /\ R s1' s2'.
Proof.
  intros H0 Hstep. unfold for_range. apply for_count_rel; [exact H0 |].
  intros i u1 u2 Hi. apply Hstep. lia.
Qed.

Lemma for_enum_from_rel {A S1 S2 : Type} (R : S1 -> S2 -> Prop)
    (body1 : Z -> A -> S1 -> result S1) (body2 : Z -> A -> S2 -> result S2)
    (xs : list A) (t0 : Z) (s1 : S1) (s2 : S2) :
  R s1 s2 ->
  (forall i x u1 u2, t0 <= i < t0 + Zlen xs -> In x xs -> R u1 u2 ->
     exists u1' u2', body1 i x u1 = Ok u1' /\ body2 i x u2 = Ok u2' /\
       R u1' u2') ->
  exists s1' s2', for_enum_from t0 xs body1 s1 = Ok s1' /\
    for_enum_from t0 xs body2 s2 = Ok s2' /\ R s1' s2'.
Proof.
  revert t0 s1 s2. induction xs as [|x xs IH]; intros t0 s1 s2 H0 Hstep.
  - exists s1, s2. cbn [for_enum_from]. auto.
  - assert (Hlen : Zlen (x :: xs) = Zlen xs + 1)
      by (unfold Zlen; cbn [List.length]; lia).
    pose proof (Zlen_nonneg xs) as Hnn.
    destruct (Hstep t0 x s1 s2) as [u1 [u2 [H1 [H2 Hu]]]];
      [lia | left; reflexivity | exact H0 |].
    cbn [for_enum_from]. rewrite H1, H2. cbn [bind].
    apply IH; [exact Hu |].
    intros i y v1 v2 Hi Hy Hv. apply Hstep; [lia | right; exact Hy | exact Hv].
Qed.

(** ** Complex arithmetic *)

Lemma Cadd_0_l (x : C) : Cadd C0 x = x.
Proof. destruct x. unfold Cadd, C0. cbn [fst snd]. f_equal; ring. Qed.

Lemma Cadd_comm (x y : C) : Cadd x y = Cadd y x.
Proof. unfold Cadd. f_equal; ring. Qed.

Lemma Cadd_assoc (x y z : C) : Cadd (Cadd x y) z = Cadd x (Cadd y z).
Proof. unfold Cadd. cbn [fst snd]. f_equal; ring. Qed.

Lemma Cmul_add_l (x y z : C) : Cmul (Cadd x y) z = Cadd (Cmul x z) (Cmul y z).
Proof. unfold Cadd, Cmul. cbn [fst snd]. f_equal; ring. Qed.

Lemma Cmul_0_l (x : C) : Cmul C0 x = C0.
Proof. unfold Cmul, C0. cbn [fst snd]. f_equal; ring. Qed.

(** The term of [inverse_direct] is the term of [inverse_sov] times the
    phase. *)
Lemma inverse_term_factor (spin : Z) (elfactor : R) (m : Z) (phi d : R) (x : C) :
  inverse_term spin elfactor m phi d x
  = Cmul (Cmul (RtoC (m1pow spin * elfactor * d)) x) (Cexp_i (IZR m * phi)).
Proof.
  unfold inverse_term, Cmul, RtoC, Cexp_i. cbn [fst snd]. f_equal; ring.
Qed.

(** ** Sums *)

(** [g a + g (a + 1) + ... + g (a + n - 1)], added from left to right
    starting from zero. *)
Fixpoint Csum_n (n : nat) (a : Z) (g : Z -> C) : C :=
  match n with
  | O => C0
  | Datatypes.S n' => Cadd (Csum_n n' a g) (g (a + Z.of_nat n'))
  end.

Definition Csum (a b : Z) (g : Z -> C) : C := Csum_n (Z.to_nat (b - a)) a g.



Lemma Csum_n_ext (n : nat) (a : Z) (g g' : Z -> C) :
  (forall j, a <= j < a + Z.of_nat n -> g' j = g j) ->
  Csum_n n a g' = Csum_n n a g.
Proof.
  induction n as [|n IH]; intros H; [reflexivity |].
  cbn [Csum_n]. rewrite IH by (intros j Hj; apply H; lia).
  rewrite H by lia. reflexivity.
Qed.

(** Adding [delta] to one term adds [delta] to the sum. *)
Lemma Csum_n_update (n : nat) (a k : Z) (g g' : Z -> C) (delta : C) :
  a <= k < a + Z.of_nat n ->
  (forall j, a <= j < a + Z.of_nat n -> j <> k -> g' j = g j) ->
  g' k = Cadd (g k) delta ->
  Csum_n n a g' = Cadd (Csum_n n a g) delta.
Proof.
  induction n as [|n IH]; intros Hk Hne Heq; [lia |].
  cbn [Csum_n].
  destruct (Z.eq_dec k (a + Z.of_nat n)) as [E|E].
  - rewrite (Csum_n_ext n a g g') by (intros j Hj; apply Hne; lia).
    rewrite <- E, Heq. symmetry. apply Cadd_assoc.
  - rewrite IH; [| lia | intros j Hj Hjk; apply Hne; lia | assumption].
    rewrite (Hne (a + Z.of_nat n)) by lia.
    rewrite !Cadd_assoc. f_equal. apply Cadd_comm.
Qed.

Lemma Csum_update (a b k : Z) (g g' : Z -> C) (delta : C) :
  a <= k < b ->
  (forall j, a <= j < b -> j <> k -> g' j = g j) ->
  g' k = Cadd (g k) delta ->
  Csum a b g' = Cadd (Csum a b g) delta.
Proof.
  intros Hk Hne. unfold Csum. apply Csum_n_update; [lia |].
  intros j Hj. apply Hne. lia.
Qed.

Lemma Csum_ext (a b : Z) (g g' : Z -> C) :
  (forall j, a <= j < b -> g' j = g j) -> Csum a b g' = Csum a b g.
Proof.
  intros H. unfold Csum. apply Csum_n_ext. intros j Hj. apply H. lia.
Qed.

Lemma Csum_zero (a b : Z) (g : Z -> C) :
  (forall j, a <= j < b -> g j = C0) -> Csum a b g = C0.
Proof.
  intros H. unfold Csum.
  assert (Hn : forall j, a <= j < a + Z.of_nat (Z.to_nat (b - a)) -> g j = C0)
    by (intros j Hj; apply H; lia).
  revert Hn. generalize (Z.to_nat (b - a)). intros n.
  induction n as [|n IH]; intros Hn; [reflexivity |].
  cbn [Csum_n]. rewrite IH by (intros j Hj; apply Hn; lia).
  rewrite Hn by lia. apply Cadd_0_l.
Qed.

(** ** [inverse_direct] against [inverse_sov] *)

Section DirectAgainstSov.

Variable risbo_compute_full :
  list (list R) -> R -> Z -> Z -> result (list (list R)).
Variables (flm : list C) (L spin : Z).
Variables (ntheta nphi : Z) (thetas phis : list R).

Hypothesis HL : 1 <= L.
Hypothesis Hflm : L * L <= Zlen flm.
Hypothesis Hlt : Zlen thetas <= ntheta.
Hypothesis Hlp : Zlen phis <= nphi.
Hypothesis Hris : forall dl theta el,
  shape2 dl (2 * L - 1) (2 * L - 1) -> 0 <= el < L ->
  exists dl', risbo_compute_full dl theta L el = Ok dl' /\
    shape2 dl' (2 * L - 1) (2 * L - 1).

(** The sum over the orders that the second stage of [inverse_sov] forms
    at the sample [(t, phi)]. *)
Definition sov_sum (fmt : list (list C)) (t : Z) (phi : R) : C :=
  Csum (- (L - 1)) L (fun m =>
    Cmul (mat_at C0 fmt (m + L - 1) t) (Cexp_i (IZR m * phi))).

(** The grid [f] of [inverse_direct] and the array [fmt] of [inverse_sov]
    after the same iterations. *)
Definition grids_agree (f fmt : list (list C)) : Prop :=
  shape2 f ntheta nphi /\ shape2 fmt (2 * L - 1) ntheta /\
  (forall t p, 0 <= t < Zlen thetas -> 0 <= p < Zlen phis ->
     mat_at C0 f t p = sov_sum fmt t (nthZ 0%R phis p)) /\
  (forall t p, 0 <= t < ntheta -> 0 <= p < nphi ->
     Zlen thetas <= t \/ Zlen phis <= p -> mat_at C0 f t p = C0).

Lemma sov_sum_mset (fmt : list (list C)) (t m : Z) (a : C) (t' : Z) (phi : R) :
  shape2 fmt (2 * L - 1) ntheta -> 0 <= t < ntheta -> - (L - 1) <= m < L ->
  0 <= t' ->
  sov_sum (mset fmt (m + L - 1) t (Cadd (mat_at C0 fmt (m + L - 1) t) a)) t' phi
  = if t =? t'
    then Cadd (sov_sum fmt t' phi) (Cmul a (Cexp_i (IZR m * phi)))
    else sov_sum fmt t' phi.
Proof.
  intros Hsh Ht Hm Ht'. unfold sov_sum.
  destruct (Z.eqb_spec t t') as [<-|Hne].
  - apply (Csum_update _ _ m); [lia | |].
    + intros j Hj Hjm.
      rewrite (mat_at_mset C0 fmt (2 * L - 1) ntheta) by (assumption || lia).
      replace (m + L - 1 =? j + L - 1) with false
        by (symmetry; apply Z.eqb_neq; lia).
      reflexivity.
    + rewrite (mat_at_mset C0 fmt (2 * L - 1) ntheta) by (assumption || lia).
      rewrite !Z.eqb_refl. cbn [andb]. apply Cmul_add_l.
  - apply Csum_ext. intros j Hj.
    rewrite (mat_at_mset C0 fmt (2 * L - 1) ntheta) by (assumption || lia).
    replace (t =? t') with false by (symmetry; apply Z.eqb_neq; lia).
    rewrite andb_false_r. reflexivity.
Qed.

(** The loop over the samples in [phi] of [inverse_direct]. *)
Lemma direct_phi_loop (f : list (list C)) (dl : list (list R))
    (t el m : Z) (elfactor : R) :
  shape2 f ntheta nphi -> shape2 dl (2 * L - 1) (2 * L - 1) ->
  0 <= t < Zlen thetas -> Z.abs spin <= el < L -> - el <= m <= el ->
  exists f',
    for_enumerate phis (fun p phi f =>
      old <- get2 f t p ;;
      d <- get2 dl (m + L - 1) (- spin + L - 1) ;;
      x <- get1 flm (elm2ind el m) ;;
      set2 f t p (Cadd old (inverse_term spin elfactor m phi d x))) f = Ok f' /\
    shape2 f' ntheta nphi /\
    forall t' p, 0 <= t' < ntheta -> 0 <= p < nphi ->
      mat_at C0 f' t' p
      = if (t' =? t) && (p <? Zlen phis)
        then Cadd (mat_at C0 f t' p)
               (inverse_term spin elfactor m (nthZ 0%R phis p)
                  (mat_at 0%R dl (m + L - 1) (- spin + L - 1))
                  (nthZ C0 flm (elm2ind el m)))
        else mat_at C0 f t' p.
Proof.
  intros Hf Hdl Ht Hel Hm.
  pose proof (elm2ind_range L el m ltac:(lia) ltac:(lia)) as Hidx.
  pose (I := fun (q : Z) (cur : list (list C)) =>
    shape2 cur ntheta nphi /\
    forall t' p, 0 <= t' < ntheta -> 0 <= p < nphi ->
      mat_at C0 cur t' p
      = if (t' =? t) && (p <? q)
        then Cadd (mat_at C0 f t' p)
               (inverse_term spin elfactor m (nthZ 0%R phis p)
                  (mat_at 0%R dl (m + L - 1) (- spin + L - 1))
                  (nthZ C0 flm (elm2ind el m)))
        else mat_at C0 f t' p).
  match goal with |- exists f', for_enumerate _ ?body _ = _ /\ _ =>
    destruct (for_enumerate_inv I body phis f) as [f' [Hf' [Hsh' Hent]]] end.
  - split; [exact Hf |]. intros t' p Ht' Hp.
    replace (p <? 0) with false by (symmetry; apply Z.ltb_ge; lia).
    rewrite andb_false_r. reflexivity.
  - intros q phi cur Hq Hphi [Hcsh Hcur].
    rewrite (get2_ok C0 cur ntheta nphi) by (assumption || lia). cbn [bind].
    rewrite (get2_ok 0%R dl (2 * L - 1) (2 * L - 1)) by (assumption || lia).
    cbn [bind].
    rewrite (get1_ok C0) by lia. cbn [bind].
    rewrite (set2_ok cur ntheta nphi) by (assumption || lia).
    eexists. split; [reflexivity |]. split.
    + apply shape2_mset; [assumption | lia].
    + intros t' p Ht' Hp.
      rewrite (mat_at_mset C0 cur ntheta nphi) by (assumption || lia).
      rewrite !Hcur by lia.
      rewrite Z.eqb_refl, Z.ltb_irrefl. cbn [andb].
      assert (Hnth : nthZ 0%R phis q = phi).
      { unfold nthZ. apply nth_error_nth. exact Hphi. }
      destruct (Z.eqb_spec t t') as [<-|Hne]; cbn [andb].
      * rewrite Z.eqb_refl. cbn [andb].
        destruct (Z.eqb_spec q p) as [<-|Hqp].
        -- replace (q <? q + 1) with true by (symmetry; apply Z.ltb_lt; lia).
           rewrite Hnth. reflexivity.
        -- destruct (Z.ltb_spec p q); destruct (Z.ltb_spec p (q + 1));
             try lia; reflexivity.
      * replace (t' =? t) with false by (symmetry; apply Z.eqb_neq; lia).
        reflexivity.
  - exists f'. split; [exact Hf' |]. split; [exact Hsh' |]. exact Hent.
Qed.

(** The loop over the orders [m]: one step of [inverse_direct] against
    one step of [inverse_sov]. *)
Lemma orders_agree (f fmt : list (list C)) (dl : list (list R))
    (t el : Z) (elfactor : R) :
  grids_agree f fmt -> shape2 dl (2 * L - 1) (2 * L - 1) ->
  0 <= t < Zlen thetas -> Z.abs spin <= el < L ->
  exists f' fmt',
    for_range (- el) (el + 1) (fun m f =>
      let i := elm2ind el m in
      for_enumerate phis (fun p phi f =>
        old <- get2 f t p ;;
        d <- get2 dl (m + L - 1) (- spin + L - 1) ;;
        x <- get1 flm i ;;
        set2 f t p (Cadd old (inverse_term spin elfactor m phi d x))) f) f
    = Ok f' /\
    for_range (- el) (el + 1) (fun m fmt =>
      let i := elm2ind el m in
      old <- get2 fmt (m + L - 1) t ;;
      d <- get2 dl (m + L - 1) (- spin + L - 1) ;;
      x <- get1 flm i ;;
      set2 fmt (m + L - 1) t
        (Cadd old (Cmul (RtoC (m1pow spin * elfactor * d)) x))) fmt
    = Ok fmt' /\
    grids_agree f' fmt'.
Proof.
  intros Hag Hdl Ht Hel.
  apply (for_range_rel grids_agree); [exact Hag |].
  intros m u1 u2 Hm [Hs1 [Hs2 [Ha Hb]]]. cbv zeta.
  pose proof (elm2ind_range L el m ltac:(lia) ltac:(lia)) as Hidx.
  destruct (direct_phi_loop u1 dl t el m elfactor Hs1 Hdl Ht Hel ltac:(lia))
    as [f' [Hf' [Hsh' Hent]]].
  exists f'. rewrite Hf'.
  rewrite (get2_ok C0 u2 (2 * L - 1) ntheta) by (assumption || lia). cbn [bind].
  rewrite (get2_ok 0%R dl (2 * L - 1) (2 * L - 1)) by (assumption || lia).
  cbn [bind].
  rewrite (get1_ok C0) by lia. cbn [bind].
  rewrite (set2_ok u2 (2 * L - 1) ntheta) by (assumption || lia).
  eexists. split; [reflexivity |]. split; [reflexivity |].
  split; [exact Hsh' |]. split; [apply shape2_mset; [assumption | lia] |].
  split.
  - intros t' p Ht' Hp. rewrite Hent by lia.
    rewrite sov_sum_mset by (assumption || lia).
    replace (p <? Zlen phis) with true by (symmetry; apply Z.ltb_lt; lia).
    rewrite andb_true_r. rewrite (Z.eqb_sym t' t).
    destruct (Z.eqb_spec t t') as [<-|Hne].
    + rewrite Ha by lia. f_equal. apply inverse_term_factor.
    + apply Ha; lia.
  - intros t' p Ht' Hp Hout. rewrite Hent by lia.
    destruct (Z.eqb_spec t' t) as [->|Hne]; cbn [andb].
    + replace (p <? Zlen phis) with false by (symmetry; apply Z.ltb_ge; lia).
      apply Hb; lia.
    + apply Hb; lia.
Qed.

(** The states of the two first stages: the same Wigner matrix, and
    arrays that agree. *)
Definition stages_agree (st1 st2 : list (list C) * list (list R)) : Prop :=
  snd st1 = snd st2 /\ shape2 (snd st1) (2 * L - 1) (2 * L - 1) /\
  grids_agree (fst st1) (fst st2).

Lemma first_stages_agree (f fmt : list (list C)) (dl : list (list R)) :
  grids_agree f fmt -> shape2 dl (2 * L - 1) (2 * L - 1) ->
  exists f' fmt' dl',
    for_enumerate thetas (fun t theta st =>
      for_range 0 L (fun el '(f, dl) =>
        dl <- risbo_compute_full dl theta L el ;;
        if Z.abs spin <=? el then
          let elfactor := sqrt (IZR (2 * el + 1) / (4 * PI)) in
          f <- for_range (- el) (el + 1) (fun m f =>
            let i := elm2ind el m in
            for_enumerate phis (fun p phi f =>
              old <- get2 f t p ;;
              d <- get2 dl (m + L - 1) (- spin + L - 1) ;;
              x <- get1 flm i ;;
              set2 f t p (Cadd old (inverse_term spin elfactor m phi d x))) f) f ;;
          Ok (f, dl)
        else Ok (f, dl)) st) (f, dl) = Ok (f', dl') /\
    sov_first_stage risbo_compute_full flm L spin thetas fmt dl
    = Ok (fmt', dl') /\
    grids_agree f' fmt'.
Proof.
  intros Hag Hdl. unfold sov_first_stage, for_enumerate.
  match goal with
  |- exists f' fmt' dl', for_enum_from _ _ ?b1 ?s1 = _ /\
       for_enum_from _ _ ?b2 ?s2 = _ /\ _ =>
    destruct (for_enum_from_rel stages_agree b1 b2 thetas 0 s1 s2)
      as [[f' dl1] [[fmt' dl2] [H1 [H2 [Hd [Hsh Hg]]]]]] end.
  - split; [reflexivity |]. split; assumption.
  - intros t theta u1 u2 Ht _ Hu.
    apply (for_range_rel stages_agree); [exact Hu |].
    intros el [f1 dl1] [fmt1 dl2] Hel [Hd [Hsh Hg]]. cbn [fst snd] in *.
    subst dl2.
    destruct (Hris dl1 theta el Hsh Hel) as [dl' [Hr Hsh']].
    rewrite Hr. cbn [bind].
    destruct (Z.leb_spec (Z.abs spin) el) as [Hge|Hlt'].
    + cbv beta iota zeta.
      destruct (orders_agree f1 fmt1 dl' t el
                  (sqrt (IZR (2 * el + 1) / (4 * PI))) Hg Hsh'
                  ltac:(lia) ltac:(lia))
        as [f' [fmt' [Hf' [Hfmt' Hg']]]].
      cbv zeta in Hf', Hfmt'. unfold for_enumerate in Hf'.
      rewrite Hf', Hfmt'. cbn [bind].
      eexists. eexists. split; [reflexivity |]. split; [reflexivity |].
      split; [reflexivity |]. split; assumption.
    + eexists. eexists. split; [reflexivity |]. split; [reflexivity |].
      split; [reflexivity |]. split; assumption.
  - cbn [fst snd] in *. subst dl2.
    exists f', fmt', dl1. split; [exact H1 |]. split; [exact H2 |]. exact Hg.
Qed.


Lemma grids_agree_zeros :
  grids_agree (repeat (repeat C0 (Z.to_nat nphi)) (Z.to_nat ntheta))
    (repeat (repeat C0 (Z.to_nat ntheta)) (Z.to_nat (2 * L - 1))).
Proof.
  pose proof (Zlen_nonneg thetas) as Hnt. pose proof (Zlen_nonneg phis) as Hnp.
  split; [apply shape2_zeros; lia |]. split; [apply shape2_zeros; lia |].
  split.
  - intros t p Ht Hp. rewrite mat_at_zeros by lia. symmetry.
    unfold sov_sum. apply Csum_zero. intros j Hj.
    rewrite mat_at_zeros by lia. apply Cmul_0_l.
  - intros t p Ht Hp _. apply mat_at_zeros; lia.
Qed.

End DirectAgainstSov.

(** A stand-in for [wigner.risbo.compute_full] in the closed examples: a
    matrix of side [2L - 1] without a zero entry pattern of its own, that
    depends on the angle and on the degree. *)
Definition risbo_stand_in (dl : list (list R)) (theta : R) (L el : Z)
  : result (list (list R)) :=
  Ok (tabulate (2 * L - 1) (fun i =>
        tabulate (2 * L - 1) (fun j => (theta + IZR (i + 2 * j + el))%R))).

Lemma Cexp_i_0 (x : R) : x = 0%R -> Cexp_i x = (1%R, 0%R).
Proof. intros ->. unfold Cexp_i. rewrite cos_0, sin_0. reflexivity. Qed.

Lemma sqrt_over_PI_pos (a : R) : (0 < a)%R -> (0 < sqrt (a / (4 * PI)))%R.
Proof.
  intros Ha. pose proof PI_RGT_0 as Hpi.
  apply sqrt_lt_R0. apply Rdiv_lt_0_compat; lra.
Qed.

Lemma risbo_stand_in_shape (L : Z) (dl : list (list R)) (theta : R) (el : Z) :
  1 <= L ->
  exists dl', risbo_stand_in dl theta L el = Ok dl' /\
    shape2 dl' (2 * L - 1) (2 * L - 1).
Proof.
  intros HL. eexists. split; [reflexivity |]. apply shape2_tabulate; lia.
Qed.



(** On the input of the closed example the two transforms go through
    their sums: the sample [(0, 0)] is not zero in either grid. *)
Example inverse_transforms_example_sample :
  exists f g,
    inverse_direct (fun _ _ => Ok 2) (fun _ _ => Ok 3)
      (fun _ _ => Ok [1%R]) (fun _ _ => Ok [0%R; 2%R])
      risbo_stand_in [(1, 0); (0, 1); (2, 0); (0, -1)]%R 2 1 "mw"
    = Ok f /\
    inverse_sov (fun _ _ => Ok 2) (fun _ _ => Ok 3)
      (fun _ _ => Ok [1%R]) (fun _ _ => Ok [0%R; 2%R])
      risbo_stand_in [(1, 0); (0, 1); (2, 0); (0, -1)]%R 2 1 "mw"
    = Ok g /\
    mat_at C0 f 0 0 <> C0 /\ mat_at C0 g 0 0 <> C0.
Proof.
  eexists. eexists. split; [reflexivity |]. split; [reflexivity |].
  cbn.
  cbv [Pos.to_nat Pos.iter_op Nat.add nth upd_nat repeat mat_at nthZ Z.to_nat].
  pose proof (sqrt_over_PI_pos 3 ltac:(lra)) as Hs.
  set (q := sqrt (3 / (4 * PI))) in *.
  split.
  - rewrite !inverse_term_factor.
    rewrite !(Cexp_i_0 (_ * 0)) by ring.
    intros H. apply (f_equal fst) in H.
    unfold Cadd, Cmul, RtoC, C0, m1pow in H. cbn [fst snd Z.even] in H. lra.
  - rewrite !(Cexp_i_0 (_ * 0)) by ring.
    intros H. apply (f_equal fst) in H.
    unfold Cadd, Cmul, RtoC, C0 in H. cbn [fst snd] in H. lra.
Qed.

(** ** [forward_direct] *)

(** X20. [forward_direct] with the scheme "dh" returns [L * L]
    coefficients, none of a degree below the spin.  For [L >= 1], a sampling
    provider that returns the angles and a weight for each of them, a Risbo
    recursion that returns a matrix of side [2L - 1] whenever it is given
    one, and a grid [f] with a row for every [theta] and a column for every
    [phi]: the call returns a vector of length [L * L] whose coefficient
    [(el, m)] is zero for every [el < |spin|]. *)
Theorem forward_direct_returns
    (samples_thetas samples_phis_equiang : Z -> string -> result (list R))
    (samples_weight_dh : R -> Z -> result R)
    (risbo_compute_full : list (list R) -> R -> Z -> Z -> result (list (list R)))
    (f : list (list C)) (L spin : Z) (sampling : string)
    (thetas phis : list R) (nt np : Z) :
  1 <= L -> lower sampling = "dh"%string ->
  samples_thetas L sampling = Ok thetas ->
  samples_phis_equiang L sampling = Ok phis ->
  (forall theta, In theta thetas -> is_ok (samples_weight_dh theta L)) ->
  (forall dl theta el, shape2 dl (2 * L - 1) (2 * L - 1) -> 0 <= el < L ->
     exists dl', risbo_compute_full dl theta L el = Ok dl' /\
       shape2 dl' (2 * L - 1) (2 * L - 1)) ->
  shape2 f nt np -> Zlen thetas <= nt -> Zlen phis <= np ->
  exists flm,
    forward_direct samples_thetas samples_phis_equiang samples_weight_dh
      risbo_compute_full f L spin sampling = Ok flm /\
    Zlen flm = L * L /\
    forall el m, 0 <= el < L -> el < Z.abs spin -> - el <= m <= el ->
      nthZ C0 flm (elm2ind el m) = C0.
Proof.
  intros HL Hdh Hth Hph Hw Hris Hf Hnt Hnp.
  unfold forward_direct. rewrite Hdh. cbn [String.eqb Ascii.eqb Bool.eqb negb].
  unfold ncoeff. rewrite np_zeros_ok by nia. cbn [bind].
  rewrite Hth, Hph. cbn [bind]. rewrite np_zeros2_ok by lia. cbn [bind].
  pose (Inv := fun (st : list C * list (list R)) =>
    Zlen (fst st) = L * L /\ shape2 (snd st) (2 * L - 1) (2 * L - 1) /\
    forall i, 0 <= i < L * L -> i < spin * spin -> nthZ C0 (fst st) i = C0).
  pose (InvF := fun (flm : list C) =>
    Zlen flm = L * L /\
    forall i, 0 <= i < L * L -> i < spin * spin -> nthZ C0 flm i = C0).
  match goal with |- exists flm, bind (for_enumerate _ ?body ?s) _ = _ /\ _ =>
    destruct (for_enumerate_inv (fun _ st => Inv st) body thetas s)
      as [[flm dl] [Hrun [Hlen [_ Hz]]]] end.
  - unfold Inv. cbn [fst snd]. split; [rewrite Zlen_repeat; nia |].
    split; [apply shape2_zeros; lia |].
    intros i Hi _. apply nthZ_repeat. lia.
  - intros t theta st Ht Hnth Hst.
    destruct (Hw theta (nth_error_In _ _ Hnth)) as [w Hwt].
    rewrite Hwt. cbn [bind]. cbv zeta.
    apply (for_range_inv (fun _ st => Inv st)); [lia | exact Hst |].
    intros el [flm dl] Hel [Hl [Hsh Hz]]. cbn [fst snd] in *.
    destruct (Hris dl theta el Hsh Hel) as [dl' [Hr Hsh']].
    rewrite Hr. cbn [bind].
    destruct (Z.leb_spec (Z.abs spin) el) as [Hge|Hlt].
    + match goal with
      |- exists t', bind (for_range _ _ ?body ?s) _ = _ /\ _ =>
        destruct (for_range_inv (fun _ fl => InvF fl) (- el) (el + 1) body s)
          as [flm' [Hrun' [Hl' Hz']]] end.
      * lia.
      * split; assumption.
      * intros m fl Hm Hfl.
        pose proof (elm2ind_range L el m ltac:(lia) ltac:(lia)) as Hidx.
        apply (for_enumerate_inv (fun _ fl => InvF fl)); [exact Hfl |].
        intros p phi fl' Hp _ [Hl' Hz'].
        rewrite (get1_ok C0) by lia. cbn [bind].
        rewrite (get2_ok 0%R dl' (2 * L - 1) (2 * L - 1)) by (assumption || lia).
        cbn [bind].
        rewrite (get2_ok C0 f nt np) by (assumption || lia). cbn [bind].
        rewrite set1_ok by lia.
        eexists. split; [reflexivity |]. split.
        -- rewrite Zlen_setZ. assumption.
        -- intros i Hi Hlow. rewrite nthZ_setZ_ne; [apply Hz'; assumption | lia | lia |].
           unfold elm2ind. nia.
      * rewrite Hrun'. cbn [bind]. eexists. split; [reflexivity |].
        unfold Inv. cbn [fst snd]. split; [exact Hl' |]. split; assumption.
    + eexists. split; [reflexivity |].
      unfold Inv. cbn [fst snd]. split; [exact Hl |]. split; assumption.
  - cbn [fst snd] in *. rewrite Hrun. cbn [bind].
    exists flm. split; [reflexivity |]. split; [exact Hlen |].
    intros el m Hel Hlow Hm. apply Hz.
    + apply elm2ind_range; assumption.
    + unfold elm2ind. nia.
Qed.

Lemma forward_direct_returns_witness :
  exists flm,
    forward_direct (fun _ _ => Ok [1%R]) (fun _ _ => Ok [0%R; 2%R])
      (fun _ _ => Ok 1%R) risbo_stand_in
      [[(1, 0); (0, 1)]]%R 2 1 "DH" = Ok flm /\
    Zlen flm = 2 * 2 /\
    forall el m, 0 <= el < 2 -> el < Z.abs 1 -> - el <= m <= el ->
      nthZ C0 flm (elm2ind el m) = C0.
Proof.
  apply (forward_direct_returns (fun _ _ => Ok [1%R]) (fun _ _ => Ok [0%R; 2%R])
           (fun _ _ => Ok 1%R) risbo_stand_in
           [[(1, 0); (0, 1)]]%R 2 1 "DH" [1%R] [0%R; 2%R] 1 2).
  - lia.
  - reflexivity.
  - reflexivity.
  - reflexivity.
  - intros theta _. exists 1%R. reflexivity.
  - intros dl theta el _ _. apply risbo_stand_in_shape. lia.
  - split; [reflexivity | repeat constructor].
  - vm_compute. discriminate.
  - vm_compute. discriminate.
Defined.

(** On the input of the closed example the coefficient [(1, 0)], of a
    degree not below the spin, is not zero. *)
Example forward_direct_example_coefficient :
  exists flm,
    forward_direct (fun _ _ => Ok [1%R]) (fun _ _ => Ok [0%R; 2%R])
      (fun _ _ => Ok 1%R) risbo_stand_in
      [[(1, 0); (0, 1)]]%R 2 1 "DH" = Ok flm /\
    nthZ C0 flm (elm2ind 1 0) <> C0.
Proof.
  eexists. split; [reflexivity |].
  cbn. cbv [Pos.to_nat Pos.iter_op Nat.add nth upd_nat repeat].
  rewrite !(Cexp_i_0 (- 0 * _)) by ring.
  intros H. apply (f_equal fst) in H.
  unfold Cadd, Cmul, RtoC, C0 in H. cbn [fst snd] in H.
  pose proof PI_RGT_0 as Hpi.
  pose proof (sqrt_over_PI_pos 3 ltac:(lra)) as Hs.
  set (q := sqrt (3 / (4 * PI))) in *.
  assert (Hq : (0 < PI * q)%R) by (apply Rmult_lt_0_compat; assumption).
  nra.
Qed.

(** ** [inverse_sov_fft] *)

(** [m[a:b, t]] inside the array. *)
Lemma get_col_slice_spec (cols : Z) (m : list (list C)) (r a b t : Z) :
  shape2 m r cols -> 0 <= a <= b -> b <= r -> 0 <= t < cols ->
  exists v, get_col_slice cols m a b t = Ok v /\ Zlen v = b - a /\
    forall k, 0 <= k < b - a -> nthZ C0 v k = mat_at C0 m (a + k) t.
Proof.
  intros Hm Hab Hb Ht. unfold get_col_slice.
  replace (Zlen m) with r by (destruct Hm; lia).
  rewrite slice_bounds_in by lia. rewrite py_index_in by lia. cbn [bind].
  pose (I := fun (i : Z) (acc : list C) =>
    Zlen acc = i - a /\
    forall k, 0 <= k < i - a -> nthZ C0 acc k = mat_at C0 m (a + k) t).
  match goal with |- exists v, for_range _ _ ?body ?s = _ /\ _ =>
    destruct (for_range_inv I a b body s) as [v [Hv [Hlen Hent]]] end.
  - lia.
  - split; [unfold Zlen; cbn [List.length]; lia | intros k Hk; lia].
  - intros i acc Hi [Hl He].
    rewrite (get2_ok C0 m r cols) by (assumption || lia). cbn [bind].
    eexists. split; [reflexivity |]. split.
    + unfold Zlen in *. rewrite length_app. cbn [List.length]. lia.
    + intros k Hk. unfold nthZ.
      destruct (Z.eq_dec k (i - a)) as [->|Hne].
      * rewrite app_nth2 by (unfold Zlen in Hl; lia).
        replace (Z.to_nat (i - a) - List.length acc)%nat with O
          by (unfold Zlen in Hl; lia).
        cbn [nth]. f_equal. lia.
      * rewrite app_nth1 by (unfold Zlen in Hl; lia).
        apply He. lia.
  - exists v. split; [exact Hv |]. split; [exact Hlen | exact Hent].
Qed.

(** [m[a:b, t] = v] inside the array, for [v] of the length of the slice. *)
Lemma set_col_slice_spec (cols : Z) (m : list (list C)) (r a b t : Z)
    (v : list C) :
  shape2 m r cols -> 0 <= a <= b -> b <= r -> 0 <= t < cols ->
  Zlen v = b - a ->
  exists m', set_col_slice cols m a b t v = Ok m' /\ shape2 m' r cols /\
    forall i j, 0 <= i < r -> 0 <= j < cols ->
      mat_at C0 m' i j
      = if (a <=? i) && (i <? b) && (j =? t) then nthZ C0 v (i - a)
        else mat_at C0 m i j.
Proof.
  intros Hm Hab Hb Ht Hv. unfold set_col_slice.
  replace (Zlen m) with r by (destruct Hm; lia).
  rewrite slice_bounds_in by lia. rewrite py_index_in by lia. cbn [bind].
  rewrite Hv, Z.eqb_refl.
  pose (I := fun (q : Z) (cur : list (list C)) =>
    shape2 cur r cols /\
    forall i j, 0 <= i < r -> 0 <= j < cols ->
      mat_at C0 cur i j
      = if (a <=? i) && (i <? q) && (j =? t) then nthZ C0 v (i - a)
        else mat_at C0 m i j).
  match goal with |- exists m', for_range _ _ ?body ?s = _ /\ _ =>
    destruct (for_range_inv I a b body s) as [m' [Hm' [Hsh Hent]]] end.
  - lia.
  - split; [exact Hm |]. intros i j Hi Hj.
    destruct (Z.leb_spec a i); destruct (Z.ltb_spec i a); try lia; reflexivity.
  - intros q cur Hq [Hcs Hce].
    rewrite (set2_ok cur r cols) by (assumption || lia).
    eexists. split; [reflexivity |]. split.
    + apply shape2_mset; [assumption | lia].
    + intros i j Hi Hj.
      rewrite (mat_at_mset C0 cur r cols) by (assumption || lia).
      rewrite Hce by lia. rewrite (Z.eqb_sym t j).
      destruct (Z.eqb_spec q i) as [E|Hne]; destruct (Z.eqb_spec j t);
        destruct (Z.leb_spec a i); destruct (Z.ltb_spec i q);
        destruct (Z.ltb_spec i (q + 1)); cbn [andb]; try lia;
        try reflexivity; subst; reflexivity.
  - exists m'. split; [exact Hm' |]. split; [exact Hsh | exact Hent].
Qed.

(** The rows of [fmt] as [inverse_sov_fft] rearranges them before the
    transform: the orders [0 .. L - 1] first, then [- (L - 1) .. - 1]; the
    columns without an angle stay zero. *)
Definition shifted_rows (L ntheta nangles : Z) (fmt : list (list C))
  : list (list C) :=
  tabulate (2 * L - 1) (fun k => tabulate ntheta (fun t =>
    if t <? nangles
    then mat_at C0 fmt (if k <? L then k + L - 1 else k - L) t
    else C0)).

Lemma shift_loop (L ntheta : Z) (thetas : list R) (fmt : list (list C)) :
  1 <= L -> Zlen thetas <= ntheta -> shape2 fmt (2 * L - 1) ntheta ->
  for_enumerate thetas (fun t (theta : R) fmt_shift =>
    v <- get_col_slice ntheta fmt (0 + L - 1) (L + L - 1) t ;;
    fmt_shift <- set_col_slice ntheta fmt_shift 0 L t v ;;
    w <- get_col_slice ntheta fmt (- (L - 1) + L - 1) (0 + L - 1) t ;;
    set_col_slice ntheta fmt_shift L (2 * L - 1) t w)
    (repeat (repeat C0 (Z.to_nat ntheta)) (Z.to_nat (2 * L - 1)))
  = Ok (shifted_rows L ntheta (Zlen thetas) fmt).
Proof.
  intros HL Hnt Hfmt. pose proof (Zlen_nonneg thetas) as H0.
  pose (I := fun (q : Z) (cur : list (list C)) =>
    shape2 cur (2 * L - 1) ntheta /\
    forall k t, 0 <= k < 2 * L - 1 -> 0 <= t < ntheta ->
      mat_at C0 cur k t
      = if t <? q
        then mat_at C0 fmt (if k <? L then k + L - 1 else k - L) t
        else C0).
  match goal with |- for_enumerate _ ?body ?s = _ =>
    destruct (for_enumerate_inv I body thetas s) as [m [Hm [Hsh Hent]]] end.
  - split; [apply shape2_zeros; lia |]. intros k t Hk Ht.
    rewrite mat_at_zeros by lia.
    replace (t <? 0) with false by (symmetry; apply Z.ltb_ge; lia).
    reflexivity.
  - intros q theta cur Hq _ [Hcs Hce].
    destruct (get_col_slice_spec ntheta fmt (2 * L - 1) (0 + L - 1) (L + L - 1) q)
      as [v [Hv [Hvl Hve]]]; try assumption; try lia.
    rewrite Hv. cbn [bind].
    destruct (set_col_slice_spec ntheta cur (2 * L - 1) 0 L q v)
      as [c1 [Hc1 [Hs1 He1]]]; try assumption; try lia.
    rewrite Hc1. cbn [bind].
    destruct (get_col_slice_spec ntheta fmt (2 * L - 1)
                (- (L - 1) + L - 1) (0 + L - 1) q)
      as [w [Hw [Hwl Hwe]]]; try assumption; try lia.
    rewrite Hw. cbn [bind].
    destruct (set_col_slice_spec ntheta c1 (2 * L - 1) L (2 * L - 1) q w)
      as [c2 [Hc2 [Hs2 He2]]]; try assumption; try lia.
    rewrite Hc2. eexists. split; [reflexivity |]. split; [exact Hs2 |].
    intros k t Hk Ht. rewrite He2, He1, Hce by lia.
    destruct (Z.eqb_spec t q) as [->|Hne].
    + replace (q <? q + 1) with true by (symmetry; apply Z.ltb_lt; lia).
      rewrite Z.ltb_irrefl.
      destruct (Z.ltb_spec k L).
      * replace (L <=? k) with false by (symmetry; apply Z.leb_gt; lia).
        replace (0 <=? k) with true by (symmetry; apply Z.leb_le; lia).
        cbn [andb]. rewrite Hve by lia. f_equal. lia.
      * replace (L <=? k) with true by (symmetry; apply Z.leb_le; lia).
        replace (k <? 2 * L - 1) with true by (symmetry; apply Z.ltb_lt; lia).
        cbn [andb]. rewrite Hwe by lia. f_equal. lia.
    + rewrite !andb_false_r.
      destruct (Z.ltb_spec t q); destruct (Z.ltb_spec t (q + 1)); try lia;
        reflexivity.
  - rewrite Hm. f_equal.
    apply (mat_ext C0 m _ (2 * L - 1) ntheta); [exact Hsh | |].
    + unfold shifted_rows. apply shape2_tabulate; lia.
    + intros k t Hk Ht. rewrite Hent by lia. unfold shifted_rows.
      rewrite mat_at_tabulate by lia. reflexivity.
Qed.

(** X21. The two slice assignments of [inverse_sov_fft] are an
    [ifftshift] along the orders: the array handed to [fft.ifft] holds row
    [k + L - 1] of [fmt] (order [k]) in row [k < L] and row [k - L] of [fmt]
    (order [k - (2L - 1)]) in row [k >= L], where [fmt] is what the first
    stage shared with [inverse_sov] returns; the result is the transpose of
    the transform of that array.  The angles [phi] and the count [nphi] of
    the sampling provider play no part. *)
Theorem inverse_sov_fft_shifts
    (samples_ntheta samples_nphi_equiang : Z -> string -> result Z)
    (samples_thetas samples_phis_equiang : Z -> string -> result (list R))
    (risbo_compute_full : list (list R) -> R -> Z -> Z -> result (list (list R)))
    (fft_ifft_axis0_forward : list (list C) -> result (list (list C)))
    (flm : list C) (L spin : Z) (sampling : string)
    (ntheta nphi : Z) (thetas phis : list R) :
  1 <= L -> L * L <= Zlen flm ->
  samples_ntheta L sampling = Ok ntheta ->
  samples_nphi_equiang L sampling = Ok nphi ->
  samples_thetas L sampling = Ok thetas ->
  samples_phis_equiang L sampling = Ok phis ->
  Zlen thetas <= ntheta -> 0 <= nphi ->
  (forall dl theta el, shape2 dl (2 * L - 1) (2 * L - 1) -> 0 <= el < L ->
     exists dl', risbo_compute_full dl theta L el = Ok dl' /\
       shape2 dl' (2 * L - 1) (2 * L - 1)) ->
  exists fmt dl,
    sov_first_stage risbo_compute_full flm L spin thetas
      (repeat (repeat C0 (Z.to_nat ntheta)) (Z.to_nat (2 * L - 1)))
      (repeat (repeat 0%R (Z.to_nat (2 * L - 1))) (Z.to_nat (2 * L - 1)))
    = Ok (fmt, dl) /\
    shape2 fmt (2 * L - 1) ntheta /\
    inverse_sov_fft samples_ntheta samples_nphi_equiang samples_thetas
      samples_phis_equiang risbo_compute_full fft_ifft_axis0_forward
      flm L spin sampling
    = (f <- fft_ifft_axis0_forward
              (shifted_rows L ntheta (Zlen thetas) fmt) ;;
       Ok (np_transpose C0 ntheta f)).
Proof.
  intros HL Hflm Hnt Hnp Hth Hph Hlt Hn0 Hris.
  pose proof (Zlen_nonneg thetas) as H0t.
  assert (Hlp : Zlen (@nil R) <= nphi) by (unfold Zlen; cbn [List.length]; lia).
  destruct (first_stages_agree risbo_compute_full flm L spin ntheta nphi
              thetas [] HL Hflm Hlt Hlp Hris _ _
              (repeat (repeat 0%R (Z.to_nat (2 * L - 1))) (Z.to_nat (2 * L - 1)))
              (grids_agree_zeros L ntheta nphi thetas [] HL Hlt Hlp))
    as [f [fmt [dl [_ [H2 [_ [Hsfmt _]]]]]]].
  { apply shape2_zeros; lia. }
  exists fmt, dl. split; [exact H2 |]. split; [exact Hsfmt |].
  unfold inverse_sov_fft.
  rewrite Hnt, Hnp, Hth, Hph. cbn [bind].
  rewrite !np_zeros2_ok by lia. cbn [bind].
  rewrite H2. cbn [bind].
  pose proof (shift_loop L ntheta thetas fmt HL Hlt Hsfmt) as Hs.
  cbn [bind] in Hs. rewrite Hs. reflexivity.
Qed.

Lemma inverse_sov_fft_shifts_witness :
  exists fmt dl,
    sov_first_stage risbo_stand_in
      [(1, 0); (0, 1); (2, 0); (0, -1)]%R 2 0 [1%R]
      (repeat (repeat C0 (Z.to_nat 1)) (Z.to_nat (2 * 2 - 1)))
      (repeat (repeat 0%R (Z.to_nat (2 * 2 - 1))) (Z.to_nat (2 * 2 - 1)))
    = Ok (fmt, dl) /\
    shape2 fmt (2 * 2 - 1) 1 /\
    inverse_sov_fft (fun _ _ => Ok 1) (fun _ _ => Ok 4)
      (fun _ _ => Ok [1%R]) (fun _ _ => Ok [0%R; 2%R])
      risbo_stand_in (fun x => Ok x)
      [(1, 0); (0, 1); (2, 0); (0, -1)]%R 2 0 "mw"
    = (f <- (fun x => Ok x) (shifted_rows 2 1 (Zlen [1%R]) fmt) ;;
       Ok (np_transpose C0 1 f)).
Proof.
  apply (inverse_sov_fft_shifts (fun _ _ => Ok 1) (fun _ _ => Ok 4)
           (fun _ _ => Ok [1%R]) (fun _ _ => Ok [0%R; 2%R])
           risbo_stand_in (fun x => Ok x)
           [(1, 0); (0, 1); (2, 0); (0, -1)]%R 2 0 "mw" 1 4 [1%R] [0%R; 2%R]).
  - lia.
  - vm_compute. discriminate.
  - reflexivity.
  - reflexivity.
  - reflexivity.
  - reflexivity.
  - vm_compute. discriminate.
  - lia.
  - intros dl theta el _ _. apply risbo_stand_in_shape. lia.
Defined.

(** On the input of the closed example the array [fmt] is not zero: its
    row of the order [0] holds the sum over the degrees [0] and [1]. *)
Example sov_first_stage_example_order :
  exists fmt dl,
    sov_first_stage risbo_stand_in
      [(1, 0); (0, 1); (2, 0); (0, -1)]%R 2 0 [1%R]
      (repeat (repeat C0 (Z.to_nat 1)) (Z.to_nat (2 * 2 - 1)))
      (repeat (repeat 0%R (Z.to_nat (2 * 2 - 1))) (Z.to_nat (2 * 2 - 1)))
    = Ok (fmt, dl) /\
    mat_at C0 fmt 1 0 <> C0.
Proof.
  eexists. eexists. split; [reflexivity |].
  cbn.
  cbv [Pos.to_nat Pos.iter_op Nat.add nth upd_nat repeat mat_at nthZ Z.to_nat].
  pose proof (sqrt_over_PI_pos 1 ltac:(lra)) as H1.
  pose proof (sqrt_over_PI_pos 3 ltac:(lra)) as H3.
  intros H. apply (f_equal fst) in H.
  unfold Cadd, Cmul, RtoC, C0 in H. cbn [fst snd] in H. lra.
Qed.
